(** * The install engine of [setup.py]

    A shallow embedding of [InstallerThread] (the archive stager, the install
    mapper, the permission normaliser, the desktop registrar and the workspace
    cleaner) and of [CleanModernInstaller._load_package_metadata], over a
    small model of a POSIX file tree; and of the parts of the window that
    the signals of a run reach: the arc of [CircularProgressBar], the slots
    [_start_installation] and [_installation_finished], the first part of
    [CleanModernInstaller.__init__] and [_get_app_icon_pixmap].

    Layout: Python string and path helpers; double-precision arithmetic of the
    progress formulas; the file tree and the [os], [shutil] and [zipfile]
    calls the engine makes; the engine itself in a state-and-exception
    monad; the loader; concrete machines and packages; relations between
    the states of a run; the window; then the theorems.

    What the model leaves out.  Paths are read from the root and [..] is
    resolved lexically.  The targets of symbolic links are out of reach.
    Every file has one name (no hard links).  Only the owner-write bit
    restricts a call.  [str.lower] acts on ASCII letters and [str.strip]
    on ASCII white space.  [shutil.copytree] copies the source as it is
    when the call starts.  The two cache tools report an outcome and leave
    the tree alone.  [time.sleep] is recorded, not timed.  Messages are
    kept by kind and arguments, not as text. *)

From Stdlib Require Import String Ascii List Sorted ZArith QArith Qround Qpower Lia Lqa Bool.
From Stdlib Require Import Floats.
Import ListNotations.

Set Warnings "-register-all".

Local Open Scope string_scope.
Local Open Scope Z_scope.

(* ================================================================== *)
(** ** Python strings *)

Module PyStr.

(** [s.startswith(p)] *)
Definition startswith (p s : string) : bool := String.prefix p s.

(** [s.endswith(suf)]: some suffix of [s] is [suf]. *)
Fixpoint endswith (suf s : string) : bool :=
  String.eqb s suf ||
  match s with
  | EmptyString => false
  | String _ t => endswith suf t
  end.

(** [c in s] for a one-character string [c]. *)
Fixpoint contains (c : ascii) (s : string) : bool :=
  match s with
  | EmptyString => false
  | String a t => Ascii.eqb a c || contains c t
  end.

(** [s.lstrip(chars)]: drop leading characters that occur in [chars]. *)
Fixpoint lstrip (chars s : string) : string :=
  match s with
  | EmptyString => EmptyString
  | String a t => if contains a chars then lstrip chars t else s
  end.

(** [s.rstrip(chars)] *)
Fixpoint rstrip (chars s : string) : string :=
  match s with
  | EmptyString => EmptyString
  | String a t =>
      match rstrip chars t with
      | EmptyString => if contains a chars then EmptyString else String a EmptyString
      | t' => String a t'
      end
  end.

Definition lower_ascii (a : ascii) : ascii :=
  let n := nat_of_ascii a in
  if ((65 <=? n) && (n <=? 90))%nat then ascii_of_nat (n + 32) else a.

(** [s.lower()], on the ASCII letters. *)
Fixpoint lower (s : string) : string :=
  match s with
  | EmptyString => EmptyString
  | String a t => String (lower_ascii a) (lower t)
  end.

(** [s.replace(old, new)] for a non-empty [old]: leftmost, non-overlapping
    occurrences.  [skip] counts the characters of a match still to drop. *)
Fixpoint replace_from (skip : nat) (old new s : string) : string :=
  match s with
  | EmptyString => EmptyString
  | String a t =>
      match skip with
      | S k => replace_from k old new t
      | O =>
          if String.prefix old s
          then new ++ replace_from (String.length old - 1) old new t
          else String a (replace_from O old new t)
      end
  end.

Definition replace (old new s : string) : string := replace_from O old new s.

(** The ASCII characters that [str.isspace] accepts: tab, line feed,
    vertical tab, form feed, carriage return, the four separators
    [0x1c]-[0x1f] and the space. *)
Definition whitespace : string :=
  String.string_of_list_ascii
    (map ascii_of_nat [9; 10; 11; 12; 13; 28; 29; 30; 31; 32]%nat).

(** [s.strip()], on ASCII white space. *)
Definition strip (s : string) : string := rstrip whitespace (lstrip whitespace s).

(** Python truthiness of a string: [not s] is [true] on the empty string. *)
Definition falsy (s : string) : bool :=
  match s with EmptyString => true | _ => false end.

(** [s.split(sep)] for a one-character separator. *)
Fixpoint split (sep : ascii) (s : string) : list string :=
  match s with
  | EmptyString => [EmptyString]
  | String a t =>
      if Ascii.eqb a sep then EmptyString :: split sep t
      else match split sep t with
           | [] => [String a EmptyString]
           | w :: ws => String a w :: ws
           end
  end.

End PyStr.

(* ================================================================== *)
(** ** [posixpath] *)

Module PosixPath.
Import PyStr.

Definition sep : ascii := "/"%char.

(** [os.path.join(a, b)] *)
Definition join (a b : string) : string :=
  if startswith "/" b then b
  else if falsy a || endswith "/" a then a ++ b
  else a ++ "/" ++ b.

Definition join3 (a b c : string) : string := join (join a b) c.
Definition join4 (a b c d : string) : string := join (join3 a b c) d.

(** [(p[:i], p[i:])] with [i = p.rfind('/') + 1]. *)
Fixpoint rsplit (p : string) : string * string :=
  match p with
  | EmptyString => (EmptyString, EmptyString)
  | String a t =>
      let (h, b) := rsplit t in
      if negb (falsy h) then (String a h, b)
      else if Ascii.eqb a sep then (String a EmptyString, t)
      else (EmptyString, String a t)
  end.

(** [os.path.basename(p)] *)
Definition basename (p : string) : string := snd (rsplit p).

(** [os.path.dirname(p)] *)
Definition dirname (p : string) : string :=
  let head := fst (rsplit p) in
  if negb (falsy head) && negb (falsy (lstrip "/" head))
  then rstrip "/" head else head.

(** The directory entries a path names, from the root: empty and [.]
    components are dropped and [..] steps back lexically.  Relative paths
    are read from the root (the working directory of the model). *)
Fixpoint walk_components (stack : list string) (cs : list string) : list string :=
  match cs with
  | [] => rev stack
  | c :: cs' =>
      if String.eqb c "" || String.eqb c "." then walk_components stack cs'
      else if String.eqb c ".." then walk_components (tl stack) cs'
      else walk_components (c :: stack) cs'
  end.

Definition components (p : string) : list string :=
  walk_components [] (split sep p).

End PosixPath.

(* ================================================================== *)
(** ** Double-precision arithmetic of the progress formulas

    [int((i + 1) / total_files * 50)] and
    [int(current_progress + (i + 1) / total_mappings * 50)] are computed on
    Python floats.  A finite non-negative double is kept as the rational it
    denotes, and every operation is the exact rational operation followed by
    rounding to 53 significant bits, ties to even (IEEE 754 binary64, away
    from overflow and from the subnormal range, which counts of archive
    entries and of mapping rules do not reach). *)

Module Binary64.
Local Open Scope Q_scope.

(** Round to the nearest integer, ties to even. *)
Definition rne (y : Q) : Z :=
  let f := Qfloor y in
  match Qcompare (y - inject_Z f) (1 # 2) with
  | Lt => f
  | Gt => (f + 1)%Z
  | Eq => if Z.even f then f else (f + 1)%Z
  end.

(** [floor (log2 x)] for [x > 0]. *)
Definition ilog2 (x : Q) : Z :=
  let l := (Z.log2 (Qnum x) - Z.log2 (Zpos (Qden x)))%Z in
  if Qle_bool (2 ^ l) x then l else (l - 1)%Z.

(** The double nearest to a non-negative rational. *)
Definition round (x : Q) : Q :=
  if Qle_bool x 0 then 0
  else let e := (ilog2 x - 52)%Z in inject_Z (rne (x / 2 ^ e)) * 2 ^ e.

(** [a / b] on two Python ints: the correctly rounded quotient. *)
Definition true_div (a b : Z) : Q := round (inject_Z a / inject_Z b).

(** [x * n] and [n + x] for a float [x] and an int [n] that is a double. *)
Definition mul_int (x : Q) (n : Z) : Q := round (x * inject_Z n).
Definition int_add (n : Z) (x : Q) : Q := round (inject_Z n + x).

(** [int(x)] for [x >= 0]. *)
Definition trunc (x : Q) : Z := Qfloor x.

(** The same two formulas on the primitive binary64 floats of the kernel,
    to compare the rational model against. *)
Definition prim_trunc (f : PrimFloat.float) : Z :=
  match FloatOps.Prim2SF f with
  | SpecFloat.S754_finite false m e =>
      if (0 <=? e)%Z then (Zpos m * 2 ^ e)%Z else (Zpos m / 2 ^ (- e))%Z
  | _ => 0%Z
  end.

Definition prim_of_Z (n : Z) : PrimFloat.float :=
  PrimFloat.of_uint63 (Uint63.of_Z n).

Definition prim_extraction_progress (i total : Z) : Z :=
  prim_trunc (PrimFloat.mul (PrimFloat.div (prim_of_Z (i + 1)) (prim_of_Z total))
                            (prim_of_Z 50)).

Definition prim_mapping_progress (i total : Z) : Z :=
  prim_trunc (PrimFloat.add (prim_of_Z 50)
                (PrimFloat.mul (PrimFloat.div (prim_of_Z (i + 1)) (prim_of_Z total))
                               (prim_of_Z 50))).

End Binary64.

(** The pairs [(i, total)] with [0 <= i < total <= n]. *)
Definition all_pairs_upto (n : nat) : list (Z * Z) :=
  flat_map (fun t => map (fun i => (Z.of_nat i, Z.of_nat (S t))) (seq 0 (S t))) (seq 0 n).

(** [progress = int((i + 1) / total_files * 50)] *)
Definition extraction_progress (i total_files : Z) : Z :=
  Binary64.trunc (Binary64.mul_int (Binary64.true_div (i + 1) total_files) 50).

(** [progress = int(current_progress + (i + 1) / total_mappings * 50)] with
    [current_progress = 50]. *)
Definition mapping_progress (i total_mappings : Z) : Z :=
  Binary64.trunc
    (Binary64.int_add 50 (Binary64.mul_int (Binary64.true_div (i + 1) total_mappings) 50)).

(* ================================================================== *)
(** ** The file tree

    One user, who owns every node.  A directory's entries can be created and
    deleted only when the directory has the owner-write bit; a file can be
    rewritten only when it has it.  Symbolic links are leaves whose targets
    are out of reach: every call that would follow one fails, so
    [os.path.exists], [isdir] and [isfile] are false on them and only
    [os.path.islink] sees them.  Read and search bits are not modelled. *)

Module FS.
Import PyStr PosixPath.

(** A ZIP archive as [zipfile] presents it.  [central_directory_ok] is
    false for a file that ends like an archive, so that
    [zipfile.is_zipfile] accepts it, but whose directory [ZipFile()]
    rejects with [BadZipFile]. *)
Record ZipInfo := mkZipInfo { filename : string; payload : string }.
Record Zip := mkZip { central_directory_ok : bool; infolist : list ZipInfo }.

Inductive fdata :=
| Bytes (s : string)
| ZipBytes (z : Zip).

Inductive node :=
| File (mode : Z) (data : fdata)
| Dir (mode : Z) (entries : list (string * node))
| Symlink (target : string).

(** [stat.S_IXUSR = 0o100], [S_IXGRP = 0o010], [S_IXOTH = 0o001],
    [S_IWUSR = 0o200]. *)
Definition S_IXUSR : Z := 64.
Definition S_IXGRP : Z := 8.
Definition S_IXOTH : Z := 1.
Definition S_IWUSR : Z := 128.

Definition writable (m : Z) : bool := negb (Z.land m S_IWUSR =? 0).

Inductive exn :=
| FileNotFoundError
| FileExistsError
| NotADirectoryError
| IsADirectoryError
| PermissionError
| LinkError            (* OSError: cannot call rmtree on a symbolic link *)
| SameFileError
| ShutilError          (* shutil.Error: the errors copytree collected *)
| BadZipFile
| IndexError
| UnicodeDecodeError.

(** [isinstance(e, OSError)] *)
Definition is_OSError (e : exn) : bool :=
  match e with
  | BadZipFile | IndexError | UnicodeDecodeError => false
  | _ => true
  end.

(** The tree after a call, and the exception it raised, if any. *)
Definition outcome : Type := node * option exn.

Fixpoint find_entry (name : string) (es : list (string * node)) : option node :=
  match es with
  | [] => None
  | (n, x) :: r => if String.eqb n name then Some x else find_entry name r
  end.

Fixpoint set_entry (name : string) (x : node) (es : list (string * node))
  : list (string * node) :=
  match es with
  | [] => [(name, x)]
  | (n, y) :: r =>
      if String.eqb n name then (n, x) :: r else (n, y) :: set_entry name x r
  end.

Definition del_entry (name : string) (es : list (string * node))
  : list (string * node) :=
  filter (fun e => negb (String.eqb (fst e) name)) es.

(** [os.lstat]: the node a path names, links not followed. *)
Fixpoint lookup (p : list string) (n : node) : option node :=
  match p with
  | [] => Some n
  | c :: p' =>
      match n with
      | Dir _ es =>
          match find_entry c es with
          | Some x => lookup p' x
          | None => None
          end
      | _ => None
      end
  end.

(** An edit of one directory entry: from whether the parent directory is
    writable and the entry as it is ([None]: absent) to the entry as it
    becomes and the exception raised. *)
Definition edit : Type := bool -> option node -> option node * option exn.

Definition apply_edit (m : Z) (c : string) (es : list (string * node))
  (r : option node * option exn) : outcome :=
  match fst r with
  | Some x => (Dir m (set_entry c x es), snd r)
  | None => (Dir m (del_entry c es), snd r)
  end.

Fixpoint alter (f : edit) (p : list string) (n : node) : outcome :=
  match p with
  | [] =>
      (* the root has no parent to unlink it from *)
      match f false (Some n) with
      | (Some n', e) => (n', e)
      | (None, _) => (n, Some PermissionError)
      end
  | [c] =>
      match n with
      | Dir m es => apply_edit m c es (f (writable m) (find_entry c es))
      | File _ _ => (n, Some NotADirectoryError)
      | Symlink _ => (n, Some PermissionError)
      end
  | c :: p' =>
      match n with
      | Dir m es =>
          match find_entry c es with
          | Some x => let (x', e) := alter f p' x in (Dir m (set_entry c x' es), e)
          | None => (n, Some FileNotFoundError)
          end
      | File _ _ => (n, Some NotADirectoryError)
      | Symlink _ => (n, Some PermissionError)
      end
  end.

(** Induction on a tree, the entries of a directory included. *)
Section NodeInduction.
Variable P : node -> Prop.
Hypothesis P_File : forall m d, P (File m d).
Hypothesis P_Symlink : forall t, P (Symlink t).
Hypothesis P_Dir : forall m es, Forall (fun e => P (snd e)) es -> P (Dir m es).

Fixpoint node_induction (n : node) : P n :=
  match n with
  | File m d => P_File m d
  | Symlink t => P_Symlink t
  | Dir m es =>
      P_Dir m es
        ((fix go (es : list (string * node)) : Forall (fun e => P (snd e)) es :=
            match es with
            | [] => Forall_nil _
            | e :: r => Forall_cons e (node_induction (snd e)) (go r)
            end) es)
  end.
End NodeInduction.

(** *** [os.path] queries *)

(** A file or a directory is at [p]. *)
Definition present (p : list string) (fs : node) : bool :=
  match lookup p fs with
  | Some (File _ _) | Some (Dir _ _) => true
  | _ => false
  end.

(** Every path present in [x'] is present in [x]. *)
Definition shrinks (x x' : node) : Prop :=
  forall p, present p x' = true -> present p x = true.

Definition os_path_exists (path : string) (fs : node) : bool :=
  present (components path) fs.

Definition os_path_isdir (path : string) (fs : node) : bool :=
  match lookup (components path) fs with
  | Some (Dir _ _) => true
  | _ => false
  end.

Definition os_path_isfile (path : string) (fs : node) : bool :=
  match lookup (components path) fs with
  | Some (File _ _) => true
  | _ => false
  end.

Definition os_path_islink (path : string) (fs : node) : bool :=
  match lookup (components path) fs with
  | Some (Symlink _) => true
  | _ => false
  end.

(** [zipfile.is_zipfile(path)] *)
Definition is_zipfile (path : string) (fs : node) : bool :=
  match lookup (components path) fs with
  | Some (File _ (ZipBytes _)) => true
  | _ => false
  end.

(** An edit that never adds to the node it is given. *)
Definition shrinking (f : edit) : Prop :=
  forall pw old new e,
    f pw old = (new, e) ->
    match new with
    | Some x' => exists x, old = Some x /\ shrinks x x'
    | None => True
    end.

(** *** [os.makedirs] *)

(** A chain of new directories below a directory just made with [dmode]. *)
Fixpoint fresh_dirs (dmode : Z) (p : list string) : outcome :=
  match p with
  | [] => (Dir dmode [], None)
  | c :: p' =>
      if writable dmode
      then let (x, e) := fresh_dirs dmode p' in (Dir dmode [(c, x)], e)
      else (Dir dmode [], Some PermissionError)
  end.

Fixpoint mkdirs (dmode : Z) (exist_ok : bool) (p : list string) (n : node) : outcome :=
  match n with
  | Dir m es =>
      match p with
      | [] => (n, if exist_ok then None else Some FileExistsError)
      | c :: p' =>
          match find_entry c es with
          | Some x =>
              let (x', e) := mkdirs dmode exist_ok p' x in
              (Dir m (set_entry c x' es), e)
          | None =>
              if writable m
              then let (x', e) := fresh_dirs dmode p' in (Dir m (set_entry c x' es), e)
              else (n, Some PermissionError)
          end
      end
  | File _ _ =>
      (n, Some match p with [] => FileExistsError | _ => NotADirectoryError end)
  | Symlink _ =>
      (n, Some match p with [] => FileExistsError | _ => PermissionError end)
  end.

(** [os.makedirs(path, exist_ok=exist_ok)]; new directories get
    [0o777 & ~umask], passed as [dmode]. *)
Definition os_makedirs (dmode : Z) (path : string) (exist_ok : bool) (fs : node) : outcome :=
  if falsy path then (fs, Some FileNotFoundError)
  else mkdirs dmode exist_ok (components path) fs.

(** [os.mkdir(path)] *)
Definition mkdir_edit (dmode : Z) : edit := fun pw old =>
  match old with
  | Some _ => (old, Some FileExistsError)
  | None => if pw then (Some (Dir dmode []), None) else (None, Some PermissionError)
  end.

Definition os_mkdir (dmode : Z) (path : string) (fs : node) : outcome :=
  alter (mkdir_edit dmode) (components path) fs.

(** *** [shutil.rmtree]

    Entries go in directory order, a sub-directory's content before the
    sub-directory itself; the first failure stops the walk and leaves the
    rest in place. *)
Definition rmtree_entries (rm : node -> option node * option exn) (w : bool)
  : list (string * node) -> list (string * node) * option exn :=
  fix go (es : list (string * node)) :=
    match es with
    | [] => ([], None)
    | (c, x) :: r =>
        match x with
        | Dir _ _ =>
            match rm x with
            | (None, _) => let (r', e) := go r in (del_entry c r', e)
            | (Some x', e) =>
                ((c, x') :: r,
                 Some match e with Some e' => e' | None => PermissionError end)
            end
        | _ =>
            if w then let (r', e) := go r in (del_entry c r', e)
            else (es, Some PermissionError)
        end
    end.

(** [pw]: the directory that holds [n] is writable. *)
Fixpoint rmtree_node (pw : bool) (n : node) : option node * option exn :=
  match n with
  | Dir m es =>
      match rmtree_entries (rmtree_node (writable m)) (writable m) es with
      | (es', Some e) => (Some (Dir m es'), Some e)
      | (_, None) => if pw then (None, None) else (Some (Dir m []), Some PermissionError)
      end
  | File _ _ => (Some n, Some NotADirectoryError)
  | Symlink _ => (Some n, Some LinkError)
  end.

Definition rmtree_edit : edit := fun pw old =>
  match old with
  | None => (None, Some FileNotFoundError)
  | Some x => rmtree_node pw x
  end.

Definition shutil_rmtree (path : string) (fs : node) : outcome :=
  alter rmtree_edit (components path) fs.

(** *** [os.remove] *)
Definition remove_edit : edit := fun pw old =>
  match old with
  | None => (None, Some FileNotFoundError)
  | Some (Dir _ _) => (old, Some IsADirectoryError)
  | Some _ => if pw then (None, None) else (old, Some PermissionError)
  end.

Definition os_remove (path : string) (fs : node) : outcome :=
  alter remove_edit (components path) fs.

(** *** [open(path, 'w')] followed by a write, and [os.chmod] *)
Definition write_edit (fmode : Z) (d : fdata) : edit := fun pw old =>
  match old with
  | None => if pw then (Some (File fmode d), None) else (None, Some PermissionError)
  | Some (File m _) =>
      if writable m then (Some (File m d), None) else (old, Some PermissionError)
  | Some (Dir _ _) => (old, Some IsADirectoryError)
  | Some (Symlink _) => (old, Some PermissionError)
  end.

Definition write_file (fmode : Z) (path : string) (d : fdata) (fs : node) : outcome :=
  alter (write_edit fmode d) (components path) fs.

Definition chmod_edit (m : Z) : edit := fun _ old =>
  match old with
  | None => (None, Some FileNotFoundError)
  | Some (File _ d) => (Some (File m d), None)
  | Some (Dir _ es) => (Some (Dir m es), None)
  | Some (Symlink _) => (old, Some PermissionError)
  end.

Definition os_chmod (path : string) (m : Z) (fs : node) : outcome :=
  alter (chmod_edit m) (components path) fs.

(** [os.stat(path).st_mode], permission bits only. *)
Definition st_mode (path : string) (fs : node) : option Z :=
  match lookup (components path) fs with
  | Some (File m _) | Some (Dir m _) => Some m
  | _ => None
  end.

(** *** [shutil.copytree] and [shutil.copy2] *)

(** The copy of a tree as [copytree] builds it below a directory it has just
    made with [dmode]: files and directories keep their mode ([copystat]),
    a link cannot be read, which is recorded and skipped.  The flag is false
    when something was skipped. *)
Definition copy_entries (cp : node -> option node * bool)
  : list (string * node) -> list (string * node) * bool :=
  fix go (es : list (string * node)) :=
    match es with
    | [] => ([], true)
    | (c, x) :: r =>
        let (r', okr) := go r in
        match cp x with
        | (Some x', ok) => ((c, x') :: r', ok && okr)
        | (None, _) => (r', false)
        end
    end.

Fixpoint copy_node (dmode : Z) (n : node) : option node * bool :=
  match n with
  | File m d => (Some (File m d), true)
  | Symlink _ => (None, false)
  | Dir m es =>
      match es with
      | [] => (Some (Dir m []), true)
      | _ =>
          if writable dmode
          then let (es', ok) := copy_entries (copy_node dmode) es in (Some (Dir m es'), ok)
          else (Some (Dir m []), false)
      end
  end.

Definition put_edit (t : node) (e : option exn) : edit := fun _ _ => (Some t, e).

(** [shutil.copytree(src, dst)], with [dirs_exist_ok] left at [False]:
    [os.makedirs(dst)] comes first and refuses an existing [dst]. *)
Definition shutil_copytree (dmode : Z) (src dst : string) (fs : node) : outcome :=
  match lookup (components src) fs with
  | Some (Dir m es) =>
      match os_makedirs dmode dst false fs with
      | (fs1, Some e) => (fs1, Some e)
      | (fs1, None) =>
          match copy_node dmode (Dir m es) with
          | (Some t, ok) =>
              alter (put_edit t (if ok then None else Some ShutilError)) (components dst) fs1
          | (None, _) => (fs1, Some ShutilError)
          end
      end
  | Some (File _ _) => (fs, Some NotADirectoryError)
  | Some (Symlink _) => (fs, Some PermissionError)
  | None => (fs, Some FileNotFoundError)
  end.

Definition copy_edit (m : Z) (d : fdata) : edit := fun pw old =>
  match old with
  | None => if pw then (Some (File m d), None) else (None, Some PermissionError)
  | Some (File m0 _) =>
      if writable m0 then (Some (File m d), None) else (old, Some PermissionError)
  | Some (Dir _ _) => (old, Some IsADirectoryError)
  | Some (Symlink _) => (old, Some PermissionError)
  end.

Fixpoint path_eqb (p q : list string) : bool :=
  match p, q with
  | [], [] => true
  | a :: p', b :: q' => String.eqb a b && path_eqb p' q'
  | _, _ => false
  end.

(** [shutil._samefile]: both exist and are one node. *)
Definition samefile (src dst : string) (fs : node) : bool :=
  os_path_exists src fs && os_path_exists dst fs
  && path_eqb (components src) (components dst).

(** [shutil.copy2(src, dst)]: data, then the mode of the source. *)
Definition shutil_copy2 (src dst : string) (fs : node) : outcome :=
  let dst' := if os_path_isdir dst fs then join dst (basename src) else dst in
  if samefile src dst' fs then (fs, Some SameFileError)
  else
    match lookup (components src) fs with
    | Some (File m d) => alter (copy_edit m d) (components dst') fs
    | Some (Dir _ _) => (fs, Some IsADirectoryError)
    | Some (Symlink _) => (fs, Some PermissionError)
    | None => (fs, Some FileNotFoundError)
    end.

(** *** [ZipFile.extract] *)

(** [os.path.normpath], paths read from the root. *)
Definition normpath (path : string) : string :=
  let body := String.concat "/" (components path) in
  if startswith "/" path then "/" ++ body
  else if falsy body then "." else body.

(** The member name with empty, [.] and [..] parts removed. *)
Definition arcname (member : ZipInfo) : string :=
  String.concat "/"
    (filter (fun x => negb (String.eqb x "" || String.eqb x "." || String.eqb x ".."))
            (split sep (filename member))).

(** [ZipInfo.is_dir]: [self.filename[-1] == '/'], which raises on an empty
    name. *)
Definition is_dir (member : ZipInfo) : option bool :=
  if falsy (filename member) then None else Some (endswith "/" (filename member)).

(** [zip_ref.extract(member, path)]; new directories get [dmode], new files
    [fmode] (the archive's permission bits are not restored). *)
Definition zip_extract (dmode fmode : Z) (member : ZipInfo) (path : string) (fs : node)
  : outcome :=
  let targetpath := normpath (join path (arcname member)) in
  let upperdirs := dirname targetpath in
  let (fs1, e1) :=
    if negb (falsy upperdirs) && negb (os_path_exists upperdirs fs)
    then os_makedirs dmode upperdirs false fs else (fs, None) in
  match e1 with
  | Some e => (fs1, Some e)
  | None =>
      match is_dir member with
      | None => (fs1, Some IndexError)
      | Some true =>
          if os_path_isdir targetpath fs1 then (fs1, None)
          else os_mkdir dmode targetpath fs1
      | Some false => write_file fmode targetpath (Bytes (payload member)) fs1
      end
  end.

End FS.

(* ================================================================== *)
(** ** The engine's data *)

Module Engine.
Import PyStr PosixPath FS.

(** One element of [install_map]; [None] is a key that is absent (or
    [null]) in the manifest, as [mapping.get] reports it. *)
Record MappingRule := mkRule {
  source_root : option string;
  destination_root : option string }.

(** Values of the [desktop_entry] object. *)
Inductive pyval :=
| PBool (b : bool)
| PStr (s : string).

(** [str(v)] *)
Definition py_str (v : pyval) : string :=
  match v with
  | PBool true => "True"
  | PBool false => "False"
  | PStr s => s
  end.

(** [d.get(key, default)] *)
Fixpoint dict_get (d : list (string * pyval)) (key : string) (default : pyval) : pyval :=
  match d with
  | [] => default
  | (k, v) :: r => if String.eqb k key then v else dict_get r key default
  end.

(** What [subprocess.run(..., check=True, capture_output=True)] did. *)
Inductive tool_result :=
| ToolOk
| ToolNotFound                              (* FileNotFoundError *)
| ToolFailed (stderr : option string)       (* CalledProcessError, with [e.stderr.decode()];
                                               [None]: stderr does not decode *)
| ToolOtherError.                           (* any other exception *)

(** The machine the installer runs on. *)
Record Host := mkHost {
  home_dir : string;                        (* os.path.expanduser("~") *)
  umask : Z;
  update_desktop_database : tool_result;
  gtk_update_icon_cache : tool_result }.

(** The arguments of [InstallerThread.__init__] that a run only reads. *)
Record InstallerThread := mkInstaller {
  zip_path : string;
  app_name : string;
  desktop_entry_metadata : list (string * pyval);
  install_map : list MappingRule }.

Inductive message :=
| MsgInvalidZip                                     (* "Error: ZIP file ain't valid or just gone, yo." *)
| MsgTempSpot (dir : string)                        (* "Gettin' a temp spot ready: ..." *)
| MsgNoInstallMap (dir : string)                    (* "No install map found. Just dumpin' everything to: ..." *)
| MsgIncompleteMap (rule : MappingRule)             (* "Heads up: Map's incomplete (...). Skippin' it." *)
| MsgClearingOld (dst : string)                     (* "Clearin' out old stuff at: ..." *)
| MsgCouldntWipe (dst : string) (e : exn)           (* "Warning: Couldn't wipe ...: ..." *)
| MsgGivingExec (path : string)                     (* "Givin' execute permission to: ..." *)
| MsgCopyFail (src dst : string) (e : exn)          (* "Copy fail from '...' to '...': ..." *)
| MsgDone                                           (* "Boom! Installation Done!" *)
| MsgBlewUp (e : exn)                               (* "Install totally blew up: ..." *)
| MsgExecutableMissing (name resolved : string)     (* "Heads up: Can't find '...' at '...'. ..." *)
| MsgIconMissing (name resolved : string)           (* "Yo, the icon '...' ain't at '...'. ..." *)
| MsgDesktopEntry (path : string)                   (* "Whippin' up desktop entry: ..." *)
| MsgDesktopEntryFail (e : exn)                     (* "Major fail makin' the desktop entry: ..." *)
| MsgCacheRefreshing                                (* "Refreshin' that desktop icon cache..." *)
| MsgCacheUpdated                                   (* "Desktop icon cache? Smooothly updated." *)
| MsgGtkCacheUpdated                                (* "GTK icon cache updated (fallback)." *)
| MsgNoCacheTool                                    (* "Heads up: Can't find 'update-desktop-database' or ..." *)
| MsgGtkCacheFailed (stderr : string)               (* "Whoops, GTK icon cache update kinda busted: ..." *)
| MsgGtkCacheError                                  (* "Random error when refreshin' icon cache: ..." *)
| MsgDatabaseFailed (stderr : string)               (* "Desktop database update went sideways: ..." *)
| MsgCacheUnexpected                                (* "Unexpected blip refreshin' desktop cache: ..." *)
| MsgTempCleaned (dir : string)                     (* "Temp directory cleaned up, easy peasy: ..." *)
| MsgTempRetry (dir : string) (attempt : Z) (e : exn) (* "Heads up: Couldn't delete ... (Attempt a/5): ... Retrying..." *)
| MsgTempFatal (dir : string) (e : exn)             (* "Fatal error: Couldn't delete temp directory ... after 5 tries: ..." *)
| MsgTempOops (dir : string) (e : exn)              (* "Generic oopsie cleanin' temp directory ...: ..." *)
| MsgIconTempCleaned (dir : string)                 (* "Temp icon display directory wiped clean: ..." *)
| MsgIconTempProblem (dir : string) (e : exn).      (* "Problem cleanin' temp icon display directory ...: ..." *)

(** [progress_signal], [message_signal] and [finished_signal]. *)
Inductive event :=
| Progress (value : Z)
| Message (m : message)
| Finished (success : bool).

(** What a run changes: the file tree, the signals emitted so far (oldest
    first), the two attributes the fallback path rewrites, and the time
    spent in [time.sleep]: the argument of every call so far, in seconds
    (oldest first). *)
Record world := mkWorld {
  fs : node;
  events : list event;
  executable_name : string;
  icon_path_in_zip : string;
  slept : list Q }.

(** *** State and exceptions *)

Inductive result (A : Type) :=
| Ok (a : A)
| Raise (e : exn).
Arguments Ok {A} a.
Arguments Raise {A} e.

Definition M (A : Type) : Type := world -> result A * world.

Definition ret {A} (a : A) : M A := fun w => (Ok a, w).

Definition bind {A B} (m : M A) (k : A -> M B) : M B := fun w =>
  match m w with
  | (Ok a, w') => k a w'
  | (Raise e, w') => (Raise e, w')
  end.

Declare Scope engine_scope.
Delimit Scope engine_scope with engine.
Notation "x <- m ;; k" := (bind m (fun x => k))
  (at level 61, m at next level, right associativity) : engine_scope.
Notation "m ;; k" := (bind m (fun _ => k))
  (at level 61, right associativity) : engine_scope.
Local Open Scope engine_scope.

Definition raise {A} (e : exn) : M A := fun w => (Raise e, w).

(** [try: m  except <exceptions accepted by catches> as e: h e] *)
Definition try_except {A} (catches : exn -> bool) (m : M A) (h : exn -> M A) : M A :=
  fun w =>
    match m w with
    | (Raise e, w') => if catches e then h e w' else (Raise e, w')
    | r => r
    end.

Definition any_Exception (e : exn) : bool := true.

(** [try: m  finally: f] *)
Definition try_finally {A} (m : M A) (f : M unit) : M A := fun w =>
  let (r, w') := m w in
  match f w' with
  | (Ok _, w'') => (r, w'')
  | (Raise e, w'') => (Raise e, w'')
  end.

Definition set_fs (t : node) (w : world) : world :=
  mkWorld t (events w) (executable_name w) (icon_path_in_zip w) (slept w).

(** A call that changes the tree and may raise. *)
Definition call (op : node -> outcome) : M unit := fun w =>
  let (t, e) := op (fs w) in
  (match e with None => Ok tt | Some x => Raise x end, set_fs t w).

(** A call that only reads the tree. *)
Definition ask {A} (q : node -> A) : M A := fun w => (Ok (q (fs w)), w).

(** [signal.emit(...)] *)
Definition emit (e : event) : M unit := fun w =>
  (Ok tt, mkWorld (fs w) (events w ++ [e]) (executable_name w) (icon_path_in_zip w)
            (slept w)).

Definition get_executable_name : M string := fun w => (Ok (executable_name w), w).
Definition get_icon_path_in_zip : M string := fun w => (Ok (icon_path_in_zip w), w).
Definition set_executable_name (s : string) : M unit := fun w =>
  (Ok tt, mkWorld (fs w) (events w) s (icon_path_in_zip w) (slept w)).
Definition set_icon_path_in_zip (s : string) : M unit := fun w =>
  (Ok tt, mkWorld (fs w) (events w) (executable_name w) s (slept w)).

(** [time.sleep(seconds)] *)
Definition time_sleep (seconds : Q) : M unit := fun w =>
  (Ok tt, mkWorld (fs w) (events w) (executable_name w) (icon_path_in_zip w)
            (slept w ++ [seconds])).

Definition when (b : bool) (m : M unit) : M unit := if b then m else ret tt.

Fixpoint emit_all (es : list event) : M unit :=
  match es with
  | [] => ret tt
  | e :: r => emit e ;; emit_all r
  end.

(* ================================================================== *)
(** ** [InstallerThread] *)

(** The heuristic of the permission pass: a [.sh] script, the name of the
    executable, or a name without a dot that is a regular file and whose
    [os.stat] does not report a link. *)
Definition recognised (executable_name file : string) (isfile s_islnk : bool) : bool :=
  endswith ".sh" file
  || String.eqb file (basename executable_name)
  || (negb (contains "." file) && isfile && negb s_islnk).

(** [st.st_mode | stat.S_IXUSR | stat.S_IXGRP | stat.S_IXOTH] *)
Definition with_execute_bits (m : Z) : Z :=
  Z.lor (Z.lor (Z.lor m S_IXUSR) S_IXGRP) S_IXOTH.

(** [not (st.st_mode & stat.S_IXUSR)] *)
Definition lacks_user_execute (m : Z) : bool := Z.land m S_IXUSR =? 0.

(** The [os.walk] loop over a copied directory, on the tree it walks:
    top-down, the files of a directory before its sub-directories.  Links
    are skipped; every other non-directory entry is a regular file. *)
Definition walk_entries (walk : string -> node -> node * list message)
  (executable_name root : string)
  : list (string * node) -> list (string * node) * (list message * list message) :=
  fix go (es : list (string * node)) :=
    match es with
    | [] => ([], ([], []))
    | (file, x) :: r =>
        let '(r', (fms, dms)) := go r in
        match x with
        | File mo d =>
            if recognised executable_name file true false && lacks_user_execute mo
            then ((file, File (with_execute_bits mo) d) :: r',
                  (MsgGivingExec (join root file) :: fms, dms))
            else ((file, x) :: r', (fms, dms))
        | Dir _ _ =>
            let (x', ms) := walk (join root file) x in
            ((file, x') :: r', (fms, (ms ++ dms)%list))
        | Symlink _ => ((file, x) :: r', (fms, dms))
        end
    end.

Fixpoint walk_chmod (executable_name root : string) (n : node) : node * list message :=
  match n with
  | Dir m es =>
      let '(es', (fms, dms)) :=
        walk_entries (walk_chmod executable_name) executable_name root es in
      (Dir m es', (fms ++ dms)%list)
  | _ => (n, [])
  end.

Section Run.

Variable host : Host.
Variable self : InstallerThread.

(** [0o777 & ~umask] and [0o666 & ~umask] *)
Definition dmode : Z := Z.ldiff 511 (umask host).
Definition fmode : Z := Z.ldiff 438 (umask host).

(** [self.app_name.lower().replace(' ', '')] *)
Definition normalized_name : string := replace " " "" (lower (app_name self)).

Definition temp_extract_dir : string :=
  join (home_dir host) ("." ++ normalized_name ++ "_installer_temp_extract").

Definition temp_icon_display_dir : string :=
  join (home_dir host) ("." ++ normalized_name ++ "_installer_display_temp_icon").

(** Lines 229-252: the permission pass over a destination just copied.
    The source changes a mode and emits its message file by file; nothing
    else happens in between, so the walk is taken as one change of the
    subtree followed by its messages, in the order of the walk. *)
Definition normalize_permissions (full_destination_path : string) : M unit :=
  isd <- ask (os_path_isdir full_destination_path) ;;
  if isd then
    exe <- get_executable_name ;;
    t <- ask (lookup (components full_destination_path)) ;;
    match t with
    | Some t =>
        let (t', ms) := walk_chmod exe full_destination_path t in
        call (alter (put_edit t' None) (components full_destination_path)) ;;
        emit_all (map Message ms)
    | None => ret tt
    end
  else
    isf <- ask (os_path_isfile full_destination_path) ;;
    when isf (
      let file_path := full_destination_path in
      isl <- ask (os_path_islink file_path) ;;
      when (negb isl) (
        exe <- get_executable_name ;;
        isf' <- ask (os_path_isfile file_path) ;;
        when (recognised exe (basename file_path) isf' false) (
          st <- ask (st_mode file_path) ;;
          match st with
          | Some mo =>
              when (lacks_user_execute mo) (
                call (os_chmod file_path (with_execute_bits mo)) ;;
                emit (Message (MsgGivingExec file_path)))
          | None => raise FileNotFoundError
          end))).

(** [not x] on the result of [mapping.get]. *)
Definition missing (x : option string) : bool :=
  match x with
  | None => true
  | Some s => falsy s
  end.

Definition text (x : option string) : string :=
  match x with
  | None => ""
  | Some s => s
  end.

(** Lines 208-217: the destination exists and is cleared first. *)
Definition remove_destination (full_destination_path : string) : M unit :=
  isd <- ask (os_path_isdir full_destination_path) ;;
  if isd then call (shutil_rmtree full_destination_path)
  else call (os_remove full_destination_path).

Definition clear_destination (full_destination_path : string) : M unit :=
  emit (Message (MsgClearingOld full_destination_path)) ;;
  try_except is_OSError
    (remove_destination full_destination_path)
    (fun e => emit (Message (MsgCouldntWipe full_destination_path e))).

(** Lines 222-255: the copy and the permission pass, under one [try]. *)
Definition copy_and_normalize (full_source_path_in_temp full_destination_path : string)
  : M unit :=
  src_isdir <- ask (os_path_isdir full_source_path_in_temp) ;;
  (if src_isdir
   then call (shutil_copytree dmode full_source_path_in_temp full_destination_path)
   else call (shutil_copy2 full_source_path_in_temp full_destination_path)) ;;
  normalize_permissions full_destination_path.

Definition copy_into_place
  (source_root_zip full_source_path_in_temp full_destination_path : string) : M unit :=
  try_except any_Exception
    (copy_and_normalize full_source_path_in_temp full_destination_path)
    (fun e => emit (Message (MsgCopyFail source_root_zip full_destination_path e))).

(** Lines 192-259: one turn of the loop over [install_map]. *)
Definition process_mapping (i total_mappings : Z) (mapping : MappingRule) : M unit :=
  if missing (source_root mapping) || missing (destination_root mapping) then
    (* continue: the progress lines at the end of the body are not reached *)
    emit (Message (MsgIncompleteMap mapping))
  else
    let source_root_zip := text (source_root mapping) in
    let destination_root_template := text (destination_root mapping) in
    let full_source_path_in_temp := join temp_extract_dir source_root_zip in
    let full_destination_path := replace "$HOME" (home_dir host) destination_root_template in
    src_exists <- ask (os_path_exists full_source_path_in_temp) ;;
    when src_exists (
      dst_exists <- ask (os_path_exists full_destination_path) ;;
      when dst_exists (clear_destination full_destination_path) ;;
      src_isfile <- ask (os_path_isfile full_source_path_in_temp) ;;
      call (os_makedirs dmode
              (if src_isfile then dirname full_destination_path else full_destination_path)
              true) ;;
      copy_into_place source_root_zip full_source_path_in_temp full_destination_path) ;;
    emit (Progress (mapping_progress i total_mappings)).

(** [for i, mapping in enumerate(self.install_map)] *)
Fixpoint mapping_loop (i total_mappings : Z) (maps : list MappingRule) : M unit :=
  match maps with
  | [] => ret tt
  | mapping :: r =>
      process_mapping i total_mappings mapping ;;
      mapping_loop (i + 1) total_mappings r
  end.

(** Lines 174-187: no install map. *)
Definition fallback_install : M unit :=
  let default_app_dir := join3 (home_dir host) ".app" (app_name self) in
  emit (Message (MsgNoInstallMap default_app_dir)) ;;
  dst_exists <- ask (os_path_exists default_app_dir) ;;
  when dst_exists (call (shutil_rmtree default_app_dir)) ;;
  call (shutil_copytree dmode temp_extract_dir default_app_dir) ;;
  exe <- get_executable_name ;;
  when (falsy exe || negb (startswith "." exe))
    (set_executable_name
       (join3 ".app" (app_name self) (if falsy exe then normalized_name else exe))) ;;
  icon <- get_icon_path_in_zip ;;
  when (falsy icon || negb (startswith "." icon))
    (set_icon_path_in_zip
       (join3 ".app" (app_name self) (if falsy icon then "app_icon.png" else icon))).

(** [for i, file_info in enumerate(files)] *)
Fixpoint extract_loop (i total_files : Z) (files : list ZipInfo) : M unit :=
  match files with
  | [] => ret tt
  | file_info :: r =>
      call (zip_extract dmode fmode file_info temp_extract_dir) ;;
      emit (Progress (extraction_progress i total_files)) ;;
      extract_loop (i + 1) total_files r
  end.

(** [zipfile.ZipFile(self.zip_path, 'r')] *)
Definition open_zip : M Zip := fun w =>
  match lookup (components (zip_path self)) (fs w) with
  | Some (File _ (ZipBytes z)) =>
      if central_directory_ok z then (Ok z, w) else (Raise BadZipFile, w)
  | Some (File _ (Bytes _)) => (Raise BadZipFile, w)
  | Some (Dir _ _) => (Raise IsADirectoryError, w)
  | Some (Symlink _) => (Raise PermissionError, w)
  | None => (Raise FileNotFoundError, w)
  end.

Definition nl : string := String (ascii_of_nat 10) EmptyString.

(** The text of the [.desktop] file. *)
Definition desktop_content (resolved_executable_path resolved_icon_path : string) : string :=
  let terminal_setting :=
    lower (py_str (dict_get (desktop_entry_metadata self) "Terminal" (PBool false))) in
  let entry_type := py_str (dict_get (desktop_entry_metadata self) "Type" (PStr "Application")) in
  let categories := py_str (dict_get (desktop_entry_metadata self) "Categories" (PStr "Utility;")) in
  "[Desktop Entry]" ++ nl ++
  "Name=" ++ app_name self ++ nl ++
  "Comment=" ++ app_name self ++ " Application" ++ nl ++
  "Exec=" ++ resolved_executable_path ++ nl ++
  "Icon=" ++ resolved_icon_path ++ nl ++
  "Terminal=" ++ terminal_setting ++ nl ++
  "Type=" ++ entry_type ++ nl ++
  "Categories=" ++ categories ++ nl.

Definition desktop_entry_dir : string :=
  join4 (home_dir host) ".local" "share" "applications".

Definition desktop_file_path : string :=
  join desktop_entry_dir (normalized_name ++ ".desktop").

(** [os.path.join(self.home_dir, name.lstrip('./'))] *)
Definition resolve (name : string) : string := join (home_dir host) (lstrip "./" name).

Definition _create_desktop_entry : M unit :=
  call (os_makedirs dmode desktop_entry_dir true) ;;
  exe <- get_executable_name ;;
  icon <- get_icon_path_in_zip ;;
  exe_found <- ask (fun t => os_path_exists (resolve exe) t && os_path_isfile (resolve exe) t) ;;
  resolved_executable_path <-
    (if exe_found then ret (resolve exe)
     else emit (Message (MsgExecutableMissing exe (resolve exe))) ;; ret "") ;;
  icon_found <- ask (fun t => os_path_exists (resolve icon) t && os_path_isfile (resolve icon) t) ;;
  resolved_icon_path <-
    (if icon_found then ret (resolve icon)
     else emit (Message (MsgIconMissing icon (resolve icon))) ;; ret "") ;;
  try_except any_Exception
    (call (write_file fmode desktop_file_path
             (Bytes (desktop_content resolved_executable_path resolved_icon_path))) ;;
     emit (Message (MsgDesktopEntry desktop_file_path)) ;;
     st <- ask (st_mode desktop_file_path) ;;
     match st with
     | Some mo => call (os_chmod desktop_file_path (Z.lor mo S_IXUSR))
     | None => raise FileNotFoundError
     end)
    (fun e => emit (Message (MsgDesktopEntryFail e))).

(** The two cache tools only report back; what they write is outside the
    tree of the model. *)
Definition _update_desktop_icon_cache : M unit :=
  emit (Message MsgCacheRefreshing) ;;
  match update_desktop_database host with
  | ToolOk => emit (Message MsgCacheUpdated)
  | ToolNotFound =>
      match gtk_update_icon_cache host with
      | ToolOk => emit (Message MsgGtkCacheUpdated)
      | ToolNotFound => emit (Message MsgNoCacheTool)
      | ToolFailed (Some stderr) => emit (Message (MsgGtkCacheFailed (strip stderr)))
      | ToolFailed None => raise UnicodeDecodeError
      | ToolOtherError => emit (Message MsgGtkCacheError)
      end
  | ToolFailed (Some stderr) => emit (Message (MsgDatabaseFailed (strip stderr)))
  | ToolFailed None => raise UnicodeDecodeError
  | ToolOtherError => emit (Message MsgCacheUnexpected)
  end.

Definition max_attempts : Z := 5.

(** [for attempt in range(max_attempts)], [remaining] turns left. *)
Fixpoint removal_attempts (remaining : nat) (attempt : Z) : M unit :=
  match remaining with
  | O => ret tt
  | S k =>
      removed <-
        try_except is_OSError
          (call (shutil_rmtree temp_extract_dir) ;;
           emit (Message (MsgTempCleaned temp_extract_dir)) ;;
           ret true)
          (fun e =>
             (if attempt <? max_attempts - 1
              then emit (Message (MsgTempRetry temp_extract_dir (attempt + 1) e)) ;;
                   time_sleep (1 # 10)
              else emit (Message (MsgTempFatal temp_extract_dir e))) ;;
             ret false) ;;
      if removed then ret tt (* break *) else removal_attempts k (attempt + 1)
  end.

Definition _cleanup_temp_files : M unit :=
  temp_exists <- ask (os_path_exists temp_extract_dir) ;;
  when temp_exists
    (try_except any_Exception
       (removal_attempts (Z.to_nat max_attempts) 0)
       (fun e => emit (Message (MsgTempOops temp_extract_dir e)))) ;;
  icon_exists <- ask (os_path_exists temp_icon_display_dir) ;;
  when icon_exists
    (try_except any_Exception
       (call (shutil_rmtree temp_icon_display_dir) ;;
        emit (Message (MsgIconTempCleaned temp_icon_display_dir)))
       (fun e => emit (Message (MsgIconTempProblem temp_icon_display_dir e)))).

(** Lines 153-167: a fresh staging directory, and every member of the
    archive extracted into it. *)
Definition stage_archive : M unit :=
  emit (Message (MsgTempSpot temp_extract_dir)) ;;
  stale <- ask (os_path_exists temp_extract_dir) ;;
  when stale (call (shutil_rmtree temp_extract_dir)) ;;
  call (os_makedirs dmode temp_extract_dir false) ;;
  zip_ref <- open_zip ;;
  let files := infolist zip_ref in
  let total_files := Z.of_nat (List.length files) in
  extract_loop 0 total_files files.

(** Lines 170-259: the fallback or the loop over the install map. *)
Definition install_files : M unit :=
  let total_mappings := Z.of_nat (List.length (install_map self)) in
  if total_mappings =? 0 then fallback_install
  else mapping_loop 0 total_mappings (install_map self).

(** Everything between the validation of the archive and the two closing
    signals. *)
Definition install_steps : M unit :=
  stage_archive ;;
  install_files ;;
  _create_desktop_entry ;;
  _update_desktop_icon_cache.

(** The body of the [try] of [run]; the early [return] is its first
    branch. *)
Definition install : M unit :=
  valid <- ask (fun t => os_path_exists (zip_path self) t && is_zipfile (zip_path self) t) ;;
  if negb valid then
    emit (Message MsgInvalidZip) ;;
    emit (Finished false)
  else
    install_steps ;;
    emit (Message MsgDone) ;;
    emit (Finished true).

(** The [try] with its [except Exception] clause. *)
Definition run_guarded : M unit :=
  try_except any_Exception install
    (fun e => emit (Message (MsgBlewUp e)) ;; emit (Finished false)).

(** [InstallerThread.run] *)
Definition run : M unit := try_finally run_guarded _cleanup_temp_files.

End Run.

(** What the walk does to one entry of a directory. *)
Definition walked_entry (executable_name root file : string) (x : node) : node :=
  match x with
  | File mo d =>
      if recognised executable_name file true false && lacks_user_execute mo
      then File (with_execute_bits mo) d else x
  | Dir _ _ => fst (walk_chmod executable_name (join root file) x)
  | Symlink _ => x
  end.

(** *** The progress values a map calls for *)

(** The rule has both fields. *)
Definition complete (rule : MappingRule) : bool :=
  negb (missing (source_root rule) || missing (destination_root rule)).

(** One value for each rule that has both fields, at the rule's index. *)
Fixpoint progress_of_rules (i total_mappings : Z) (maps : list MappingRule) : list Z :=
  match maps with
  | [] => []
  | rule :: r =>
      (if complete rule then [mapping_progress i total_mappings] else [])
      ++ progress_of_rules (i + 1) total_mappings r
  end.

(** *** Reading the signals of a run *)

Definition progress_values (l : list event) : list Z :=
  flat_map (fun e => match e with Progress v => [v] | _ => [] end) l.

Definition completions (l : list event) : list bool :=
  flat_map (fun e => match e with Finished b => [b] | _ => [] end) l.

Definition messages (l : list event) : list message :=
  flat_map (fun e => match e with Message m => [m] | _ => [] end) l.

(** The signals emitted between two states of one run. *)
Definition new_events (before after : world) : list event :=
  skipn (List.length (events before)) (events after).

(** A progress value of the documented range, or a message. *)
Definition before_completion (e : event) : Prop :=
  match e with
  | Progress v => 0 <= v <= 100
  | Message _ => True
  | Finished _ => False
  end.

(** A message of [_cleanup_temp_files]. *)
Definition from_cleaner (e : event) : Prop :=
  match e with
  | Message (MsgTempCleaned _) | Message (MsgTempRetry _ _ _)
  | Message (MsgTempFatal _ _) | Message (MsgTempOops _ _)
  | Message (MsgIconTempCleaned _) | Message (MsgIconTempProblem _ _) => True
  | _ => False
  end.

(** The signal of one attempt at the staging directory, and of the attempt
    at the icon-preview directory. *)
Definition is_staging_attempt (e : event) : bool :=
  match e with
  | Message (MsgTempCleaned _) | Message (MsgTempRetry _ _ _)
  | Message (MsgTempFatal _ _) => true
  | _ => false
  end.

Definition is_icon_attempt (e : event) : bool :=
  match e with
  | Message (MsgIconTempCleaned _) | Message (MsgIconTempProblem _ _) => true
  | _ => false
  end.

Definition is_message (e : event) : Prop :=
  match e with
  | Message _ => True
  | _ => False
  end.

(** Whatever the state, [m] only appends signals, and each of them
    satisfies [Q]. *)
Definition emits {A} (Q : event -> Prop) (m : M A) : Prop :=
  forall w, exists l, events (snd (m w)) = (events w ++ l)%list /\ Forall Q l.

(** The world with one more signal. *)
Definition emitted (e : event) (w : world) : world :=
  mkWorld (fs w) (events w ++ [e]) (executable_name w) (icon_path_in_zip w) (slept w).

(** The world after a sleep. *)
Definition rested (seconds : Q) (w : world) : world :=
  mkWorld (fs w) (events w) (executable_name w) (icon_path_in_zip w)
          (slept w ++ [seconds]).

(** *** Reading the attempts of the cleaner *)

(** The tree after [n] calls of [shutil.rmtree(path)], each on the tree the
    call before left. *)
Fixpoint rmtree_times (n : nat) (path : string) (t : node) : node :=
  match n with
  | O => t
  | S k => rmtree_times k path (fst (shutil_rmtree path t))
  end.

(** What call number [k] of them, counted from 0, raises. *)
Definition rmtree_raises (k : nat) (path : string) (t : node) : option exn :=
  snd (shutil_rmtree path (rmtree_times k path t)).

(** The message that reports attempt number [attempt], counted from 0, at
    the staging directory, and the one that reports the attempt at the
    icon-preview directory. *)
Definition attempt_signal (dir : string) (attempt : Z) (raised : option exn) : event :=
  Message match raised with
          | None => MsgTempCleaned dir
          | Some e =>
              if attempt <? 4 then MsgTempRetry dir (attempt + 1) e else MsgTempFatal dir e
          end.

Definition icon_signal (dir : string) (raised : option exn) : event :=
  Message match raised with
          | None => MsgIconTempCleaned dir
          | Some e => MsgIconTempProblem dir e
          end.

End Engine.

(* ================================================================== *)
(** ** [CleanModernInstaller._load_package_metadata] *)

Module Loader.
Import PyStr PosixPath FS.

(** What [json.load] returns. *)
Inductive json :=
| JNull
| JBool (b : bool)
| JNumber (n : Z)
| JString (s : string)
| JArray (items : list json)
| JObject (members : list (string * json)).

(** [sub in s] on two strings. *)
Fixpoint substring_of (sub s : string) : bool :=
  String.prefix sub s ||
  match s with
  | EmptyString => false
  | String _ t => substring_of sub t
  end.

Definition is_string (key : string) (j : json) : bool :=
  match j with
  | JString s => String.eqb s key
  | _ => false
  end.

(** [key in metadata] for a string [key]: a key of an object, an item of an
    array, a substring of a string; [None] is the [TypeError] of the other
    values. *)
Definition py_in (key : string) (metadata : json) : option bool :=
  match metadata with
  | JObject members => Some (existsb (fun kv => String.eqb (fst kv) key) members)
  | JArray items => Some (existsb (is_string key) items)
  | JString s => Some (substring_of key s)
  | JNull | JBool _ | JNumber _ => None
  end.

(** [zip_ref.namelist()] *)
Definition namelist (z : Zip) : list string := map filename (infolist z).

(** [zip_ref.open(name)] reads the last member under that name. *)
Fixpoint getinfo (name : string) (members : list ZipInfo) : option ZipInfo :=
  match members with
  | [] => None
  | m :: r =>
      match getinfo name r with
      | Some m' => Some m'
      | None => if String.eqb (filename m) name then Some m else None
      end
  end.

Section Load.

(** The decoder of the standard library: [None] stands for the
    [JSONDecodeError] (or decoding error) of a text that is not JSON. *)
Variable json_loads : string -> option json.

(** The window's state the loader touches, and the file tree it reads. *)
Record loader_state := mkLoader {
  tree : node;
  metadata : json }.

Definition _load_package_metadata (zip_path : string) (st : loader_state)
  : bool * loader_state :=
  if negb (os_path_exists zip_path (tree st)) then (false, st)
  else if negb (is_zipfile zip_path (tree st)) then (false, st)
  else
    match lookup (components zip_path) (tree st) with
    | Some (File _ (ZipBytes zip_ref)) =>
        if negb (central_directory_ok zip_ref) then (false, st)      (* BadZipFile *)
        else if negb (existsb (String.eqb "metadata.json") (namelist zip_ref))
        then (false, st)
        else
          match getinfo "metadata.json" (infolist zip_ref) with
          | None => (false, st)                                      (* KeyError *)
          | Some metadata_file =>
              match json_loads (payload metadata_file) with
              | None => (false, st)                                  (* JSONDecodeError *)
              | Some m =>
                  let st' := mkLoader (tree st) m in
                  match py_in "app_name" m with
                  | None => (false, st')                             (* TypeError *)
                  | Some false => (false, st')
                  | Some true =>
                      match py_in "version" m with
                      | None => (false, st')
                      | Some false => (false, st')
                      | Some true => (true, st')
                      end
                  end
              end
          end
    | _ => (false, st)
    end.

End Load.

(** *** The loader as the specification has it *)

(** Sections 3 and 6 of the specification: the manifest is a structured
    data object with the required fields [app_name] and [version]. *)
Definition has_required_fields (manifest : json) : bool :=
  match manifest with
  | JObject members =>
      existsb (fun kv => String.eqb (fst kv) "app_name") members
      && existsb (fun kv => String.eqb (fst kv) "version") members
  | _ => false
  end.

(** Section 4.1 of the specification: the path exists and is a well-formed
    archive, the archive has a manifest entry, the entry parses as
    structured data, and the manifest has both required fields. *)
Definition spec_accepts (json_loads : string -> option json) (zip_path : string)
  (tree : node) : bool :=
  os_path_exists zip_path tree
  && match lookup (components zip_path) tree with
     | Some (File _ (ZipBytes zip_ref)) =>
         central_directory_ok zip_ref
         && existsb (String.eqb "metadata.json") (namelist zip_ref)
         && match getinfo "metadata.json" (infolist zip_ref) with
            | Some metadata_file =>
                match json_loads (payload metadata_file) with
                | Some manifest => has_required_fields manifest
                | None => false
                end
            | None => false
            end
     | _ => false
     end.

(** [isinstance(manifest, dict)] *)
Definition is_object (manifest : json) : bool :=
  match manifest with
  | JObject _ => true
  | _ => false
  end.

End Loader.

(* ================================================================== *)
(** ** Concrete machines and packages *)

Module Scenarios.
Import PyStr PosixPath FS Engine Loader.

(** Home [/home/u], umask [0o022], neither cache tool installed. *)
Definition host_u : Host := mkHost "/home/u" 18 ToolNotFound ToolNotFound.

(** [0o755], [0o644] and [0o555]. *)
Definition rwxr_xr_x : Z := 493.
Definition rw_r__r__ : Z := 420.
Definition r_xr_xr_x : Z := 365.

Definition root_with_home (entries : list (string * node)) : node :=
  Dir rwxr_xr_x [("home", Dir rwxr_xr_x [("u", Dir rwxr_xr_x entries)])].

(** Scenario A: an empty install map and one file [bin/foo]. *)
Definition zip_A : Zip :=
  mkZip true [mkZipInfo "metadata.json" "{}"; mkZipInfo "bin/foo" "#!/bin/sh"].
Definition fs_A : node := root_with_home [("app.zip", File rw_r__r__ (ZipBytes zip_A))].
Definition self_A : InstallerThread := mkInstaller "/home/u/app.zip" "Foo" [] [].
Definition world_A : world := mkWorld fs_A [] "bin/foo" "" [].

(** Scenario B: one rule for the directory [pkg/], and old content at its
    destination. *)
Definition zip_B : Zip :=
  mkZip true [mkZipInfo "metadata.json" "{}"; mkZipInfo "pkg/" "";
              mkZipInfo "pkg/run.sh" "#!/bin/sh"; mkZipInfo "pkg/bin/tool" "ELF"].
Definition fs_B : node :=
  root_with_home
    [("app.zip", File rw_r__r__ (ZipBytes zip_B));
     (".local", Dir rwxr_xr_x
        [("foo", Dir rwxr_xr_x [("old.txt", File rw_r__r__ (Bytes "old"))])])].
Definition self_B : InstallerThread :=
  mkInstaller "/home/u/app.zip" "Foo" []
    [mkRule (Some "pkg") (Some "$HOME/.local/foo")].
Definition world_B : world := mkWorld fs_B [] ".local/foo/bin/tool" ".local/foo/icon.png" [].

(** Scenario D: the rule names a source the archive does not have. *)
Definition self_D : InstallerThread :=
  mkInstaller "/home/u/app.zip" "Foo" []
    [mkRule (Some "missing") (Some "$HOME/.local/foo")].

(** A rule for the single file [pkg/run.sh]. *)
Definition self_file : InstallerThread :=
  mkInstaller "/home/u/app.zip" "Foo" []
    [mkRule (Some "pkg/run.sh") (Some "$HOME/bin/run.sh")].

(** A rule without [destination_root]. *)
Definition self_incomplete : InstallerThread :=
  mkInstaller "/home/u/app.zip" "Foo" [] [mkRule (Some "pkg") None].

(** A staging directory left by an earlier run, with a sub-directory that
    is not writable. *)
Definition fs_stale : node :=
  root_with_home
    [("app.zip", File rw_r__r__ (ZipBytes zip_B));
     (".foo_installer_temp_extract", Dir rwxr_xr_x
        [("locked", Dir r_xr_xr_x [("data", File rw_r__r__ (Bytes "x"))])])].
Definition world_stale : world := mkWorld fs_stale [] "bin/foo" "" [].

(** A tree already installed, for the permission pass alone. *)
Definition fs_installed : node :=
  root_with_home
    [("opt", Dir rwxr_xr_x
        [("run.sh", File rw_r__r__ (Bytes "#!/bin/sh"));
         ("tool", File rwxr_xr_x (Bytes "ELF"));
         ("notes.txt", File rw_r__r__ (Bytes "hello"));
         ("current", Symlink "tool")])].
Definition world_installed : world := mkWorld fs_installed [] "opt/tool" "" [].

(** Files with a dot in their names, and one without, none executable. *)
Definition fs_dotted : node :=
  root_with_home
    [("opt", Dir rwxr_xr_x
        [(".profile", File rw_r__r__ (Bytes "export A=1"));
         ("run.v2", File rw_r__r__ (Bytes "#!/bin/sh"));
         ("tool", File rw_r__r__ (Bytes "ELF"))])].
Definition world_dotted : world := mkWorld fs_dotted [] "opt/tool" "" [].

(** The world of scenario B once the archive is staged. *)
Definition world_staged : world := snd (stage_archive host_u self_D world_B).

(** The application installed under [~/.app/Foo]. *)
Definition fs_app : node :=
  root_with_home
    [(".app", Dir rwxr_xr_x
        [("Foo", Dir rwxr_xr_x
            [("foo", File rwxr_xr_x (Bytes "ELF"));
             ("app_icon.png", File rw_r__r__ (Bytes "PNG"))])])].
Definition world_app : world := mkWorld fs_app [] ".app/Foo/foo" ".app/Foo/app_icon.png" [].

(** A destination directory that cannot be emptied, and a rule that copies
    the single file [pkg/run.sh] to it. *)
Definition fs_locked : node :=
  root_with_home
    [("app.zip", File rw_r__r__ (ZipBytes zip_B));
     ("bin", Dir rwxr_xr_x
        [("locked", Dir r_xr_xr_x [("data", File rw_r__r__ (Bytes "x"))])])].
Definition self_locked : InstallerThread :=
  mkInstaller "/home/u/app.zip" "Foo" [] [mkRule (Some "pkg/run.sh") (Some "$HOME/bin")].
Definition world_locked : world := mkWorld fs_locked [] "bin/run.sh" "" [].

(** Scenario C: three manifests and a decoder that knows them. *)
Definition manifest_full : json :=
  JObject [("app_name", JString "Foo"); ("version", JString "1.0");
           ("install_map", JArray [])].
Definition manifest_without_version : json := JObject [("app_name", JString "Foo")].

Definition json_loads_toy (text : string) : option json :=
  if String.eqb text "full" then Some manifest_full
  else if String.eqb text "no version" then Some manifest_without_version
  else if String.eqb text "a number" then Some (JNumber 5)
  else None.

Definition package (manifest_text : string) : node :=
  root_with_home
    [("app.zip",
      File rw_r__r__
        (ZipBytes (mkZip true [mkZipInfo "metadata.json" manifest_text;
                               mkZipInfo "bin/foo" "#!/bin/sh"])))].

End Scenarios.

(* ================================================================== *)
(** ** Reading the progress values of a run *)

Module Trace.
Import PyStr PosixPath FS Engine.

(** A signal that carries no progress value. *)
Definition not_progress (e : event) : Prop :=
  match e with
  | Progress _ => False
  | _ => True
  end.

(** Whatever the state, [m] only appends signals; the progress values among
    them never decrease and lie between [lo] and [hi]. *)
Definition ranged {A} (lo hi : Z) (m : M A) : Prop :=
  forall w, exists l,
    events (snd (m w)) = (events w ++ l)%list
    /\ StronglySorted Z.le (progress_values l)
    /\ Forall (fun v => lo <= v <= hi) (progress_values l).

End Trace.

(* ================================================================== *)
(** ** What a step leaves alone *)

Module Frame.
Import PyStr PosixPath FS Engine.

(** Whatever the state it starts from, [m] ends in a state related to it. *)
Definition preserves {A} (R : world -> world -> Prop) (m : M A) : Prop :=
  forall w, R w (snd (m w)).

(** A relation between the states of a run that holds along any sequence
    of steps and that neither the emission of signals nor a sleep
    disturbs. *)
Definition stable (R : world -> world -> Prop) : Prop :=
  (forall w, R w w)
  /\ (forall a b c, R a b -> R b c -> R a c)
  /\ (forall w l s, R w (mkWorld (fs w) l (executable_name w) (icon_path_in_zip w) s)).

(** The two attributes that the fallback path rewrites are as they were. *)
Definition same_names (w w' : world) : Prop :=
  executable_name w' = executable_name w /\ icon_path_in_zip w' = icon_path_in_zip w.

(** The file tree is as it was. *)
Definition same_tree (w w' : world) : Prop := fs w' = fs w.

(** Nothing was created. *)
Definition only_removes (w w' : world) : Prop := shrinks (fs w) (fs w').

(** [q] is an initial segment of [p]. *)
Fixpoint is_prefix (q p : list string) : bool :=
  match q, p with
  | [], _ => true
  | c :: q', d :: p' => String.eqb c d && is_prefix q' p'
  | _ :: _, [] => false
  end.

(** [p] is neither at or below one of the [roots] nor above one. *)
Definition outside (roots : list (list string)) (p : list string) : bool :=
  forallb (fun q => negb (is_prefix q p) && negb (is_prefix p q)) roots.

(** Every path outside the [roots] names what it named. *)
Definition untouched_outside (roots : list (list string)) (w w' : world) : Prop :=
  forall p, outside roots p = true -> lookup p (fs w') = lookup p (fs w).

End Frame.

(* ================================================================== *)
(** ** The outcome of a run *)

Module Outcome.
Import PyStr PosixPath FS Engine.

(** The computation returned. *)
Definition returned {A} (r : result A) : bool :=
  match r with
  | Ok _ => true
  | Raise _ => false
  end.

(** The test of lines 148: the archive is there and is a ZIP file. *)
Definition valid_archive (self : InstallerThread) (w : world) : bool :=
  os_path_exists (zip_path self) (fs w) && is_zipfile (zip_path self) (fs w).

End Outcome.

(* ================================================================== *)
(** ** The window: [CircularProgressBar] and [CleanModernInstaller] *)

Module Window.
Import PyStr PosixPath FS Engine.

(** [QColor(r, g, b)] *)
Definition QColor : Type := (Z * Z * Z)%type.

(** The attributes of the progress bar that its setters write, and the
    number of repaints requested by [self.update()]. *)
Record CircularProgressBar := mkBar {
  _value : Z;
  _min : Z;
  _max : Z;
  _bar_color : QColor;
  _bg_color : QColor;
  _show_percentage : bool;
  updates : nat }.

(** [CircularProgressBar.__init__] *)
Definition new_bar : CircularProgressBar :=
  mkBar 0 0 100 (0, 150, 57) (220, 220, 220) false 0.

Definition setValue (value : Z) (bar : CircularProgressBar) : CircularProgressBar :=
  if negb (_value bar =? value)
  then mkBar value (_min bar) (_max bar) (_bar_color bar) (_bg_color bar)
             (_show_percentage bar) (S (updates bar))
  else bar.

Definition setRange (min_val max_val : Z) (bar : CircularProgressBar) : CircularProgressBar :=
  mkBar (_value bar) min_val max_val (_bar_color bar) (_bg_color bar)
        (_show_percentage bar) (S (updates bar)).

Definition setShowPercentage (show : bool) (bar : CircularProgressBar) : CircularProgressBar :=
  if negb (Bool.eqb (_show_percentage bar) show)
  then mkBar (_value bar) (_min bar) (_max bar) (_bar_color bar) (_bg_color bar)
             show (S (updates bar))
  else bar.

Definition setBarColors (bg_color bar_color : QColor) (bar : CircularProgressBar)
  : CircularProgressBar :=
  mkBar (_value bar) (_min bar) (_max bar) bar_color bg_color
        (_show_percentage bar) (S (updates bar)).

(** The double nearest to a rational of either sign, and [int(x)], which
    truncates toward zero. *)
Definition fround (x : Q) : Q :=
  if Qle_bool 0 x then Binary64.round x else Qopp (Binary64.round (Qopp x)).

Definition py_int (x : Q) : Z :=
  if Qle_bool 0 x then Qfloor x else - Qfloor (Qopp x).

(** [a / b] on two ints, and [x * n] for a float and an int. *)
Definition fdiv (a b : Z) : Q := fround (Qdiv (inject_Z a) (inject_Z b)).
Definition fmul (x : Q) (n : Z) : Q := fround (Qmult x (inject_Z n)).

(** Lines 84-87 of [paintEvent]; the branch for an empty range yields the
    int [0]. *)
Definition span_angle (bar : CircularProgressBar) : Q :=
  if _max bar =? _min bar then inject_Z 0
  else fmul (fdiv (_value bar - _min bar) (_max bar - _min bar)) 360.

(** The span handed to [drawArc] at line 92, in sixteenths of a degree:
    [-int(span_angle * 16)]. *)
Definition arc_span (bar : CircularProgressBar) : Z :=
  - py_int (fmul (span_angle bar) 16).

(** The texts of the install button and of the status label. *)
Inductive button_text :=
| GetRolling         (* "GET <APP NAME> ROLLING" *)
| AllSet             (* "You're All Set!" *)
| TryAgain.          (* "Try Again, fam" *)

Inductive status_text :=
| NoStatus           (* "" *)
| HookedUp           (* "<app name> just got hooked up, fam!" *)
| Choked.            (* "Install totally choked. Peep the errors." *)

(** The widgets of [CleanModernInstaller] that the two slots write, and the
    number of worker threads started. *)
Record CleanModernInstaller := mkWindow {
  install_button_enabled : bool;
  install_button_text : button_text;
  install_button_installed : bool;      (* the property [status="installed"] *)
  status_label_text : status_text;
  status_label_color : string;
  progress_bar : CircularProgressBar;
  threads_started : nat }.

Definition white : QColor := (255, 255, 255).

(** The widgets as [__init__] leaves them (lines 430-443). *)
Definition new_window : CleanModernInstaller :=
  mkWindow true GetRolling false NoStatus "#000000"
    (setBarColors white white (setShowPercentage false new_bar)) 0.

Definition _start_installation (self : CleanModernInstaller) : CleanModernInstaller :=
  mkWindow false (install_button_text self) (install_button_installed self)
    (status_label_text self) "#EE2A2A"
    (setValue 0
       (setBarColors (220, 220, 220) (0, 150, 57)
          (setShowPercentage true (progress_bar self))))
    (S (threads_started self)).

Definition _installation_finished (success : bool) (self : CleanModernInstaller)
  : CleanModernInstaller :=
  if success then
    mkWindow false AllSet true HookedUp "#009639"
      (setBarColors white white
         (setShowPercentage false (setValue 100 (progress_bar self))))
      (threads_started self)
  else
    mkWindow true TryAgain (install_button_installed self) Choked "#EE2A2A"
      (setBarColors white white
         (setShowPercentage false (setValue 0 (progress_bar self))))
      (threads_started self).

(** The slots connected at lines 768-769: [progress_signal] to
    [progress_bar.setValue], [finished_signal] to [_installation_finished];
    [message_signal] is connected to nothing. *)
Definition deliver (self : CleanModernInstaller) (e : event) : CleanModernInstaller :=
  match e with
  | Progress value =>
      mkWindow (install_button_enabled self) (install_button_text self)
        (install_button_installed self) (status_label_text self) (status_label_color self)
        (setValue value (progress_bar self)) (threads_started self)
  | Message _ => self
  | Finished success => _installation_finished success self
  end.

(** The window after a click on the install button and the signals of the
    thread it started, delivered in the order of their emission. *)
Definition after_signals (l : list event) (self : CleanModernInstaller)
  : CleanModernInstaller :=
  fold_left deliver l (_start_installation self).

(** No completion signal. *)
Definition still_running (e : event) : Prop :=
  match e with
  | Finished _ => False
  | _ => True
  end.

(** The arc on the primitive binary64 floats of the kernel, to compare the
    rational model against. *)
Definition prim_arc_span (value min max : Z) : Z :=
  - Binary64.prim_trunc
      (PrimFloat.mul
         (PrimFloat.mul
            (PrimFloat.div (Binary64.prim_of_Z (value - min)) (Binary64.prim_of_Z (max - min)))
            (Binary64.prim_of_Z 360))
         (Binary64.prim_of_Z 16)).

End Window.


(* ================================================================== *)
(** ** [CleanModernInstaller.__init__], lines 381-420, and
    [_get_app_icon_pixmap] *)

Module Startup.
Import PyStr PosixPath FS Loader.

(** The exceptions that leave the constructor before the window exists. *)
Inductive crash :=
| AttributeError
| TypeError.

(** [bool(v)] *)
Definition truthy (v : json) : bool :=
  match v with
  | JNull => false
  | JBool b => b
  | JNumber n => negb (n =? 0)
  | JString s => negb (falsy s)
  | JArray items => match items with [] => false | _ => true end
  | JObject members => match members with [] => false | _ => true end
  end.

(** [d.get(key, default)] on the dict of a JSON object; of a key that is
    repeated [json.load] keeps the last value. *)
Definition get (members : list (string * json)) (key : string) (default : json) : json :=
  match find (fun kv => String.eqb (fst kv) key) (rev members) with
  | Some kv => snd kv
  | None => default
  end.

(** The attributes that lines 406-420 set. *)
Record settings := mkSettings {
  app_name : json;
  executable_name : json;
  icon_path_for_desktop : json;
  desktop_entry_config : json;
  install_map : json }.

Inductive startup :=
| Started (s : settings)
| Exited (code : Z)                   (* sys.exit(code) *)
| Crashed (e : crash).

(** Lines 385-397. *)
Definition default_metadata : json :=
  JObject
    [("app_name", JString "FreedomApp");
     ("version", JString "1.0.0");
     ("description", JString "A powerful application for seamless system integration.");
     ("icon_path", JString ".app/FreedomApp/app_icon.png");
     ("executable_name", JString ".app/FreedomApp/executable");
     ("install_map", JArray []);
     ("desktop_entry",
      JObject [("Terminal", JBool false); ("Type", JString "Application");
               ("Categories", JString "Utility;")])].

Section Init.
Variable json_loads : string -> option json.

(** The constructor up to line 420: the manifest is loaded, or the program
    exits; the attributes are read from it, which raises on a manifest
    that has no [get]; a missing executable name or icon path is replaced
    by a default under [.app/<app_name>], which raises when [app_name] is
    not a string. *)
Definition __init__ (zip_path : string) (tree : node) : startup :=
  let (loaded, st) :=
    _load_package_metadata json_loads zip_path (mkLoader tree default_metadata) in
  if negb loaded then Exited 1
  else
    match metadata st with
    | JObject members =>
        let app_name := get members "app_name" (JString "FreedomApp") in
        let executable_name := get members "executable_name" JNull in
        let icon_path_for_desktop := get members "icon_path" JNull in
        let desktop_entry_config := get members "desktop_entry" (JObject []) in
        let install_map := get members "install_map" (JArray []) in
        match
          (if truthy executable_name then inr executable_name
           else match app_name with
                | JString a => inr (JString (join3 ".app" a (replace " " "" (lower a))))
                | _ => inl AttributeError           (* self.app_name.lower() *)
                end)
        with
        | inl e => Crashed e
        | inr executable_name =>
            match
              (if truthy icon_path_for_desktop then inr icon_path_for_desktop
               else match app_name with
                    | JString a => inr (JString (join3 ".app" a "app_icon.png"))
                    | _ => inl TypeError             (* os.path.join(".app", self.app_name, ...) *)
                    end)
            with
            | inl e => Crashed e
            | inr icon_path_for_desktop =>
                Started (mkSettings app_name executable_name icon_path_for_desktop
                           desktop_entry_config install_map)
            end
        end
    | _ => Crashed AttributeError                   (* self.metadata.get *)
    end.

End Init.

(** A decoder that knows one text, the JSON array of the two words. *)
Definition json_loads_words (text : string) : option json :=
  if String.eqb text "words" then Some (JArray [JString "app_name"; JString "version"])
  else None.

End Startup.

Module IconPreview.
Import PyStr PosixPath FS Engine Loader.

(** What [_get_app_icon_pixmap] does to the tree, the exception that leaves
    it, and the path it hands to [QPixmap], if any.  Everything after
    [os.makedirs] is under [try ... except Exception]. *)
Definition _get_app_icon_pixmap (host : Host)
  (zip_path app_name icon_path_for_desktop : string) (tree : node)
  : node * option exn * option string :=
  let temp_icon_display_dir :=
    join (home_dir host)
         ("." ++ replace " " "" (lower app_name) ++ "_installer_display_temp_icon") in
  match os_makedirs (dmode host) temp_icon_display_dir true tree with
  | (tree1, Some e) => (tree1, Some e, None)
  | (tree1, None) =>
      match lookup (components zip_path) tree1 with
      | Some (File _ (ZipBytes zip_ref)) =>
          if central_directory_ok zip_ref then
            let zip_internal_icon_path := lstrip "./" icon_path_for_desktop in
            let extract (name : string) :=
              match getinfo name (infolist zip_ref) with
              | Some member =>
                  match zip_extract (dmode host) (fmode host) member
                          temp_icon_display_dir tree1 with
                  | (tree2, None) =>
                      (tree2, None,
                       Some (normpath (join temp_icon_display_dir (arcname member))))
                  | (tree2, Some _) => (tree2, None, None)
                  end
              | None => (tree1, None, None)
              end in
            if existsb (String.eqb zip_internal_icon_path) (namelist zip_ref)
            then extract zip_internal_icon_path
            else if existsb (String.eqb (basename zip_internal_icon_path)) (namelist zip_ref)
            then extract (basename zip_internal_icon_path)
            else (tree1, None, None)
          else (tree1, None, None)
      | _ => (tree1, None, None)
      end
  end.

End IconPreview.

(* ================================================================== *)
(** ** The places the install mapper writes to *)

Module Places.
Import PyStr PosixPath FS Engine.

Section Roots.
Variable host : Host.
Variable self : InstallerThread.

(** The paths at which a rule calls [os], [shutil]: its destination, the
    parent that [os.makedirs] makes for a single file, and the file that
    [shutil.copy2] writes inside a destination that is a directory.  A
    rule that lacks a field calls nothing. *)
Definition rule_roots (rule : MappingRule) : list (list string) :=
  if missing (source_root rule) || missing (destination_root rule) then []
  else
    let full_source_path_in_temp :=
      join (temp_extract_dir host self) (text (source_root rule)) in
    let full_destination_path :=
      replace "$HOME" (home_dir host) (text (destination_root rule)) in
    [components full_destination_path;
     components (dirname full_destination_path);
     components (join full_destination_path (basename full_source_path_in_temp))].

(** The same for the whole of lines 170-259. *)
Definition install_roots : list (list string) :=
  match install_map self with
  | [] => [components (join3 (home_dir host) ".app" (app_name self))]
  | maps => flat_map rule_roots maps
  end.

(** The same paths as the code writes them, before [..] is resolved. *)
Definition rule_paths (rule : MappingRule) : list string :=
  if missing (source_root rule) || missing (destination_root rule) then []
  else
    let full_source_path_in_temp :=
      join (temp_extract_dir host self) (text (source_root rule)) in
    let full_destination_path :=
      replace "$HOME" (home_dir host) (text (destination_root rule)) in
    [full_destination_path;
     dirname full_destination_path;
     join full_destination_path (basename full_source_path_in_temp)].

Definition install_paths : list string :=
  match install_map self with
  | [] => [join3 (home_dir host) ".app" (app_name self)]
  | maps => flat_map rule_paths maps
  end.

End Roots.

(** A call that is given [path] follows no symbolic link: none of the
    places it passes on its way through the tree, one part of the path
    after the other and the steps back of [..] included, is a symbolic
    link, and neither is the place it arrives at. *)
Definition follows_no_link (path : string) (t : node) : bool :=
  let parts := split sep path in
  forallb (fun k =>
             match lookup (walk_components [] (firstn k parts)) t with
             | Some (Symlink _) => false
             | _ => true
             end)
          (seq 0 (S (List.length parts))).

End Places.

(* ================================================================== *)
(** * Theorems *)

Section PathExamples.
Import PyStr PosixPath.

Example join_plain : join "/home/u" ".app" = "/home/u/.app".
Proof. reflexivity. Qed.
Example join_absolute : join "/home/u" "/etc" = "/etc".
Proof. reflexivity. Qed.
Example join_empty_tail : join "/home/u" "" = "/home/u/".
Proof. reflexivity. Qed.
Example basename_ex : basename ".app/Foo/foo" = "foo".
Proof. reflexivity. Qed.
Example basename_trailing : basename "a/b/" = "".
Proof. reflexivity. Qed.
Example dirname_ex : dirname "/home/u/.local/foo" = "/home/u/.local".
Proof. reflexivity. Qed.
Example dirname_root : dirname "/foo" = "/".
Proof. reflexivity. Qed.
Example dirname_bare : dirname "foo" = "".
Proof. reflexivity. Qed.
Example dirname_slashes : dirname "a//b" = "a".
Proof. reflexivity. Qed.
Example lstrip_dot_slash : lstrip "./" "./bin/run" = "bin/run".
Proof. reflexivity. Qed.
Example lstrip_hidden : lstrip "./" ".app/Foo/foo" = "app/Foo/foo".
Proof. reflexivity. Qed.
Example replace_home : replace "$HOME" "/home/u" "$HOME/.local/foo" = "/home/u/.local/foo".
Proof. reflexivity. Qed.
Example replace_spaces : replace " " "" (lower "My Cool App") = "mycoolapp".
Proof. reflexivity. Qed.
Example components_ex : components "/home/u/./x/../.app//Foo/" = ["home"; "u"; ".app"; "Foo"].
Proof. reflexivity. Qed.
Example endswith_sh : endswith ".sh" "run.sh" = true /\ endswith ".sh" "run.sh.bak" = false.
Proof. split; reflexivity. Qed.
End PathExamples.

Section FloatExamples.

Example extraction_progress_29_of_50 : extraction_progress 28 50 = 28.
Proof. vm_compute. reflexivity. Qed.

Example prim_extraction_progress_29_of_50 : Binary64.prim_extraction_progress 28 50 = 28.
Proof. vm_compute. reflexivity. Qed.

Example model_agrees_with_hardware_floats :
  forallb (fun p => (extraction_progress (fst p) (snd p) =? Binary64.prim_extraction_progress (fst p) (snd p))
                    && (mapping_progress (fst p) (snd p) =? Binary64.prim_mapping_progress (fst p) (snd p)))
          (all_pairs_upto 64) = true.
Proof. vm_compute. reflexivity. Qed.

End FloatExamples.

(* ================================================================== *)
(** ** The permission pass *)

Import PyStr PosixPath FS Engine Loader.
Local Open Scope list_scope.

(** The mode the pass leaves on a regular file called [file]. *)
Lemma recognised_dotted executable_name file isfile s_islnk :
  contains "." file = true ->
  recognised executable_name file isfile s_islnk
  = endswith ".sh" file || String.eqb file (basename executable_name).
Proof.
  intros H. unfold recognised. rewrite H. cbn [negb andb]. apply orb_false_r.
Qed.

Lemma with_execute_bits_spec m :
  with_execute_bits m = Z.lor m 73.
Proof.
  unfold with_execute_bits, S_IXUSR, S_IXGRP, S_IXOTH.
  rewrite <- !Z.lor_assoc. reflexivity.
Qed.

Lemma with_execute_bits_set m :
  Z.land (with_execute_bits m) S_IXUSR = S_IXUSR /\
  Z.land (with_execute_bits m) S_IXGRP = S_IXGRP /\
  Z.land (with_execute_bits m) S_IXOTH = S_IXOTH.
Proof.
  rewrite with_execute_bits_spec. unfold S_IXUSR, S_IXGRP, S_IXOTH.
  repeat split; apply Z.bits_inj'; intros n Hn;
    rewrite Z.land_spec, Z.lor_spec.
  - change 64 with (2 ^ 6). destruct (Z.eq_dec n 6) as [->|Hne].
    + rewrite Z.pow2_bits_true by lia. change (Z.testbit 73 6) with true.
      now rewrite orb_true_r.
    + rewrite Z.pow2_bits_false by lia. apply andb_false_r.
  - change 8 with (2 ^ 3). destruct (Z.eq_dec n 3) as [->|Hne].
    + rewrite Z.pow2_bits_true by lia. change (Z.testbit 73 3) with true.
      now rewrite orb_true_r.
    + rewrite Z.pow2_bits_false by lia. apply andb_false_r.
  - change 1 with (2 ^ 0). destruct (Z.eq_dec n 0) as [->|Hne].
    + rewrite Z.pow2_bits_true by lia. change (Z.testbit 73 0) with true.
      now rewrite orb_true_r.
    + rewrite Z.pow2_bits_false by lia. apply andb_false_r.
Qed.

Lemma walk_entries_find executable_name root es c :
  find_entry c (fst (walk_entries (walk_chmod executable_name) executable_name root es))
  = option_map (walked_entry executable_name root c) (find_entry c es).
Proof.
  induction es as [|[file x] r IH]; [reflexivity|].
  cbn [walk_entries find_entry].
  fold (walk_entries (walk_chmod executable_name) executable_name root).
  destruct (walk_entries (walk_chmod executable_name) executable_name root r)
    as [r' [fms dms]] eqn:Er.
  cbn [fst] in IH.
  destruct x as [mo d|m es'|t].
  - destruct (recognised executable_name file true false && lacks_user_execute mo) eqn:Eb;
      cbn [fst find_entry]; destruct (String.eqb file c) eqn:Ec; try exact IH;
      apply String.eqb_eq in Ec; subst; cbn [option_map walked_entry]; now rewrite Eb.
  - destruct (walk_chmod executable_name (join root file) (Dir m es')) as [x' ms] eqn:Ew.
    cbn [fst find_entry]. destruct (String.eqb file c) eqn:Ec; try exact IH.
    apply String.eqb_eq in Ec; subst. cbn [option_map walked_entry]. now rewrite Ew.
  - cbn [fst find_entry]. destruct (String.eqb file c) eqn:Ec; try exact IH.
    reflexivity.
Qed.

Lemma walk_chmod_dir executable_name root m es :
  fst (walk_chmod executable_name root (Dir m es))
  = Dir m (fst (walk_entries (walk_chmod executable_name) executable_name root es)).
Proof.
  cbn [walk_chmod].
  destruct (walk_entries (walk_chmod executable_name) executable_name root es)
    as [es' [fms dms]]. reflexivity.
Qed.

Lemma find_entry_In c x es : find_entry c es = Some x -> In (c, x) es.
Proof.
  induction es as [|[n y] r IH]; cbn; [discriminate|].
  destruct (String.eqb n c) eqn:E.
  - intros [= ->]. apply String.eqb_eq in E. subst. now left.
  - intros H. right. now apply IH.
Qed.

Lemma walked_entry_leaf executable_name root root' file x :
  (forall m es, x <> Dir m es) ->
  walked_entry executable_name root file x = walked_entry executable_name root' file x.
Proof. destruct x; intros H; try reflexivity. now destruct (H mode entries). Qed.

Lemma walk_chmod_lookup executable_name t :
  forall root q file x,
    lookup (q ++ [file]) t = Some x ->
    (forall m es, x <> Dir m es) ->
    lookup (q ++ [file]) (fst (walk_chmod executable_name root t))
    = Some (walked_entry executable_name root file x).
Proof.
  induction t as [m d|tg|m es IH] using node_induction; intros root q file x Hl Hx.
  - destruct q; discriminate.
  - destruct q; discriminate.
  - rewrite walk_chmod_dir.
    destruct q as [|c q'].
    + cbn [app lookup] in *. rewrite walk_entries_find.
      destruct (find_entry file es) as [y|]; [|discriminate].
      injection Hl as ->. reflexivity.
    + cbn [app lookup] in *. rewrite walk_entries_find.
      destruct (find_entry c es) as [y|] eqn:Ef; [|discriminate].
      cbn [option_map].
      destruct y as [mo d|m' es'|tg].
      * destruct q'; discriminate.
      * cbn [walked_entry].
        apply find_entry_In in Ef.
        rewrite Forall_forall in IH. specialize (IH _ Ef). cbn [snd] in IH.
        rewrite (IH (join root c) q' file x Hl Hx).
        f_equal. now apply walked_entry_leaf.
      * destruct q'; discriminate.
Qed.

(** *** Paths and edits *)

Lemma lookup_app p q t :
  lookup (p ++ q) t = match lookup p t with Some t0 => lookup q t0 | None => None end.
Proof.
  revert t. induction p as [|c p IH]; intros t; [reflexivity|].
  cbn [app lookup]. destruct t; try reflexivity.
  destruct (find_entry c entries); [apply IH|reflexivity].
Qed.

Lemma find_set_same c x es : find_entry c (set_entry c x es) = Some x.
Proof.
  induction es as [|[n y] r IH]; cbn.
  - now rewrite String.eqb_refl.
  - destruct (String.eqb n c) eqn:E; cbn; now rewrite E.
Qed.

Lemma find_set_other c c' x es :
  c <> c' -> find_entry c' (set_entry c x es) = find_entry c' es.
Proof.
  intros Hne. induction es as [|[n y] r IH]; cbn.
  - destruct (String.eqb c c') eqn:E; [apply String.eqb_eq in E; contradiction|reflexivity].
  - destruct (String.eqb n c) eqn:E; cbn.
    + apply String.eqb_eq in E. subst n.
      destruct (String.eqb c c') eqn:E'; [apply String.eqb_eq in E'; contradiction|reflexivity].
    + destruct (String.eqb n c'); [reflexivity|exact IH].
Qed.

Lemma find_del_same c es : find_entry c (del_entry c es) = None.
Proof.
  induction es as [|[n y] r IH]; cbn; [reflexivity|].
  destruct (String.eqb n c) eqn:E; cbn; [exact IH|now rewrite E].
Qed.

Lemma find_del_other c c' es :
  c <> c' -> find_entry c' (del_entry c es) = find_entry c' es.
Proof.
  intros Hne. induction es as [|[n y] r IH]; cbn; [reflexivity|].
  destruct (String.eqb n c) eqn:E; cbn.
  - apply String.eqb_eq in E. subst n.
    destruct (String.eqb c c') eqn:E'; [apply String.eqb_eq in E'; contradiction|exact IH].
  - destruct (String.eqb n c'); [reflexivity|exact IH].
Qed.

(** An edit that replaces an existing node, whatever the parent's mode. *)
Lemma alter_replace (f : edit) x x' e :
  (forall pw, f pw (Some x) = (Some x', e)) ->
  forall p t,
    lookup p t = Some x ->
    exists t', alter f p t = (t', e) /\ forall q, lookup (p ++ q) t' = lookup q x'.
Proof.
  intros Hf. induction p as [|c p IH]; intros t Hl.
  - cbn in Hl. injection Hl as ->. cbn [alter]. rewrite Hf. eauto.
  - cbn [lookup] in Hl. destruct t as [|m es|]; try discriminate.
    destruct (find_entry c es) as [y|] eqn:Ef; [|discriminate].
    destruct p as [|c' p'].
    + cbn in Hl. injection Hl as ->. cbn [alter]. rewrite Ef, Hf.
      unfold apply_edit. cbn [fst snd]. eexists. split; [reflexivity|].
      intros q. cbn [app lookup]. now rewrite find_set_same.
    + destruct (IH y Hl) as [y' [Ha Hq]].
      cbn [alter]. rewrite Ef. cbn [alter] in Ha. rewrite Ha.
      eexists. split; [reflexivity|].
      intros q. cbn [app lookup]. rewrite find_set_same. apply (Hq q).
Qed.

(** *** Steps of the monad *)

Lemma bind_ask {A B} (q : node -> A) (k : A -> M B) w :
  bind (ask q) k w = k (q (fs w)) w.
Proof. reflexivity. Qed.

Lemma bind_ret {A B} (a : A) (k : A -> M B) w : bind (ret a) k w = k a w.
Proof. reflexivity. Qed.

Lemma bind_emit {B} e (k : unit -> M B) w :
  bind (emit e) k w
  = k tt (mkWorld (fs w) (events w ++ [e]) (executable_name w) (icon_path_in_zip w)
            (slept w)).
Proof. reflexivity. Qed.

Lemma bind_get_executable_name {B} (k : string -> M B) w :
  bind get_executable_name k w = k (executable_name w) w.
Proof. reflexivity. Qed.

Lemma bind_call_ok {B} op (k : unit -> M B) w t :
  op (fs w) = (t, None) -> bind (call op) k w = k tt (set_fs t w).
Proof. intros H. unfold bind, call. now rewrite H. Qed.

Lemma bind_call_raise {B} op (k : unit -> M B) w t e :
  op (fs w) = (t, Some e) -> bind (call op) k w = (Raise e, set_fs t w).
Proof. intros H. unfold bind, call. now rewrite H. Qed.

Lemma bind_assoc {A B C} (m : M A) (k : A -> M B) (h : B -> M C) w :
  bind (bind m k) h w = bind m (fun a => bind (k a) h) w.
Proof. unfold bind. destruct (m w) as [[a|e] w']; reflexivity. Qed.

Lemma emit_all_spec l w :
  emit_all l w
  = (Ok tt, mkWorld (fs w) (events w ++ l) (executable_name w) (icon_path_in_zip w)
              (slept w)).
Proof.
  revert w. induction l as [|e l IH]; intros w.
  - cbn. rewrite app_nil_r. now destruct w.
  - cbn [emit_all]. rewrite bind_emit, IH. cbn. now rewrite <- app_assoc.
Qed.

(** The name the heuristic tests for the file [q] steps below the
    destination: the entry name [os.walk] reports, or the base name of the
    destination when the destination is the file. *)
Lemma lookup_leaf q x m d : lookup q (File m d) = Some x -> q = [] /\ x = File m d.
Proof. destruct q; cbn; [intros [= <-]; auto|discriminate]. Qed.

Lemma lookup_link q x t : lookup q (Symlink t) = Some x -> q = [] /\ x = Symlink t.
Proof. destruct q; cbn; [intros [= <-]; auto|discriminate]. Qed.

Lemma normalize_permissions_lookup w full_destination_path q x :
  lookup (components full_destination_path ++ q) (fs w) = Some x ->
  (forall m es, x <> Dir m es) ->
  lookup (components full_destination_path ++ q)
         (fs (snd (normalize_permissions full_destination_path w)))
  = Some (walked_entry (executable_name w) full_destination_path
            match q with [] => basename full_destination_path | _ => last q "" end x).
Proof.
  intros Hl Hx. pose proof Hl as Hl0. rewrite lookup_app in Hl.
  destruct (lookup (components full_destination_path) (fs w)) as [t0|] eqn:Ed; [|discriminate].
  unfold normalize_permissions. rewrite bind_ask. unfold os_path_isdir at 1. rewrite Ed.
  destruct t0 as [mo d|m es|tg].
  - apply lookup_leaf in Hl as [-> ->]. rewrite app_nil_r in *.
    rewrite bind_ask. unfold os_path_isfile at 1. rewrite Ed. cbn [when].
    rewrite bind_ask. unfold os_path_islink. rewrite Ed. cbn [negb when].
    rewrite bind_get_executable_name, bind_ask. unfold os_path_isfile. rewrite Ed.
    cbn [walked_entry].
    unfold recognised at 2. rewrite !andb_true_r.
    unfold recognised. rewrite !andb_true_r.
    destruct (endswith ".sh" (basename full_destination_path)
              || String.eqb (basename full_destination_path) (basename (executable_name w))
              || negb (contains "." (basename full_destination_path))) eqn:Er;
      cbn [when andb]; [|exact Hl0].
    rewrite bind_ask. unfold st_mode. rewrite Ed.
    destruct (lacks_user_execute mo) eqn:El; cbn [when]; [|exact Hl0].
    destruct (alter_replace (chmod_edit (with_execute_bits mo)) (File mo d)
                (File (with_execute_bits mo) d) None (fun _ => eq_refl) _ _ Ed)
      as [t' [Ha Hq]].
    unfold os_chmod. rewrite (bind_call_ok _ _ _ _ Ha). cbn.
    specialize (Hq []). now rewrite app_nil_r in Hq.
  - rewrite bind_get_executable_name, bind_ask. rewrite Ed.
    destruct (walk_chmod (executable_name w) full_destination_path (Dir m es)) as [t' ms] eqn:Ew.
    destruct (alter_replace (put_edit t' None) (Dir m es) t' None (fun _ => eq_refl) _ _ Ed)
      as [t'' [Ha Hq]].
    rewrite (bind_call_ok _ _ _ _ Ha). rewrite emit_all_spec. cbn [snd fs set_fs].
    rewrite Hq.
    destruct q as [|c q'] using rev_ind.
    + cbn in Hl. injection Hl as <-. now destruct (Hx m es).
    + clear IHq'. replace t' with (fst (walk_chmod (executable_name w) full_destination_path (Dir m es)))
        by now rewrite Ew.
      rewrite (walk_chmod_lookup _ _ _ _ _ _ Hl Hx).
      rewrite last_last. destruct (q' ++ [c]) eqn:Eq; [now destruct q'|]. reflexivity.
  - apply lookup_link in Hl as [-> ->]. rewrite app_nil_r in *.
    rewrite bind_ask. unfold os_path_isfile. rewrite Ed. cbn. exact Hl0.
Qed.

(** C7. Below a destination just copied, a regular file that the heuristic
    recognises (the name ends in [.sh], or is the base name of the
    executable, or has no dot) and that lacks the user-execute bit ends up
    with the user, group and other execute bits; a file that already has
    the user-execute bit keeps its mode; a symbolic link is left as it is.
    The name tested is the entry name that the walk reports, or the base
    name of the destination when the destination is the file itself. *)
Theorem C7_permission_normalizer :
  forall (w : world) (full_destination_path : string) (q : list string) (x : node),
    lookup (components full_destination_path ++ q) (fs w) = Some x ->
    let w' := snd (normalize_permissions full_destination_path w) in
    let name := match q with [] => basename full_destination_path | _ => last q "" end in
    match x with
    | File mo d =>
        (recognised (executable_name w) name true false = true ->
         lacks_user_execute mo = true ->
         lookup (components full_destination_path ++ q) (fs w')
         = Some (File (with_execute_bits mo) d)
         /\ Z.land (with_execute_bits mo) S_IXUSR = S_IXUSR
         /\ Z.land (with_execute_bits mo) S_IXGRP = S_IXGRP
         /\ Z.land (with_execute_bits mo) S_IXOTH = S_IXOTH)
        /\ (lacks_user_execute mo = false ->
            lookup (components full_destination_path ++ q) (fs w') = Some (File mo d))
    | Symlink t =>
        lookup (components full_destination_path ++ q) (fs w') = Some (Symlink t)
    | Dir _ _ => True
    end.
Proof.
  intros w dst q x Hl w' name.
  destruct x as [mo d|m es|t]; [|exact I|].
  - pose proof (normalize_permissions_lookup w dst q (File mo d) Hl) as H.
    assert (Hx : forall m es, File mo d <> Dir m es) by discriminate.
    specialize (H Hx). cbn [walked_entry] in H. fold name in H. fold w' in H.
    split.
    + intros Hr Hm. rewrite Hr, Hm in H. cbn [andb] in H.
      split; [exact H|apply with_execute_bits_set].
    + intros Hm. rewrite Hm, andb_false_r in H. exact H.
  - pose proof (normalize_permissions_lookup w dst q (Symlink t) Hl) as H.
    apply H. discriminate.
Qed.

Lemma C7_permission_normalizer_witness :
  lookup (components "/home/u/opt" ++ ["run.sh"]) (fs Scenarios.world_installed)
  = Some (File 420 (Bytes "#!/bin/sh"))
  /\ lookup (components "/home/u/opt" ++ ["run.sh"])
       (fs (snd (normalize_permissions "/home/u/opt" Scenarios.world_installed)))
     = Some (File 493 (Bytes "#!/bin/sh")).
Proof.
  split; [reflexivity|].
  pose proof (C7_permission_normalizer Scenarios.world_installed "/home/u/opt" ["run.sh"]
                (File 420 (Bytes "#!/bin/sh")) eq_refl) as H.
  cbv beta zeta iota in H. destruct H as [H _].
  destruct (H eq_refl eq_refl) as [H1 _]. exact H1.
Defined.

(** C10. A name with a dot anywhere in it, a hidden file such as
    [.profile] or a suffixed name such as [run.v2] included, never meets
    the no-extension clause of the heuristic, whatever the two tests on the
    file say.  So the permission pass leaves a regular file of such a name
    below the destination (or the destination itself, when it is the file)
    with the execute bits exactly when the name ends in [.sh] or is the
    base name of the executable and the user-execute bit was missing; in
    every other case the file keeps its mode. *)
Theorem C10_dotted_names_have_an_extension :
  forall (w : world) (full_destination_path : string) (q : list string) (mo : Z) (d : fdata),
    lookup (components full_destination_path ++ q) (fs w) = Some (File mo d) ->
    let name := match q with [] => basename full_destination_path | _ => last q "" end in
    contains "." name = true ->
    let w' := snd (normalize_permissions full_destination_path w) in
    let named := endswith ".sh" name || String.eqb name (basename (executable_name w)) in
    (forall isfile s_islnk, recognised (executable_name w) name isfile s_islnk = named)
    /\ lookup (components full_destination_path ++ q) (fs w')
       = Some (File (if named && lacks_user_execute mo then with_execute_bits mo else mo) d)
    /\ (lookup (components full_destination_path ++ q) (fs w') <> Some (File mo d) ->
        endswith ".sh" name = true \/ name = basename (executable_name w)).
Proof.
  intros w dst q mo d Hl name Hdot w' named.
  assert (Hrec : forall isfile s_islnk,
             recognised (executable_name w) name isfile s_islnk = named).
  { intros isfile s_islnk. now apply recognised_dotted. }
  assert (Hpass : lookup (components dst ++ q) (fs w')
                  = Some (File (if named && lacks_user_execute mo
                                then with_execute_bits mo else mo) d)).
  { subst w'. rewrite (normalize_permissions_lookup w dst q (File mo d) Hl)
      by discriminate.
    fold name. cbn [walked_entry]. rewrite Hrec.
    now destruct (named && lacks_user_execute mo). }
  split; [exact Hrec|]. split; [exact Hpass|].
  intros Hch. rewrite Hpass in Hch. subst named.
  destruct (endswith ".sh" name); [now left|].
  destruct (String.eqb name (basename (executable_name w))) eqn:E.
  - right. now apply String.eqb_eq.
  - now destruct Hch.
Qed.

Lemma C10_dotted_names_have_an_extension_witness :
  lookup (components "/home/u/opt" ++ [".profile"]) (fs Scenarios.world_dotted)
  = Some (File 420 (Bytes "export A=1"))
  /\ contains "." ".profile" = true
  /\ lookup (components "/home/u/opt" ++ [".profile"])
       (fs (snd (normalize_permissions "/home/u/opt" Scenarios.world_dotted)))
     = Some (File 420 (Bytes "export A=1"))
  /\ lookup (components "/home/u/opt" ++ ["run.v2"])
       (fs (snd (normalize_permissions "/home/u/opt" Scenarios.world_dotted)))
     = Some (File 420 (Bytes "#!/bin/sh"))
  /\ lookup (components "/home/u/opt" ++ ["tool"])
       (fs (snd (normalize_permissions "/home/u/opt" Scenarios.world_dotted)))
     = Some (File 493 (Bytes "ELF")).
Proof.
  split; [reflexivity|]. split; [reflexivity|]. split; [|split].
  - exact (proj1 (proj2 (C10_dotted_names_have_an_extension Scenarios.world_dotted "/home/u/opt"
                           [".profile"] 420 (Bytes "export A=1") eq_refl eq_refl))).
  - exact (proj1 (proj2 (C10_dotted_names_have_an_extension Scenarios.world_dotted "/home/u/opt"
                           ["run.v2"] 420 (Bytes "#!/bin/sh") eq_refl eq_refl))).
  - vm_compute. reflexivity.
Defined.

(* ================================================================== *)
(** ** The manifest loader *)

Import Scenarios.

(** The loader against the specification, for every decoder, path and
    state: the tree is left alone; what the specification accepts is
    accepted; and what is accepted beyond that is a manifest that is no
    object. *)
Lemma loader_against_specification json_loads zip_path st :
  let r := _load_package_metadata json_loads zip_path st in
  tree (snd r) = tree st
  /\ (spec_accepts json_loads zip_path (tree st) = true -> fst r = true)
  /\ (fst r = true ->
      spec_accepts json_loads zip_path (tree st) = false ->
      is_object (metadata (snd r)) = false).
Proof.
  intros r. subst r. unfold _load_package_metadata, spec_accepts.
  destruct (os_path_exists zip_path (tree st)) eqn:Ex; cbn [negb andb];
    [|repeat split; discriminate].
  destruct (is_zipfile zip_path (tree st)) eqn:Ez; cbn [negb].
  2:{ unfold is_zipfile in Ez.
      destruct (lookup (components zip_path) (tree st)) as [[mo [b|z]| |]|];
        repeat split; discriminate. }
  unfold is_zipfile in Ez.
  destruct (lookup (components zip_path) (tree st)) as [[mo [b|z]| |]|] eqn:El;
    try discriminate.
  destruct (central_directory_ok z); cbn [negb andb]; [|repeat split; discriminate].
  destruct (existsb (String.eqb "metadata.json") (namelist z)); cbn [negb andb];
    [|repeat split; discriminate].
  destruct (getinfo "metadata.json" (infolist z)) as [entry|];
    [|repeat split; discriminate].
  destruct (json_loads (payload entry)) as [m|]; [|repeat split; discriminate].
  destruct m as [| | | | |members]; cbn [py_in has_required_fields];
    repeat match goal with
           | |- context [match ?x with _ => _ end] => destruct x
           | |- context [if ?x then _ else _] => destruct x
           end;
    cbn; repeat split; auto; discriminate.
Qed.

(** C3, on a package whose manifest is the JSON array of the two words
    [app_name] and [version].  The loader tests the two names with [in] on
    whatever [json.load] returned: the array has them as items, so the
    loader answers [True] although the manifest is no object and has no
    field at all, and the constructor then raises at [self.metadata.get].
    The same holds of a string that contains the two words.  The rest of
    the claim holds: the loader never changes the tree, accepts whatever
    the specification accepts, and is wrong only on manifests that are no
    objects. *)
Theorem C3_loader_accepts_a_manifest_that_is_no_object :
  let words := JArray [JString "app_name"; JString "version"] in
  let st := mkLoader (package "words") Startup.default_metadata in
  _load_package_metadata Startup.json_loads_words "/home/u/app.zip" st
  = (true, mkLoader (package "words") words)
  /\ has_required_fields words = false
  /\ spec_accepts Startup.json_loads_words "/home/u/app.zip" (package "words") = false
  /\ Startup.__init__ Startup.json_loads_words "/home/u/app.zip" (package "words")
     = Startup.Crashed Startup.AttributeError
  /\ py_in "app_name" (JString "app_name, version") = Some true
  /\ py_in "version" (JString "app_name, version") = Some true
  /\ forall (json_loads : string -> option json) (zip_path : string) (st : loader_state),
       let r := _load_package_metadata json_loads zip_path st in
       tree (snd r) = tree st
       /\ (spec_accepts json_loads zip_path (tree st) = true -> fst r = true)
       /\ (fst r = true ->
           spec_accepts json_loads zip_path (tree st) = false ->
           is_object (metadata (snd r)) = false).
Proof.
  cbv zeta. do 6 (split; [vm_compute; reflexivity|]).
  intros json_loads zip_path st. apply loader_against_specification.
Qed.

Lemma py_in_object key members :
  py_in key (JObject members) = Some true <-> In key (map fst members).
Proof.
  cbn. split.
  - intros [= H]. apply existsb_exists in H as [[k v] [Hin He]].
    apply String.eqb_eq in He. cbn in He. subst. now apply (in_map fst) in Hin.
  - intros H. f_equal. apply existsb_exists. apply in_map_iff in H as [[k v] [<- Hin]].
    exists (k, v). split; [exact Hin|apply String.eqb_refl].
Qed.

Example loader_accepts_full_manifest :
  _load_package_metadata json_loads_toy "/home/u/app.zip" (mkLoader (package "full") JNull)
  = (true, mkLoader (package "full") manifest_full).
Proof. reflexivity. Qed.

(** Scenario C: no [version]. *)
Example loader_rejects_manifest_without_version :
  _load_package_metadata json_loads_toy "/home/u/app.zip"
    (mkLoader (package "no version") JNull)
  = (false, mkLoader (package "no version") manifest_without_version).
Proof. reflexivity. Qed.

Example loader_rejects_text_that_is_not_json :
  _load_package_metadata json_loads_toy "/home/u/app.zip" (mkLoader (package "{") JNull)
  = (false, mkLoader (package "{") JNull).
Proof. reflexivity. Qed.

Example loader_rejects_a_number :
  _load_package_metadata json_loads_toy "/home/u/app.zip"
    (mkLoader (package "a number") JNull)
  = (false, mkLoader (package "a number") (JNumber 5)).
Proof. reflexivity. Qed.

Example loader_rejects_missing_archive :
  _load_package_metadata json_loads_toy "/home/u/other.zip" (mkLoader (package "full") JNull)
  = (false, mkLoader (package "full") JNull).
Proof. reflexivity. Qed.

(* ================================================================== *)
(** ** The install mapper on the scenarios *)

Lemma set_entry_same c x es : find_entry c es = Some x -> set_entry c x es = es.
Proof.
  induction es as [|[n y] r IH]; cbn; [discriminate|].
  destruct (String.eqb n c) eqn:E.
  - now intros [= ->].
  - intros H. now rewrite IH.
Qed.

(** [os.makedirs(p)] on a directory that exists: [FileExistsError]. *)
Lemma mkdirs_on_directory dm p :
  forall t m es,
    lookup p t = Some (Dir m es) -> mkdirs dm false p t = (t, Some FileExistsError).
Proof.
  induction p as [|c p IH]; intros t m es Hl.
  - cbn in Hl. injection Hl as ->. reflexivity.
  - cbn [lookup] in Hl. destruct t as [|m0 es0|]; try discriminate.
    destruct (find_entry c es0) as [y|] eqn:Ef; [|discriminate].
    cbn [mkdirs]. rewrite Ef. rewrite (IH _ _ _ Hl). now rewrite set_entry_same.
Qed.

Lemma fresh_dirs_lookup dm p t :
  fresh_dirs dm p = (t, None) -> exists es, lookup p t = Some (Dir dm es).
Proof.
  revert t. induction p as [|c p IH]; intros t; cbn.
  - intros [= <-]. eauto.
  - destruct (writable dm); [|discriminate].
    destruct (fresh_dirs dm p) as [x e] eqn:Ex. intros [= <- ->].
    cbn. rewrite String.eqb_refl. now apply IH.
Qed.

(** [os.makedirs(p, exist_ok=True)] that returns leaves a directory at
    [p]. *)
Lemma mkdirs_makes_directory dm p :
  forall t t1,
    mkdirs dm true p t = (t1, None) -> exists m es, lookup p t1 = Some (Dir m es).
Proof.
  induction p as [|c p IH]; intros t t1 H.
  - destruct t; cbn in H; try discriminate. injection H as <-. cbn. eauto.
  - destruct t as [|m0 es0|]; cbn [mkdirs] in H; try discriminate.
    destruct (find_entry c es0) as [y|] eqn:Ef.
    + destruct (mkdirs dm true p y) as [y' e] eqn:Ey. injection H as <- ->.
      cbn [lookup]. rewrite find_set_same. eapply IH; eauto.
    + destruct (writable m0); [|discriminate].
      destruct (fresh_dirs dm p) as [y' e] eqn:Ey. injection H as <- ->.
      cbn [lookup]. rewrite find_set_same.
      destruct (fresh_dirs_lookup _ _ _ Ey) as [es Hes]. eauto.
Qed.

(** Lines 220 and 224: once [os.makedirs(full_destination_path,
    exist_ok=True)] has returned, [shutil.copytree] to that path raises,
    whatever the source. *)
Lemma copytree_after_makedirs_raises dm src dst t t1 :
  os_makedirs dm dst true t = (t1, None) ->
  exists t2 e, shutil_copytree dm src dst t1 = (t2, Some e).
Proof.
  unfold os_makedirs. destruct (falsy dst) eqn:Ed; [discriminate|]. intros H.
  destruct (mkdirs_makes_directory _ _ _ _ H) as (m & es & Hl).
  unfold shutil_copytree.
  destruct (lookup (components src) t1) as [[| |]|]; eauto.
  unfold os_makedirs. rewrite Ed, (mkdirs_on_directory _ _ _ _ _ Hl). eauto.
Qed.

(** C1, on scenario B: the rule [pkg -> $HOME/.local/foo] with [pkg/] in the
    archive.  The old content of the destination is removed, the
    destination is created empty, [copytree] then refuses it as existing:
    the run reports the copy failure, installs nothing of [pkg/] and ends
    with success. *)
Theorem C1_directory_rule_leaves_destination_empty :
  let w' := snd (run host_u self_B world_B) in
  lookup (components "/home/u/.local/foo") (fs w') = Some (Dir rwxr_xr_x [])
  /\ lookup (components "/home/u/.local/foo/run.sh") (fs w') = None
  /\ messages (new_events world_B w')
     = [MsgTempSpot "/home/u/.foo_installer_temp_extract";
        MsgClearingOld "/home/u/.local/foo";
        MsgCopyFail "pkg" "/home/u/.local/foo" FileExistsError;
        MsgExecutableMissing ".local/foo/bin/tool" "/home/u/local/foo/bin/tool";
        MsgIconMissing ".local/foo/icon.png" "/home/u/local/foo/icon.png";
        MsgDesktopEntry "/home/u/.local/share/applications/foo.desktop";
        MsgCacheRefreshing; MsgNoCacheTool; MsgDone;
        MsgTempCleaned "/home/u/.foo_installer_temp_extract"]
  /\ completions (events w') = [true].
Proof. vm_compute. repeat split. Qed.

(** C2, on scenario A: with an empty install map the staged tree is copied
    to [~/.app/Foo], but the fallback path has no permission pass:
    [bin/foo] arrives with the mode extraction gave it, without any
    execute bit, and no permission message is emitted. *)
Theorem C2_fallback_grants_no_execute_permission :
  let w' := snd (run host_u self_A world_A) in
  lookup (components "/home/u/.app/Foo/bin/foo") (fs w')
  = Some (File rw_r__r__ (Bytes "#!/bin/sh"))
  /\ recognised "bin/foo" "foo" true false = true
  /\ lacks_user_execute rw_r__r__ = true
  /\ messages (new_events world_A w')
     = [MsgTempSpot "/home/u/.foo_installer_temp_extract";
        MsgNoInstallMap "/home/u/.app/Foo";
        MsgExecutableMissing ".app/Foo/bin/foo" "/home/u/app/Foo/bin/foo";
        MsgIconMissing ".app/Foo/app_icon.png" "/home/u/app/Foo/app_icon.png";
        MsgDesktopEntry "/home/u/.local/share/applications/foo.desktop";
        MsgCacheRefreshing; MsgNoCacheTool; MsgDone;
        MsgTempCleaned "/home/u/.foo_installer_temp_extract"]
  /\ completions (events w') = [true].
Proof. vm_compute. repeat split. Qed.

(** C6, on a map whose only rule lacks [destination_root], and on an
    archive of 50 members.  The incomplete rule is left with [continue]
    before the progress lines: the mapping phase emits no value for it and
    the last value of the successful run is the 50 of the extraction
    phase.  And the 29th of 50 members is reported as 28, where
    [floor(29/50*50)] is 29: the quotient 29/50 is rounded to a double
    before it is multiplied. *)
Theorem C6_progress_of_incomplete_rule_and_rounding :
  let w' := snd (run host_u self_incomplete world_B) in
  progress_values (events w') = [12; 25; 37; 50]
  /\ completions (events w') = [true]
  /\ List.length (install_map self_incomplete) = 1%nat
  /\ extraction_progress 28 50 = 28
  /\ (28 + 1) * 50 / 50 = 29.
Proof. vm_compute. repeat split. Qed.

(** C8, on an executable installed as [~/.app/Foo/foo] and named
    [.app/Foo/foo] by the manifest: [lstrip('./')] takes the leading dot of
    [.app] away, the path is resolved to [~/app/Foo/foo], which does not
    exist, and the descriptor is written with empty [Exec] and [Icon]
    fields although both files are in place. *)
Theorem C8_hidden_directory_is_resolved_without_its_dot :
  let w' := snd (_create_desktop_entry host_u self_A world_app) in
  os_path_isfile (join (home_dir host_u) (executable_name world_app)) (fs world_app) = true
  /\ os_path_isfile (join (home_dir host_u) (icon_path_in_zip world_app)) (fs world_app) = true
  /\ resolve host_u (executable_name world_app) = "/home/u/app/Foo/foo"
  /\ resolve host_u (icon_path_in_zip world_app) = "/home/u/app/Foo/app_icon.png"
  /\ events w'
     = [Message (MsgExecutableMissing ".app/Foo/foo" "/home/u/app/Foo/foo");
        Message (MsgIconMissing ".app/Foo/app_icon.png" "/home/u/app/Foo/app_icon.png");
        Message (MsgDesktopEntry "/home/u/.local/share/applications/foo.desktop")]
  /\ lookup (components "/home/u/.local/share/applications/foo.desktop") (fs w')
     = Some (File 484 (Bytes (desktop_content self_A "" ""))).
Proof. vm_compute. repeat split. Qed.

(* ================================================================== *)
(** ** Removal *)

Lemma shrinks_refl x : shrinks x x.
Proof. intros p H. exact H. Qed.

Lemma present_cons c p m es :
  present (c :: p) (Dir m es)
  = match find_entry c es with Some y => present p y | None => false end.
Proof. unfold present. cbn [lookup]. now destruct (find_entry c es). Qed.

Lemma present_cons_inv c p t :
  present (c :: p) t = true ->
  exists m es y, t = Dir m es /\ find_entry c es = Some y /\ present p y = true.
Proof.
  destruct t as [|m es|]; try discriminate.
  rewrite present_cons. destruct (find_entry c es) as [y|] eqn:E; [|discriminate].
  intros H. exists m, es, y. auto.
Qed.

Lemma find_del_inv c c' y es :
  find_entry c' (del_entry c es) = Some y -> c <> c' /\ find_entry c' es = Some y.
Proof.
  intros H. destruct (string_dec c c') as [->|Hne].
  - now rewrite find_del_same in H.
  - split; [exact Hne|]. now rewrite find_del_other in H.
Qed.

Lemma find_cons_other c c' (x : node) es :
  c <> c' -> find_entry c' ((c, x) :: es) = find_entry c' es.
Proof.
  intros Hne. cbn. destruct (String.eqb c c') eqn:E; [|reflexivity].
  apply String.eqb_eq in E. contradiction.
Qed.

Lemma rmtree_entries_shrinks rm w es :
  Forall (fun e => forall x' err, rm (snd e) = (Some x', err) -> shrinks (snd e) x') es ->
  forall es' err c y',
    rmtree_entries rm w es = (es', err) ->
    find_entry c es' = Some y' ->
    exists y, find_entry c es = Some y /\ shrinks y y'.
Proof.
  induction 1 as [|[n x] r Hx Hr IH]; intros es' err c y' He Hf.
  - cbn in He. injection He as <- <-. discriminate.
  - cbn [rmtree_entries] in He. fold (rmtree_entries rm w) in He. cbn [snd] in Hx.
    assert (Hgone : forall r' e',
              rmtree_entries rm w r = (r', e') ->
              find_entry c (del_entry n r') = Some y' ->
              exists y, find_entry c ((n, x) :: r) = Some y /\ shrinks y y').
    { intros r' e' Er Hd. apply find_del_inv in Hd as [Hne Hd].
      destruct (IH _ _ _ _ Er Hd) as [y [Hy Hs]].
      exists y. split; [now rewrite find_cons_other|exact Hs]. }
    assert (Hkept : find_entry c ((n, x) :: r) = Some y' ->
              exists y, find_entry c ((n, x) :: r) = Some y /\ shrinks y y').
    { intros H'. exists y'. split; [exact H'|apply shrinks_refl]. }
    destruct x as [mo d|m es0|tg].
    + destruct w.
      * destruct (rmtree_entries rm true r) as [r' e'] eqn:Er. injection He as <- <-.
        eapply Hgone; eauto.
      * injection He as <- <-. auto.
    + destruct (rm (Dir m es0)) as [[x'|] e] eqn:Erm.
      * injection He as <- <-. cbn [find_entry] in Hf |- *.
        destruct (String.eqb n c); [|eauto using shrinks_refl].
        injection Hf as <-. eexists. split; [reflexivity|]. eapply Hx; eauto.
      * destruct (rmtree_entries rm w r) as [r' e'] eqn:Er. injection He as <- <-.
        eapply Hgone; eauto.
    + destruct w.
      * destruct (rmtree_entries rm true r) as [r' e'] eqn:Er. injection He as <- <-.
        eapply Hgone; eauto.
      * injection He as <- <-. auto.
Qed.

(** What [rmtree] leaves of a tree it could not remove is part of it. *)
Lemma rmtree_node_shrinks x :
  forall pw x' err, rmtree_node pw x = (Some x', err) -> shrinks x x'.
Proof.
  induction x as [m d|tg|m es IH] using node_induction; intros pw x' err H.
  - cbn in H. injection H as <- _. apply shrinks_refl.
  - cbn in H. injection H as <- _. apply shrinks_refl.
  - cbn [rmtree_node] in H.
    destruct (rmtree_entries (rmtree_node (writable m)) (writable m) es) as [es' [e|]] eqn:Ee.
    + injection H as <- _. intros [|c p] Hp; [reflexivity|].
      rewrite present_cons in Hp |- *.
      destruct (find_entry c es') as [y'|] eqn:Ef; [|discriminate].
      assert (HF : Forall (fun e => forall x' err,
                     rmtree_node (writable m) (snd e) = (Some x', err) -> shrinks (snd e) x') es).
      { eapply Forall_impl; [|exact IH]. intros a Ha. apply Ha. }
      destruct (rmtree_entries_shrinks _ _ _ HF _ _ _ _ Ee Ef) as [y [Hy Hs]].
      rewrite Hy. now apply Hs.
    + destruct pw; [discriminate|]. injection H as <- _.
      intros [|c p] Hp; [reflexivity|]. rewrite present_cons in Hp. discriminate.
Qed.

Lemma alter_cons_cons f c c' q m es :
  alter f (c :: c' :: q) (Dir m es)
  = match find_entry c es with
    | Some x => let (x', e) := alter f (c' :: q) x in (Dir m (set_entry c x' es), e)
    | None => (Dir m es, Some FileNotFoundError)
    end.
Proof. reflexivity. Qed.

Lemma alter_shrinks f :
  shrinking f -> forall q t, shrinks t (fst (alter f q t)).
Proof.
  intros Hf. induction q as [|c q IH]; intros t.
  - cbn [alter]. destruct (f false (Some t)) as [[n'|] e] eqn:E; [|apply shrinks_refl].
    apply Hf in E as [x [[= <-] Hs]]. exact Hs.
  - destruct t as [mo d|m es|tg]; try (destruct q; apply shrinks_refl).
    destruct q as [|c' q'].
    + cbn [alter]. unfold apply_edit.
      destruct (f (writable m) (find_entry c es)) as [[x'|] e] eqn:E; cbn [fst snd].
      * apply Hf in E as [x [Hx Hs]]. intros [|c2 p] Hp; [reflexivity|].
        rewrite present_cons in Hp |- *.
        destruct (string_dec c c2) as [<-|Hne].
        -- rewrite find_set_same in Hp. rewrite Hx. now apply Hs.
        -- now rewrite find_set_other in Hp.
      * intros [|c2 p] Hp; [reflexivity|].
        rewrite present_cons in Hp |- *.
        destruct (find_entry c2 (del_entry c es)) as [y|] eqn:Ed; [|discriminate].
        apply find_del_inv in Ed as [_ Ed]. now rewrite Ed.
    + rewrite alter_cons_cons.
      destruct (find_entry c es) as [x|] eqn:Ef; [|apply shrinks_refl].
      specialize (IH x).
      destruct (alter f (c' :: q') x) as [x' e] eqn:Ea. cbn [fst] in IH |- *.
      intros [|c2 p] Hp; [reflexivity|].
      rewrite present_cons in Hp |- *.
      destruct (string_dec c c2) as [<-|Hne].
      * rewrite find_set_same in Hp. rewrite Ef. now apply IH.
      * now rewrite find_set_other in Hp.
Qed.

Lemma rmtree_edit_shrinking : shrinking rmtree_edit.
Proof.
  intros pw [x|] new e H; cbn in H.
  - destruct new as [x'|]; [|exact I]. exists x. split; [reflexivity|].
    eapply rmtree_node_shrinks; eauto.
  - injection H as <- _. exact I.
Qed.

(** [shutil.rmtree] creates nothing. *)
Lemma rmtree_creates_nothing path path' t :
  os_path_exists path' (fst (shutil_rmtree path t)) = true ->
  os_path_exists path' t = true.
Proof. apply (alter_shrinks _ rmtree_edit_shrinking). Qed.

Lemma alter_success_removes f :
  (forall pw old new, f pw old = (new, None) -> new = None) ->
  forall q t t', alter f q t = (t', None) -> present q t' = false.
Proof.
  intros Hf. induction q as [|c q IH]; intros t t' H.
  - cbn [alter] in H. destruct (f false (Some t)) as [[n'|] e] eqn:E; [|discriminate].
    injection H as <- ->. apply Hf in E. discriminate.
  - destruct t as [mo d|m es|tg]; try (destruct q; discriminate).
    destruct q as [|c' q'].
    + cbn [alter] in H. unfold apply_edit in H.
      destruct (f (writable m) (find_entry c es)) as [[x'|] e] eqn:E; cbn [fst snd] in H;
        injection H as <- ->.
      * apply Hf in E. discriminate.
      * rewrite present_cons. now rewrite find_del_same.
    + rewrite alter_cons_cons in H.
      destruct (find_entry c es) as [x|] eqn:Ef; [|discriminate].
      destruct (alter f (c' :: q') x) as [x' e] eqn:Ea. injection H as <- ->.
      rewrite present_cons, find_set_same. eapply IH; eauto.
Qed.

Lemma rmtree_edit_success pw old new :
  rmtree_edit pw old = (new, None) -> new = None.
Proof.
  destruct old as [[mo d|m es|tg]|]; cbn; try discriminate.
  destruct (rmtree_entries (rmtree_node (writable m)) (writable m) es) as [es' [e|]];
    [discriminate|].
  destruct pw; [now intros [= <-]|discriminate].
Qed.

(** [shutil.rmtree] that returns has removed the path. *)
Lemma rmtree_removes path t t' :
  shutil_rmtree path t = (t', None) -> os_path_exists path t' = false.
Proof. apply (alter_success_removes _ rmtree_edit_success). Qed.

Lemma rmtree_entries_OSError rm w es :
  Forall (fun e => forall r err, rm (snd e) = (r, Some err) -> is_OSError err = true) es ->
  forall es' err, rmtree_entries rm w es = (es', Some err) -> is_OSError err = true.
Proof.
  induction 1 as [|[n x] r Hx Hr IH]; intros es' err He.
  - discriminate.
  - cbn [rmtree_entries] in He. fold (rmtree_entries rm w) in He. cbn [snd] in Hx.
    destruct x as [mo d|m es0|tg].
    + destruct w; [|now injection He as _ <-].
      destruct (rmtree_entries rm true r) as [r' e'] eqn:Er. injection He as _ ->. eauto.
    + destruct (rm (Dir m es0)) as [[x'|] e] eqn:Erm.
      * injection He as _ <-. destruct e as [e'|]; [eauto|reflexivity].
      * destruct (rmtree_entries rm w r) as [r' e'] eqn:Er. injection He as _ ->. eauto.
    + destruct w; [|now injection He as _ <-].
      destruct (rmtree_entries rm true r) as [r' e'] eqn:Er. injection He as _ ->. eauto.
Qed.

Lemma rmtree_node_OSError x :
  forall pw r err, rmtree_node pw x = (r, Some err) -> is_OSError err = true.
Proof.
  induction x as [m d|tg|m es IH] using node_induction; intros pw r err H.
  - cbn in H. now injection H as _ <-.
  - cbn in H. now injection H as _ <-.
  - cbn [rmtree_node] in H.
    destruct (rmtree_entries (rmtree_node (writable m)) (writable m) es) as [es' [e|]] eqn:Ee.
    + injection H as _ <-. eapply rmtree_entries_OSError; [|exact Ee].
      eapply Forall_impl; [|exact IH]. intros a Ha. apply Ha.
    + destruct pw; [discriminate|]. now injection H as _ <-.
Qed.

Lemma alter_OSError f :
  (forall pw old new e, f pw old = (new, Some e) -> is_OSError e = true) ->
  forall q t t' e, alter f q t = (t', Some e) -> is_OSError e = true.
Proof.
  intros Hf. induction q as [|c q IH]; intros t t' e H.
  - cbn [alter] in H. destruct (f false (Some t)) as [[n'|] e0] eqn:E.
    + injection H as _ ->. eauto.
    + now injection H as _ <-.
  - destruct t as [mo d|m es|tg]; try (destruct q; now injection H as _ <-).
    destruct q as [|c' q'].
    + cbn [alter] in H. unfold apply_edit in H.
      destruct (f (writable m) (find_entry c es)) as [[x'|] e0] eqn:E; cbn [fst snd] in H;
        injection H as _ ->; eauto.
    + rewrite alter_cons_cons in H.
      destruct (find_entry c es) as [x|] eqn:Ef; [|now injection H as _ <-].
      destruct (alter f (c' :: q') x) as [x' e0] eqn:Ea. injection H as _ ->. eauto.
Qed.

(** [shutil.rmtree] raises nothing but [OSError]. *)
Lemma rmtree_raises_OSError path t t' e :
  shutil_rmtree path t = (t', Some e) -> is_OSError e = true.
Proof.
  apply alter_OSError. intros pw [x|] new e0; cbn.
  - apply rmtree_node_OSError.
  - now intros [= _ <-].
Qed.

(* ================================================================== *)
(** ** The workspace cleaner *)

Section Cleaner.
Variable host : Host.
Variable self : InstallerThread.


(** One turn of the retry loop. *)
Lemma removal_attempt_step k a w :
  removal_attempts host self (S k) a w
  = match shutil_rmtree (temp_extract_dir host self) (fs w) with
    | (t, None) => (Ok tt, emitted (Message (MsgTempCleaned (temp_extract_dir host self))) (set_fs t w))
    | (t, Some e) =>
        removal_attempts host self k (a + 1)
          (if a <? 4
           then rested (1 # 10)
                  (emitted (Message (MsgTempRetry (temp_extract_dir host self) (a + 1) e))
                           (set_fs t w))
           else emitted (Message (MsgTempFatal (temp_extract_dir host self) e)) (set_fs t w))
    end.
Proof.
  cbn [removal_attempts]. unfold bind, try_except, call, emit, ret, time_sleep.
  destruct (shutil_rmtree (temp_extract_dir host self) (fs w)) as [t [e|]] eqn:E; [|reflexivity].
  rewrite (rmtree_raises_OSError _ _ _ _ E).
  change (max_attempts - 1) with 4. destruct (a <? 4); reflexivity.
Qed.

Lemma rmtree_times_succ n path t :
  rmtree_times (S n) path t = fst (shutil_rmtree path (rmtree_times n path t)).
Proof.
  revert t. induction n as [|j IH]; intros t; [reflexivity|].
  change (rmtree_times (S (S j)) path t)
    with (rmtree_times (S j) path (fst (shutil_rmtree path t))).
  now rewrite IH.
Qed.

Lemma attempt_signal_is_staging_attempt dir a raised :
  is_staging_attempt (attempt_signal dir a raised) = true.
Proof. unfold attempt_signal. destruct raised; [destruct (a <? 4)|]; reflexivity. Qed.

(** The retry loop with [n] turns left, the first of them numbered [a]: it
    returns after [m] calls of [shutil.rmtree], each on the tree the call
    before left; all but the last raised, and the last raised only when no
    turn was left; it has slept a tenth of a second after each call but the
    last. *)
Lemma removal_attempts_exact :
  forall n a w,
    a + Z.of_nat n = 5 -> 0 <= a -> (1 <= n)%nat ->
    let dir := temp_extract_dir host self in
    let w' := snd (removal_attempts host self n a w) in
    exists m,
      (1 <= m <= n)%nat
      /\ fst (removal_attempts host self n a w) = Ok tt
      /\ fs w' = rmtree_times m dir (fs w)
      /\ events w'
         = events w
           ++ map (fun k => attempt_signal dir (a + Z.of_nat k) (rmtree_raises k dir (fs w)))
                  (seq 0 m)
      /\ slept w' = slept w ++ repeat (1 # 10)%Q (m - 1)
      /\ (forall k, (k + 1 < m)%nat -> rmtree_raises k dir (fs w) <> None)
      /\ (rmtree_raises (m - 1) dir (fs w) <> None -> m = n).
Proof.
  induction n as [|k IH]; intros a w Ha Ha0 Hn dir w'; [lia|].
  subst w'. rewrite removal_attempt_step. fold dir.
  destruct (shutil_rmtree dir (fs w)) as [t [e|]] eqn:E.
  - destruct k as [|k'].
    + (* the last turn *)
      assert (a = 4) by lia. subst a. exists 1%nat. cbn [removal_attempts Z.ltb Z.compare].
      unfold ret. cbn [fst snd emitted events fs slept set_fs rmtree_times seq map repeat
                       Nat.sub].
      unfold rmtree_raises. cbn [rmtree_times]. rewrite E. cbn [fst snd attempt_signal].
      rewrite app_nil_r.
      split; [lia|]. do 4 (split; [reflexivity|]). split; [intros k0 Hk; lia|reflexivity].
    + assert (Hlt : (a <? 4) = true) by (apply Z.ltb_lt; lia). rewrite Hlt.
      set (w1 := rested (1 # 10)
                   (emitted (Message (MsgTempRetry dir (a + 1) e)) (set_fs t w))).
      destruct (IH (a + 1) w1 ltac:(lia) ltac:(lia) ltac:(lia))
        as (m & Hm & Hok & Hfs & Hev & Hsl & Hbefore & Hlast).
      fold dir in Hok, Hfs, Hev, Hsl, Hbefore, Hlast.
      assert (Hshift : forall j, rmtree_raises (S j) dir (fs w) = rmtree_raises j dir (fs w1)).
      { intros j. unfold rmtree_raises. cbn [rmtree_times]. now rewrite E. }
      exists (S m). split; [lia|]. split; [exact Hok|]. split.
      { rewrite Hfs. cbn [rmtree_times]. now rewrite E. }
      split.
      { rewrite Hev. subst w1. cbn [rested emitted events set_fs].
        rewrite <- app_assoc. f_equal. cbn [seq map app].
        f_equal.
        - unfold rmtree_raises. cbn [rmtree_times]. rewrite E. cbn [snd].
          change (Z.of_nat 0) with 0. rewrite Z.add_0_r. unfold attempt_signal.
          now rewrite Hlt.
        - rewrite <- seq_shift, map_map. apply map_ext. intros j.
          rewrite Hshift. f_equal. lia. }
      split.
      { rewrite Hsl. subst w1. cbn [rested emitted slept set_fs].
        rewrite <- app_assoc. f_equal.
        destruct m as [|m']; [lia|]. cbn [Nat.sub repeat]. rewrite Nat.sub_0_r.
        clear. induction m' as [|j IHj]; [reflexivity|]. cbn [repeat app]. now rewrite <- IHj. }
      split.
      { intros [|j] Hj.
        - unfold rmtree_raises. cbn [rmtree_times]. rewrite E. discriminate.
        - rewrite Hshift. apply Hbefore. lia. }
      { intros Hr. f_equal. apply Hlast.
        destruct m as [|m']; [lia|]. cbn [Nat.sub] in Hr |- *. rewrite Nat.sub_0_r in *.
        now rewrite <- Hshift. }
  - exists 1%nat. cbn [fst snd emitted events fs slept set_fs rmtree_times seq map repeat Nat.sub].
    unfold rmtree_raises. cbn [rmtree_times]. rewrite E. cbn [fst snd attempt_signal].
    rewrite app_nil_r.
    split; [lia|]. do 4 (split; [reflexivity|]).
    split; [intros k0 Hk; lia|intros Hr; now destruct Hr].
Qed.

Lemma removal_attempts_spec :
  forall n a w,
    a + Z.of_nat n = 5 -> 0 <= a ->
    exists l,
      fst (removal_attempts host self n a w) = Ok tt
      /\ events (snd (removal_attempts host self n a w)) = events w ++ l
      /\ Forall (fun e => is_staging_attempt e = true) l
      /\ (List.length l <= n)%nat
      /\ ((1 <= n)%nat ->
          os_path_exists (temp_extract_dir host self) (fs (snd (removal_attempts host self n a w))) = false
          \/ exists e, In (Message (MsgTempFatal (temp_extract_dir host self) e)) l).
Proof.
  intros n a w Ha Ha0. destruct n as [|k].
  - exists []. cbn. rewrite app_nil_r. repeat split; auto. lia.
  - destruct (removal_attempts_exact (S k) a w Ha Ha0 ltac:(lia))
      as (m & Hm & Hok & Hfs & Hev & Hsl & Hbefore & Hlast).
    set (dir := temp_extract_dir host self) in *.
    exists (map (fun j => attempt_signal dir (a + Z.of_nat j) (rmtree_raises j dir (fs w)))
                (seq 0 m)).
    split; [exact Hok|]. split; [exact Hev|]. split.
    { apply Forall_forall. intros x Hx. apply in_map_iff in Hx as (j & <- & _).
      apply attempt_signal_is_staging_attempt. }
    split; [rewrite length_map, length_seq; lia|].
    intros _. rewrite Hfs.
    destruct (rmtree_raises (m - 1) dir (fs w)) as [e|] eqn:Er.
    + right. exists e. apply in_map_iff. exists (m - 1)%nat. split.
      * rewrite Er. unfold attempt_signal.
        assert (m = S k) by (apply Hlast; discriminate).
        replace (a + Z.of_nat (m - 1)) with 4 by lia. reflexivity.
      * apply in_seq. lia.
    + left. destruct m as [|m']; [lia|].
      cbn [Nat.sub] in Er. rewrite Nat.sub_0_r in Er. unfold rmtree_raises in Er.
      rewrite rmtree_times_succ.
      destruct (shutil_rmtree dir (rmtree_times m' dir (fs w))) as [t' o] eqn:E'.
      cbn [snd] in Er. subst o. cbn [fst]. eapply rmtree_removes; eauto.
Qed.

Lemma not_created_by_rmtree path path' t :
  os_path_exists path' t = false ->
  os_path_exists path' (fst (shutil_rmtree path t)) = false.
Proof.
  intros H. destruct (os_path_exists path' (fst (shutil_rmtree path t))) eqn:E; [|reflexivity].
  apply rmtree_creates_nothing in E. congruence.
Qed.

(** [_cleanup_temp_files], from any state. *)
Lemma cleanup_spec w :
  exists staging icons w2,
    _cleanup_temp_files host self w = (Ok tt, w2)
    /\ events w2 = events w ++ staging ++ icons
    /\ Forall (fun e => is_staging_attempt e = true) staging
    /\ (List.length staging <= 5)%nat
    /\ Forall (fun e => is_icon_attempt e = true) icons
    /\ (List.length icons <= 1)%nat
    /\ (os_path_exists (temp_extract_dir host self) (fs w2) = false
        \/ exists e, In (Message (MsgTempFatal (temp_extract_dir host self) e)) staging)
    /\ (os_path_exists (temp_icon_display_dir host self) (fs w2) = false
        \/ exists e, In (Message (MsgIconTempProblem (temp_icon_display_dir host self) e)) icons).
Proof.
  unfold _cleanup_temp_files. rewrite bind_ask.
  (* the staging directory *)
  assert (H1 : exists staging w1,
             when (os_path_exists (temp_extract_dir host self) (fs w))
               (try_except any_Exception
                  (removal_attempts host self (Z.to_nat max_attempts) 0)
                  (fun e => emit (Message (MsgTempOops (temp_extract_dir host self) e)))) w = (Ok tt, w1)
             /\ events w1 = events w ++ staging
             /\ Forall (fun e => is_staging_attempt e = true) staging
             /\ (List.length staging <= 5)%nat
             /\ (os_path_exists (temp_extract_dir host self) (fs w1) = false
                 \/ exists e, In (Message (MsgTempFatal (temp_extract_dir host self) e)) staging)).
  { destruct (os_path_exists (temp_extract_dir host self) (fs w)) eqn:Ex; cbn [when].
    - destruct (removal_attempts_spec 5 0 w eq_refl ltac:(lia)) as (l & Ha & Hb & Hc & Hd & He).
      change (Z.to_nat max_attempts) with 5%nat. unfold try_except.
      destruct (removal_attempts host self 5 0 w) as [r w1] eqn:Er. cbn [fst snd] in *.
      subst r. exists l, w1. repeat split; auto. apply He. lia.
    - exists [], w. rewrite app_nil_r. repeat split; auto. cbn. lia. }
  destruct H1 as (staging & w1 & Hw & Hev & Hst & Hlen & Htemp).
  unfold bind at 1. rewrite Hw. rewrite bind_ask.
  destruct (os_path_exists (temp_icon_display_dir host self) (fs w1)) eqn:Ei; cbn [when].
  - unfold try_except, bind, call, emit.
    destruct (shutil_rmtree (temp_icon_display_dir host self) (fs w1)) as [t [e|]] eqn:E; cbn [any_Exception].
    + exists staging, [Message (MsgIconTempProblem (temp_icon_display_dir host self) e)]. eexists.
      split; [reflexivity|]. cbn [fs events set_fs].
      rewrite Hev, <- app_assoc. repeat split; auto.
      * destruct Htemp as [Hno|Hf]; [left|now right].
        replace t with (fst (shutil_rmtree (temp_icon_display_dir host self) (fs w1))) by now rewrite E.
        now apply not_created_by_rmtree.
      * right. exists e. now left.
    + exists staging, [Message (MsgIconTempCleaned (temp_icon_display_dir host self))]. eexists.
      split; [reflexivity|]. cbn [fs events set_fs].
      rewrite Hev, <- app_assoc. repeat split; auto.
      * destruct Htemp as [Hno|Hf]; [left|now right].
        replace t with (fst (shutil_rmtree (temp_icon_display_dir host self) (fs w1))) by now rewrite E.
        now apply not_created_by_rmtree.
      * left. eapply rmtree_removes; eauto.
  - exists staging, [], w1. cbn [ret]. rewrite app_nil_r.
    repeat split; auto; cbn; lia.
Qed.

(** [_cleanup_temp_files], from any state, call by call: [n] calls of
    [shutil.rmtree] at the staging directory, then at most one at the
    icon-preview directory. *)
Lemma cleanup_exact w :
  let dir := temp_extract_dir host self in
  let icon := temp_icon_display_dir host self in
  let w' := snd (_cleanup_temp_files host self w) in
  exists n : nat,
    let t1 := rmtree_times n dir (fs w) in
    (n <= 5)%nat
    /\ (n = 0%nat <-> os_path_exists dir (fs w) = false)
    /\ (forall k, (k + 1 < n)%nat -> rmtree_raises k dir (fs w) <> None)
    /\ (forall k, (k + 1 = n)%nat -> rmtree_raises k dir (fs w) <> None -> n = 5%nat)
    /\ slept w' = slept w ++ repeat (1 # 10)%Q (n - 1)
    /\ fs w' = (if os_path_exists icon t1 then fst (shutil_rmtree icon t1) else t1)
    /\ events w'
       = events w
         ++ map (fun k => attempt_signal dir (Z.of_nat k) (rmtree_raises k dir (fs w)))
                (seq 0 n)
         ++ (if os_path_exists icon t1
             then [icon_signal icon (snd (shutil_rmtree icon t1))] else []).
Proof.
  intros dir icon w'.
  assert (H1 : exists n w1,
             when (os_path_exists dir (fs w))
               (try_except any_Exception
                  (removal_attempts host self (Z.to_nat max_attempts) 0)
                  (fun e => emit (Message (MsgTempOops dir e)))) w = (Ok tt, w1)
             /\ (n <= 5)%nat
             /\ (n = 0%nat <-> os_path_exists dir (fs w) = false)
             /\ (forall k, (k + 1 < n)%nat -> rmtree_raises k dir (fs w) <> None)
             /\ (forall k, (k + 1 = n)%nat -> rmtree_raises k dir (fs w) <> None -> n = 5%nat)
             /\ slept w1 = slept w ++ repeat (1 # 10)%Q (n - 1)
             /\ fs w1 = rmtree_times n dir (fs w)
             /\ events w1
                = events w
                  ++ map (fun k => attempt_signal dir (Z.of_nat k)
                                     (rmtree_raises k dir (fs w))) (seq 0 n)).
  { destruct (os_path_exists dir (fs w)) eqn:Ex; cbn [when].
    - destruct (removal_attempts_exact 5 0 w eq_refl ltac:(lia) ltac:(lia))
        as (m & Hm & Hok & Hfs & Hev & Hsl & Hbefore & Hlast).
      fold dir in Hfs, Hev, Hsl, Hbefore, Hlast.
      change (Z.to_nat max_attempts) with 5%nat. unfold try_except.
      destruct (removal_attempts host self 5 0 w) as [r w1] eqn:Er. cbn [fst snd] in *.
      subst r. exists m, w1. split; [reflexivity|]. split; [lia|]. split.
      { split; [lia|discriminate]. }
      split; [exact Hbefore|]. split.
      { intros k Hk Hr. apply Hlast. now replace (m - 1)%nat with k by lia. }
      split; [exact Hsl|]. split; [exact Hfs|exact Hev].
    - exists 0%nat, w. cbn [rmtree_times seq map repeat Nat.sub]. rewrite !app_nil_r.
      split; [reflexivity|]. split; [lia|]. split; [split; auto|].
      split; [intros k Hk; lia|]. split; [intros k Hk; lia|]. auto. }
  destruct H1 as (n & w1 & Hw & Hn & H0 & Hbefore & Hlast & Hsl & Hfs & Hev).
  assert (Hc : w' = snd (when (os_path_exists icon (fs w1))
                           (try_except any_Exception
                              (bind (call (shutil_rmtree icon))
                                 (fun _ => emit (Message (MsgIconTempCleaned icon))))
                              (fun e => emit (Message (MsgIconTempProblem icon e)))) w1)).
  { subst w'. unfold _cleanup_temp_files. rewrite bind_ask. fold dir icon.
    unfold bind at 1. rewrite Hw. now rewrite bind_ask. }
  exists n. cbv zeta. rewrite Hc, Hfs.
  split; [exact Hn|]. split; [exact H0|]. split; [exact Hbefore|]. split; [exact Hlast|].
  destruct (os_path_exists icon (rmtree_times n dir (fs w))) eqn:Ei; cbn [when].
  - unfold try_except, bind, call, emit. rewrite Hfs.
    destruct (shutil_rmtree icon (rmtree_times n dir (fs w))) as [t [e|]] eqn:E;
      cbn [any_Exception fst snd fs events slept set_fs icon_signal];
      rewrite Hev, <- app_assoc; auto.
  - cbn [ret snd]. rewrite app_nil_r. auto.
Qed.

End Cleaner.

Lemma run_guarded_returns host self w : fst (run_guarded host self w) = Ok tt.
Proof.
  unfold run_guarded, try_except.
  destruct (install host self w) as [[[]|e] w1]; reflexivity.
Qed.

Lemma completions_app l l' : completions (l ++ l') = completions l ++ completions l'.
Proof. unfold completions. apply flat_map_app. Qed.

Lemma completions_of_attempts l :
  Forall (fun e => is_staging_attempt e = true \/ is_icon_attempt e = true) l ->
  completions l = [].
Proof.
  induction 1 as [|e l He Hl IH]; [reflexivity|].
  change (completions (e :: l))
    with (match e with Finished b => [b] | _ => [] end ++ completions l).
  rewrite IH. destruct e as [v|m|b]; try reflexivity.
  destruct He; discriminate.
Qed.

(** The run is the guarded body followed by the cleaner, and returns. *)
Lemma run_unfold host self w :
  run host self w
  = (Ok tt, snd (_cleanup_temp_files host self (snd (run_guarded host self w)))).
Proof.
  pose proof (run_guarded_returns host self w) as Hg.
  destruct (cleanup_spec host self (snd (run_guarded host self w)))
    as (staging & icons & w2 & Hc & _).
  unfold run, try_finally. destruct (run_guarded host self w) as [g w1].
  cbn [fst snd] in *. subst g. now rewrite Hc.
Qed.

(** C4, as the code has it.  On every path of [run] the cleaner runs last,
    on the state the guarded body leaves, and the run returns normally; the
    completion signals are those of the guarded body.  When the staging
    directory exists the cleaner calls [shutil.rmtree] on it up to five
    times, each time on what the call before left, and stops at the first
    call that returns; after each call that is followed by another it
    sleeps a tenth of a second.  It then calls [shutil.rmtree] once on the
    icon-preview directory, if that exists.  Every call is reported by its
    message, in order.  After the run the staging directory is there only
    if all five calls raised, and the icon-preview directory only if its
    one call raised. *)
Theorem C4_workspace_cleaner :
  forall (host : Host) (self : InstallerThread) (w : world),
    let g := snd (run_guarded host self w) in
    let r := run host self w in
    let dir := temp_extract_dir host self in
    let icon := temp_icon_display_dir host self in
    fst r = Ok tt
    /\ completions (events (snd r)) = completions (events g)
    /\ exists n : nat,
         let t1 := rmtree_times n dir (fs g) in
         (n <= 5)%nat
         /\ (n = 0%nat <-> os_path_exists dir (fs g) = false)
         /\ (forall k, (k + 1 < n)%nat -> rmtree_raises k dir (fs g) <> None)
         /\ (forall k, (k + 1 = n)%nat -> rmtree_raises k dir (fs g) <> None -> n = 5%nat)
         /\ slept (snd r) = slept g ++ repeat (1 # 10)%Q (n - 1)
         /\ fs (snd r) = (if os_path_exists icon t1 then fst (shutil_rmtree icon t1) else t1)
         /\ events (snd r)
            = events g
              ++ map (fun k => attempt_signal dir (Z.of_nat k) (rmtree_raises k dir (fs g)))
                     (seq 0 n)
              ++ (if os_path_exists icon t1
                  then [icon_signal icon (snd (shutil_rmtree icon t1))] else [])
         /\ (os_path_exists dir (fs (snd r)) = true ->
             n = 5%nat /\ forall k, (k < 5)%nat -> rmtree_raises k dir (fs g) <> None)
         /\ (os_path_exists icon (fs (snd r)) = true ->
             os_path_exists icon t1 = true /\ snd (shutil_rmtree icon t1) <> None).
Proof.
  intros host self w g r dir icon. subst r. rewrite run_unfold. fold g. cbn [fst snd].
  split; [reflexivity|]. split.
  { destruct (cleanup_spec host self g)
      as (staging & icons & w2 & Hc & Hev & Hs & _ & Hi & _).
    rewrite Hc. cbn [snd].
    rewrite Hev, completions_app, (completions_of_attempts (staging ++ icons)).
    - apply app_nil_r.
    - apply Forall_app. split; eapply Forall_impl; eauto; cbn; auto. }
  destruct (cleanup_exact host self g)
    as (n & Hn & H0 & Hbefore & Hlast & Hsl & Hfs & Hev).
  fold dir icon in H0, Hbefore, Hlast, Hsl, Hfs, Hev.
  exists n. cbv zeta.
  set (t1 := rmtree_times n dir (fs g)) in *.
  assert (Hkept : forall path,
             os_path_exists path (fs (snd (_cleanup_temp_files host self g))) = true ->
             os_path_exists path t1 = true).
  { intros path. rewrite Hfs. destruct (os_path_exists icon t1); [|auto].
    apply rmtree_creates_nothing. }
  repeat (split; [assumption|]). split.
  - intros Hx. apply Hkept in Hx.
    destruct n as [|n'].
    + apply proj1 in H0. specialize (H0 eq_refl). subst t1. cbn [rmtree_times] in Hx.
      congruence.
    + assert (Hr : rmtree_raises n' dir (fs g) <> None).
      { intros Hr. unfold rmtree_raises in Hr. subst t1. rewrite rmtree_times_succ in Hx.
        destruct (shutil_rmtree dir (rmtree_times n' dir (fs g))) as [t' o] eqn:E.
        cbn [snd] in Hr. subst o. cbn [fst] in Hx.
        apply rmtree_removes in E. congruence. }
      assert (H5 : S n' = 5%nat) by (apply (Hlast n'); [lia|exact Hr]).
      split; [exact H5|]. intros k Hk.
      destruct (Nat.eq_dec k n') as [->|Hne]; [exact Hr|]. apply Hbefore. lia.
  - intros Hx. rewrite Hfs in Hx.
    destruct (os_path_exists icon t1) eqn:Ei; [|congruence].
    split; [reflexivity|]. intros Hr.
    destruct (shutil_rmtree icon t1) as [t' o] eqn:E. cbn [fst snd] in *. subst o.
    apply rmtree_removes in E. congruence.
Qed.

(** C4 as stated fails on a staging directory that cannot be removed: a
    stale one with a read-only sub-directory makes the run fail, the five
    attempts of the cleaner fail as well, and the directory is still there
    after the run. *)
Lemma C4_counterexample_staging_directory_remains :
  os_path_exists (temp_extract_dir host_u self_B)
                 (fs (snd (run host_u self_B world_stale))) = true
  /\ events (snd (run host_u self_B world_stale))
     = [Message (MsgTempSpot "/home/u/.foo_installer_temp_extract");
        Message (MsgBlewUp PermissionError);
        Finished false;
        Message (MsgTempRetry "/home/u/.foo_installer_temp_extract" 1 PermissionError);
        Message (MsgTempRetry "/home/u/.foo_installer_temp_extract" 2 PermissionError);
        Message (MsgTempRetry "/home/u/.foo_installer_temp_extract" 3 PermissionError);
        Message (MsgTempRetry "/home/u/.foo_installer_temp_extract" 4 PermissionError);
        Message (MsgTempFatal "/home/u/.foo_installer_temp_extract" PermissionError)].
Proof. vm_compute. split; reflexivity. Qed.

(** On that staging directory the cleaner sleeps four times: after each of
    the first four attempts, and not after the fifth. *)
Example cleaner_sleeps_between_attempts :
  slept (snd (run host_u self_B world_stale)) = [1 # 10; 1 # 10; 1 # 10; 1 # 10]%Q
  /\ slept (snd (run host_u self_A world_A)) = [].
Proof. vm_compute. split; reflexivity. Qed.

(* ================================================================== *)
(** ** One mapping rule *)

Lemma os_remove_raises_OSError path t t' e :
  os_remove path t = (t', Some e) -> is_OSError e = true.
Proof.
  apply alter_OSError. intros pw [[| |]|] new e0; cbn; try (now intros [= _ <-]);
    destruct pw; try discriminate; now intros [= _ <-].
Qed.

Section Rule.
Variable host : Host.
Variable self : InstallerThread.

Lemma remove_destination_raises_OSError dst w w1 e :
  remove_destination dst w = (Raise e, w1) -> is_OSError e = true.
Proof.
  unfold remove_destination. rewrite bind_ask. unfold call.
  destruct (os_path_isdir dst (fs w)).
  - destruct (shutil_rmtree dst (fs w)) as [t [e0|]] eqn:E; [|discriminate].
    intros [= <- _]. eapply rmtree_raises_OSError; eauto.
  - destruct (os_remove dst (fs w)) as [t [e0|]] eqn:E; [|discriminate].
    intros [= <- _]. eapply os_remove_raises_OSError; eauto.
Qed.

(** Lines 208-217 never raise: a removal that fails is reported and the
    rule goes on. *)
Lemma clear_destination_spec dst w :
  let w0 := emitted (Message (MsgClearingOld dst)) w in
  clear_destination dst w
  = match remove_destination dst w0 with
    | (Ok _, w1) => (Ok tt, w1)
    | (Raise e, w1) => (Ok tt, emitted (Message (MsgCouldntWipe dst e)) w1)
    end.
Proof.
  intros w0. unfold clear_destination. rewrite bind_emit. fold (emitted (Message (MsgClearingOld dst)) w).
  fold w0. unfold try_except.
  destruct (remove_destination dst w0) as [[[]|e] w1] eqn:E; [reflexivity|].
  now rewrite (remove_destination_raises_OSError _ _ _ _ E).
Qed.

(** Lines 222-255 never raise: a copy or a permission pass that fails is
    reported and the rule is left. *)
Lemma copy_into_place_spec name src dst w :
  copy_into_place host name src dst w
  = match copy_and_normalize host src dst w with
    | (Ok _, w1) => (Ok tt, w1)
    | (Raise e, w1) => (Ok tt, emitted (Message (MsgCopyFail name dst e)) w1)
    end.
Proof.
  unfold copy_into_place, try_except.
  destruct (copy_and_normalize host src dst w) as [[[]|e] w1]; reflexivity.
Qed.

Lemma process_mapping_incomplete i n rule w :
  missing (source_root rule) || missing (destination_root rule) = true ->
  process_mapping host self i n rule w = (Ok tt, emitted (Message (MsgIncompleteMap rule)) w).
Proof. intros H. unfold process_mapping. now rewrite H. Qed.

Lemma process_mapping_complete i n rule w :
  missing (source_root rule) || missing (destination_root rule) = false ->
  let src := join (temp_extract_dir host self) (text (source_root rule)) in
  let dst := replace "$HOME" (home_dir host) (text (destination_root rule)) in
  process_mapping host self i n rule w
  = if os_path_exists src (fs w) then
      let w1 := if os_path_exists dst (fs w) then snd (clear_destination dst w) else w in
      let target := if os_path_isfile src (fs w1) then dirname dst else dst in
      match os_makedirs (dmode host) target true (fs w1) with
      | (t, Some e) => (Raise e, set_fs t w1)
      | (t, None) =>
          (Ok tt,
           emitted (Progress (mapping_progress i n))
             (snd (copy_into_place host (text (source_root rule)) src dst (set_fs t w1))))
      end
    else (Ok tt, emitted (Progress (mapping_progress i n)) w).
Proof.
  intros H src dst. unfold process_mapping. rewrite H. fold src dst.
  rewrite bind_ask.
  destruct (os_path_exists src (fs w)) eqn:Es; cbn [when]; [|reflexivity].
  rewrite bind_assoc, bind_ask, bind_assoc.
  assert (Hc : exists w1,
             when (os_path_exists dst (fs w)) (clear_destination dst) w = (Ok tt, w1)
             /\ w1 = if os_path_exists dst (fs w) then snd (clear_destination dst w) else w).
  { destruct (os_path_exists dst (fs w)); cbn [when];
      [|eexists; split; reflexivity].
    rewrite clear_destination_spec.
    destruct (remove_destination dst _) as [[[]|e] w1]; eexists; split; reflexivity. }
  destruct Hc as (w1 & Hw & Hw1). rewrite <- Hw1.
  unfold bind at 1. rewrite Hw. rewrite bind_assoc, bind_ask.
  set (target := if os_path_isfile src (fs w1) then dirname dst else dst).
  destruct (os_makedirs (dmode host) target true (fs w1)) as [t [e|]] eqn:Em.
  - rewrite bind_assoc. now rewrite (bind_call_raise _ _ _ _ _ Em).
  - rewrite bind_assoc. rewrite (bind_call_ok _ _ _ _ Em).
    unfold bind. rewrite copy_into_place_spec.
    destruct (copy_and_normalize host src dst (set_fs t w1)) as [[[]|e] w2]; reflexivity.
Qed.

End Rule.

(* ================================================================== *)
(** ** Bounds of the progress values *)

Section ProgressBounds.
Import Binary64.
Local Open Scope Q_scope.

Lemma rne_bounds y : (Qfloor y <= rne y <= Qfloor y + 1)%Z.
Proof.
  unfold rne. destruct (Qcompare _ _); [destruct (Z.even _)| |]; lia.
Qed.

Lemma rne_nonneg y : 0 <= y -> (0 <= rne y)%Z.
Proof.
  intros H. pose proof (rne_bounds y) as Hb. pose proof (Qfloor_resp_le _ _ H) as H0.
  change (Qfloor 0) with 0%Z in H0. lia.
Qed.

Lemma rne_le y N : y <= inject_Z N -> (rne y <= N)%Z.
Proof.
  intros H. unfold rne.
  assert (Hf : (Qfloor y <= N)%Z).
  { pose proof (Qfloor_resp_le _ _ H) as H0. now rewrite Qfloor_Z in H0. }
  assert (Hup : inject_Z (Qfloor y) < y -> (Qfloor y + 1 <= N)%Z).
  { intros Hlt. assert (Hlt' : inject_Z (Qfloor y) < inject_Z N) by (eapply Qlt_le_trans; eauto).
    rewrite <- Zlt_Qlt in Hlt'. lia. }
  destruct (Qcompare_spec (y - inject_Z (Qfloor y)) (1 # 2)) as [He|Hl|Hg].
  - destruct (Z.even (Qfloor y)); [exact Hf|]. apply Hup. lra.
  - exact Hf.
  - apply Hup. lra.
Qed.

Lemma two_pos k : 0 < 2 ^ k.
Proof. apply Qpower_0_lt. reflexivity. Qed.

Lemma two_nz : ~ 2 == 0.
Proof. discriminate. Qed.

Lemma ilog2_lower x : 0 < x -> 2 ^ ilog2 x <= x.
Proof.
  intros Hx. unfold ilog2.
  set (n := Qnum x). set (d := Zpos (Qden x)).
  set (a := Z.log2 n). set (b := Z.log2 d).
  destruct (Qle_bool (2 ^ (a - b)) x) eqn:E; [now apply Qle_bool_iff|].
  assert (Hn : (0 < n)%Z).
  { destruct x as [xn xd]. unfold Qlt in Hx. cbn in *. subst n. cbn. lia. }
  assert (Hd : (0 < d)%Z) by (subst d; lia).
  destruct (Z.log2_spec n Hn) as [Ha _]. destruct (Z.log2_spec d Hd) as [_ Hb].
  fold a in Ha. fold b in Hb.
  assert (Ha0 : (0 <= a)%Z) by apply Z.log2_nonneg.
  assert (Hb0 : (0 <= b)%Z) by apply Z.log2_nonneg.
  replace (a - b - 1)%Z with (a - (b + 1))%Z by ring.
  rewrite Qpower_minus by exact two_nz.
  assert (Hx' : x == inject_Z n / inject_Z d).
  { destruct x as [xn xd]. subst n d. cbn [Qnum Qden]. apply Qmake_Qdiv. }
  apply Qle_shift_div_r; [apply two_pos|].
  assert (Hqa : 2 ^ a <= inject_Z n).
  { change 2 with (inject_Z 2). rewrite <- Zpower_Qpower by exact Ha0.
    rewrite <- Zle_Qle. exact Ha. }
  assert (Hqb : inject_Z d <= 2 ^ (b + 1)).
  { change 2 with (inject_Z 2). rewrite <- Zpower_Qpower by lia.
    rewrite <- Zle_Qle. change (Z.succ b) with (b + 1)%Z in Hb. lia. }
  assert (Hdq : 0 < inject_Z d) by (rewrite Zlt_Qlt in Hd; exact Hd).
  eapply Qle_trans; [exact Hqa|].
  assert (Hn' : inject_Z n == x * inject_Z d).
  { rewrite Hx'. field. intros H0. rewrite H0 in Hdq. discriminate. }
  rewrite Hn'. apply Qmult_le_l; [exact Hx|exact Hqb].
Qed.

Lemma round_nonneg x : 0 <= round x.
Proof.
  unfold round. destruct (Qle_bool x 0) eqn:E; [apply Qle_refl|].
  assert (Hx : 0 < x).
  { apply Qnot_le_lt. intros H. apply Qle_bool_iff in H. congruence. }
  apply Qmult_le_0_compat; [|apply Qlt_le_weak, two_pos].
  change 0 with (inject_Z 0). rewrite <- Zle_Qle. apply rne_nonneg.
  apply Qle_shift_div_l; [apply two_pos|]. rewrite Qmult_0_l. now apply Qlt_le_weak.
Qed.

(** Rounding does not step over a double: [M * 2^k] with 53 significant
    bits. *)
Lemma round_le x M k :
  (2 ^ 52 <= M < 2 ^ 53)%Z ->
  x <= inject_Z M * 2 ^ k ->
  round x <= inject_Z M * 2 ^ k.
Proof.
  intros HM Hx. unfold round. destruct (Qle_bool x 0) eqn:E.
  - apply Qmult_le_0_compat; [|apply Qlt_le_weak, two_pos].
    change 0 with (inject_Z 0). rewrite <- Zle_Qle. lia.
  - assert (Hx0 : 0 < x).
    { apply Qnot_le_lt. intros H. apply Qle_bool_iff in H. congruence. }
    set (e := (ilog2 x - 52)%Z).
    assert (He : (e <= k)%Z).
    { assert (Hlow : 2 ^ (e + 52) <= x).
      { replace (e + 52)%Z with (ilog2 x) by (subst e; ring). now apply ilog2_lower. }
      assert (Hup : inject_Z M * 2 ^ k < 2 ^ (k + 53)).
      { rewrite Qpower_plus by exact two_nz. rewrite (Qmult_comm (2 ^ k)).
        apply Qmult_lt_compat_r; [apply two_pos|].
        change (2 ^ 53) with (inject_Z (2 ^ 53)). rewrite <- Zlt_Qlt. lia. }
      assert (Hlt : 2 ^ (e + 52) < 2 ^ (k + 53)).
      { eapply Qle_lt_trans; [exact Hlow|]. eapply Qle_lt_trans; [exact Hx|exact Hup]. }
      apply Qpower_lt_compat_l_inv in Hlt; [lia|reflexivity]. }
    assert (Hscaled : x / 2 ^ e <= inject_Z (M * 2 ^ (k - e))).
    { apply Qle_shift_div_r; [apply two_pos|].
      rewrite inject_Z_mult, Zpower_Qpower by lia. change (inject_Z 2) with 2.
      rewrite <- Qmult_assoc, <- Qpower_plus by exact two_nz.
      replace (k - e + e)%Z with k by ring. exact Hx. }
    apply rne_le in Hscaled.
    assert (Heq : inject_Z M * 2 ^ k == inject_Z (M * 2 ^ (k - e)) * 2 ^ e).
    { rewrite inject_Z_mult, Zpower_Qpower by lia. change (inject_Z 2) with 2.
      rewrite <- Qmult_assoc, <- Qpower_plus by exact two_nz.
      now replace (k - e + e)%Z with k by ring. }
    rewrite Heq. apply Qmult_le_compat_r; [|apply Qlt_le_weak, two_pos].
    rewrite <- Zle_Qle. exact Hscaled.
Qed.

Lemma round_le_int x N M k :
  inject_Z N == inject_Z M * 2 ^ k ->
  (2 ^ 52 <= M < 2 ^ 53)%Z ->
  x <= inject_Z N ->
  round x <= inject_Z N.
Proof.
  intros Heq HM Hx. rewrite Heq in Hx |- *. now apply round_le.
Qed.

Lemma true_div_bounds a b : (0 < a <= b)%Z -> 0 <= true_div a b <= 1.
Proof.
  intros H. split; [apply round_nonneg|].
  unfold true_div.
  apply (round_le_int _ 1 (2 ^ 52) (-52)); [reflexivity|lia|].
  apply Qle_shift_div_r.
  - change 0 with (inject_Z 0). rewrite <- Zlt_Qlt. lia.
  - rewrite Qmult_1_l. rewrite <- Zle_Qle. lia.
Qed.

Lemma mul_int_50_bounds q : 0 <= q <= 1 -> 0 <= mul_int q 50 <= 50.
Proof.
  intros [H0 H1]. split; [apply round_nonneg|].
  unfold mul_int.
  apply (round_le_int _ 50 (50 * 2 ^ 47) (-47)); [reflexivity|lia|].
  change (inject_Z 50) with 50. lra.
Qed.

Lemma int_add_50_bounds p : 0 <= p <= 50 -> 0 <= int_add 50 p <= 100.
Proof.
  intros [H0 H1]. split; [apply round_nonneg|].
  unfold int_add.
  apply (round_le_int _ 100 (100 * 2 ^ 46) (-46)); [reflexivity|lia|].
  change (inject_Z 50) with 50. change (inject_Z 100) with 100. lra.
Qed.

Lemma trunc_bounds x N : 0 <= x <= inject_Z N -> (0 <= trunc x <= N)%Z.
Proof.
  intros [H0 H1]. unfold trunc. split.
  - apply Qfloor_resp_le in H0. exact H0.
  - apply Qfloor_resp_le in H1. now rewrite Qfloor_Z in H1.
Qed.

Lemma extraction_progress_bounds i total :
  (0 <= i < total)%Z -> (0 <= extraction_progress i total <= 50)%Z.
Proof.
  intros H. unfold extraction_progress. apply trunc_bounds.
  apply mul_int_50_bounds, true_div_bounds. lia.
Qed.

Lemma mapping_progress_bounds i total :
  (0 <= i < total)%Z -> (0 <= mapping_progress i total <= 100)%Z.
Proof.
  intros H. unfold mapping_progress. apply trunc_bounds.
  apply int_add_50_bounds, mul_int_50_bounds, true_div_bounds. lia.
Qed.

Lemma rne_ge y N : inject_Z N <= y -> (N <= rne y)%Z.
Proof.
  intros H. pose proof (rne_bounds y) as Hb.
  apply Qfloor_resp_le in H. rewrite Qfloor_Z in H. lia.
Qed.

Lemma rne_monotone y1 y2 : y1 <= y2 -> (rne y1 <= rne y2)%Z.
Proof.
  intros H. pose proof (Qfloor_resp_le _ _ H) as Hf.
  pose proof (rne_bounds y1) as H1. pose proof (rne_bounds y2) as H2.
  destruct (Z.eq_dec (Qfloor y1) (Qfloor y2)) as [Heq|Hne]; [|lia].
  unfold rne in *. rewrite <- Heq in *.
  destruct (Qcompare_spec (y1 - inject_Z (Qfloor y1)) (1 # 2)) as [E1|L1|G1];
    destruct (Qcompare_spec (y2 - inject_Z (Qfloor y1)) (1 # 2)) as [E2|L2|G2];
    try destruct (Z.even (Qfloor y1)); try lia; exfalso; lra.
Qed.

Lemma ilog2_upper x : 0 < x -> x < 2 ^ (ilog2 x + 1).
Proof.
  intros Hx. unfold ilog2.
  set (n := Qnum x). set (d := Zpos (Qden x)).
  set (a := Z.log2 n). set (b := Z.log2 d).
  destruct (Qle_bool (2 ^ (a - b)) x) eqn:E.
  2:{ replace (a - b - 1 + 1)%Z with (a - b)%Z by ring.
      apply Qnot_le_lt. intros H. apply Qle_bool_iff in H. congruence. }
  assert (Hn : (0 < n)%Z).
  { destruct x as [xn xd]. unfold Qlt in Hx. cbn in *. subst n. cbn. lia. }
  assert (Hd : (0 < d)%Z) by (subst d; lia).
  destruct (Z.log2_spec n Hn) as [_ Ha]. destruct (Z.log2_spec d Hd) as [Hb _].
  fold a in Ha. fold b in Hb.
  assert (Ha0 : (0 <= a)%Z) by apply Z.log2_nonneg.
  assert (Hb0 : (0 <= b)%Z) by apply Z.log2_nonneg.
  replace (a - b + 1)%Z with (a + 1 - b)%Z by ring.
  rewrite Qpower_minus by exact two_nz.
  assert (Hx' : x == inject_Z n / inject_Z d).
  { destruct x as [xn xd]. subst n d. cbn [Qnum Qden]. apply Qmake_Qdiv. }
  assert (Hqa : inject_Z n < 2 ^ (a + 1)).
  { change 2 with (inject_Z 2). rewrite <- Zpower_Qpower by lia.
    rewrite <- Zlt_Qlt. change (Z.succ a) with (a + 1)%Z in Ha. exact Ha. }
  assert (Hqb : 2 ^ b <= inject_Z d).
  { change 2 with (inject_Z 2). rewrite <- Zpower_Qpower by lia.
    rewrite <- Zle_Qle. exact Hb. }
  assert (Hdq : 0 < inject_Z d) by (rewrite Zlt_Qlt in Hd; exact Hd).
  apply Qlt_shift_div_l; [apply two_pos|].
  assert (Hn' : inject_Z n == x * inject_Z d).
  { rewrite Hx'. field. intros H0. rewrite H0 in Hdq. discriminate. }
  eapply Qle_lt_trans; [|exact Hqa]. rewrite Hn'.
  apply Qmult_le_l; [exact Hx|exact Hqb].
Qed.

Lemma round_pos x : 0 < x -> round x = inject_Z (rne (x / 2 ^ (ilog2 x - 52))) * 2 ^ (ilog2 x - 52).
Proof.
  intros Hx. unfold round. destruct (Qle_bool x 0) eqn:E; [|reflexivity].
  apply Qle_bool_iff in E. exfalso. apply (Qlt_irrefl 0). eapply Qlt_le_trans; eauto.
Qed.

Lemma scaled_lower x : 0 < x -> inject_Z (2 ^ 52) <= x / 2 ^ (ilog2 x - 52).
Proof.
  intros Hx. apply Qle_shift_div_l; [apply two_pos|].
  rewrite Zpower_Qpower by lia. change (inject_Z 2) with 2.
  rewrite <- Qpower_plus by exact two_nz.
  replace (52 + (ilog2 x - 52))%Z with (ilog2 x) by ring. now apply ilog2_lower.
Qed.

Lemma scaled_upper x : 0 < x -> x / 2 ^ (ilog2 x - 52) <= inject_Z (2 ^ 53).
Proof.
  intros Hx. apply Qle_shift_div_r; [apply two_pos|].
  rewrite Zpower_Qpower by lia. change (inject_Z 2) with 2.
  rewrite <- Qpower_plus by exact two_nz.
  replace (53 + (ilog2 x - 52))%Z with (ilog2 x + 1)%Z by ring.
  apply Qlt_le_weak. now apply ilog2_upper.
Qed.

Lemma ilog2_monotone x y : 0 < x -> x <= y -> (ilog2 x <= ilog2 y)%Z.
Proof.
  intros Hx Hxy. assert (Hy : 0 < y) by (eapply Qlt_le_trans; eauto).
  pose proof (ilog2_lower x Hx) as H1. pose proof (ilog2_upper y Hy) as H2.
  assert (H : 2 ^ ilog2 x < 2 ^ (ilog2 y + 1)).
  { eapply Qle_lt_trans; [exact H1|]. eapply Qle_lt_trans; [exact Hxy|exact H2]. }
  apply Qpower_lt_compat_l_inv in H; [lia|reflexivity].
Qed.

(** Rounding is monotone. *)
Lemma round_monotone x y : x <= y -> round x <= round y.
Proof.
  intros Hxy. destruct (Qlt_le_dec 0 x) as [Hx|Hx].
  2:{ unfold round at 1. apply Qle_bool_iff in Hx. rewrite Hx. apply round_nonneg. }
  assert (Hy : 0 < y) by (eapply Qlt_le_trans; eauto).
  rewrite (round_pos x Hx), (round_pos y Hy).
  pose proof (ilog2_monotone x y Hx Hxy) as Hl.
  destruct (Z.eq_dec (ilog2 x) (ilog2 y)) as [Heq|Hne].
  - rewrite Heq. apply Qmult_le_compat_r; [|apply Qlt_le_weak, two_pos].
    rewrite <- Zle_Qle. apply rne_monotone.
    apply Qmult_le_compat_r; [exact Hxy|].
    apply Qlt_le_weak, Qinv_lt_0_compat, two_pos.
  - pose proof (rne_le _ _ (scaled_upper x Hx)) as Hux.
    pose proof (rne_ge _ _ (scaled_lower y Hy)) as Hly.
    apply Qle_trans with (inject_Z (2 ^ 53) * 2 ^ (ilog2 x - 52)).
    { apply Qmult_le_compat_r; [|apply Qlt_le_weak, two_pos]. now rewrite <- Zle_Qle. }
    apply Qle_trans with (inject_Z (2 ^ 52) * 2 ^ (ilog2 y - 52)).
    2:{ apply Qmult_le_compat_r; [|apply Qlt_le_weak, two_pos]. now rewrite <- Zle_Qle. }
    rewrite !Zpower_Qpower by lia. change (inject_Z 2) with 2.
    rewrite <- !Qpower_plus by exact two_nz.
    apply Qpower_le_compat_l; [lia|discriminate].
Qed.

(** Rounding does not step under a double either. *)
Lemma round_ge x M k :
  (2 ^ 52 <= M < 2 ^ 53)%Z ->
  inject_Z M * 2 ^ k <= x ->
  inject_Z M * 2 ^ k <= round x.
Proof.
  intros HM Hx.
  assert (HY : 0 < inject_Z M * 2 ^ k).
  { apply Qmult_lt_0_compat; [|apply two_pos].
    change 0 with (inject_Z 0). rewrite <- Zlt_Qlt. lia. }
  assert (Hx0 : 0 < x) by (eapply Qlt_le_trans; eauto).
  rewrite (round_pos x Hx0). set (e := (ilog2 x - 52)%Z).
  assert (He : (k <= e)%Z).
  { assert (Hlow : 2 ^ (k + 52) <= inject_Z M * 2 ^ k).
    { rewrite Qpower_plus by exact two_nz. rewrite (Qmult_comm (2 ^ k)).
      apply Qmult_le_compat_r; [|apply Qlt_le_weak, two_pos].
      change (2 ^ 52) with (inject_Z (2 ^ 52)). rewrite <- Zle_Qle. lia. }
    assert (Hup : x < 2 ^ (e + 53)).
    { replace (e + 53)%Z with (ilog2 x + 1)%Z by (subst e; ring). now apply ilog2_upper. }
    assert (Hlt : 2 ^ (k + 52) < 2 ^ (e + 53)).
    { eapply Qle_lt_trans; [exact Hlow|]. eapply Qle_lt_trans; [exact Hx|exact Hup]. }
    apply Qpower_lt_compat_l_inv in Hlt; [lia|reflexivity]. }
  destruct (Z.eq_dec k e) as [->|Hne].
  - apply Qmult_le_compat_r; [|apply Qlt_le_weak, two_pos].
    rewrite <- Zle_Qle. apply rne_ge.
    apply Qle_shift_div_l; [apply two_pos|exact Hx].
  - pose proof (rne_ge _ _ (scaled_lower x Hx0)) as Hl. fold e in Hl.
    apply Qle_trans with (inject_Z (2 ^ 52) * 2 ^ e).
    2:{ apply Qmult_le_compat_r; [|apply Qlt_le_weak, two_pos]. now rewrite <- Zle_Qle. }
    apply Qle_trans with (inject_Z (2 ^ 53) * 2 ^ k).
    { apply Qmult_le_compat_r; [|apply Qlt_le_weak, two_pos]. rewrite <- Zle_Qle. lia. }
    rewrite !Zpower_Qpower by lia. change (inject_Z 2) with 2.
    rewrite <- !Qpower_plus by exact two_nz.
    apply Qpower_le_compat_l; [lia|discriminate].
Qed.

Lemma round_exact x N M k :
  inject_Z N == inject_Z M * 2 ^ k ->
  (2 ^ 52 <= M < 2 ^ 53)%Z ->
  x == inject_Z N ->
  round x == inject_Z N.
Proof.
  intros Heq HM Hx. apply Qle_antisym.
  - apply (round_le_int x N M k Heq HM). rewrite Hx. apply Qle_refl.
  - rewrite Heq. apply round_ge; [exact HM|]. rewrite <- Heq, Hx. apply Qle_refl.
Qed.

Lemma true_div_same n : (0 < n)%Z -> true_div n n == 1.
Proof.
  intros Hn. unfold true_div.
  apply (round_exact _ 1 (2 ^ 52) (-52)); [reflexivity|lia|].
  change (inject_Z 1) with 1. field.
  intros H. rewrite Zlt_Qlt in Hn. rewrite H in Hn. discriminate.
Qed.

Lemma extraction_progress_last n : (0 < n)%Z -> extraction_progress (n - 1) n = 50%Z.
Proof.
  intros Hn. unfold extraction_progress, trunc, mul_int.
  replace (n - 1 + 1)%Z with n by ring.
  assert (H : round (true_div n n * inject_Z 50) == inject_Z 50).
  { apply (round_exact _ 50 (50 * 2 ^ 47) (-47)); [reflexivity|lia|].
    rewrite (true_div_same n Hn). ring. }
  rewrite H. apply Qfloor_Z.
Qed.

Lemma mapping_progress_last n : (0 < n)%Z -> mapping_progress (n - 1) n = 100%Z.
Proof.
  intros Hn. unfold mapping_progress, trunc, int_add, mul_int.
  replace (n - 1 + 1)%Z with n by ring.
  assert (H : round (true_div n n * inject_Z 50) == inject_Z 50).
  { apply (round_exact _ 50 (50 * 2 ^ 47) (-47)); [reflexivity|lia|].
    rewrite (true_div_same n Hn). ring. }
  assert (H' : round (inject_Z 50 + round (true_div n n * inject_Z 50)) == inject_Z 100).
  { apply (round_exact _ 100 (100 * 2 ^ 46) (-46)); [reflexivity|lia|].
    rewrite H. reflexivity. }
  rewrite H'. apply Qfloor_Z.
Qed.

Lemma true_div_monotone a b n : (0 < n)%Z -> (a <= b)%Z -> true_div a n <= true_div b n.
Proof.
  intros Hn Hab. unfold true_div. apply round_monotone.
  apply Qmult_le_compat_r.
  - now rewrite <- Zle_Qle.
  - apply Qlt_le_weak, Qinv_lt_0_compat.
    change 0 with (inject_Z 0). now rewrite <- Zlt_Qlt.
Qed.

Lemma extraction_progress_monotone i j n :
  (0 < n)%Z -> (i <= j)%Z -> (extraction_progress i n <= extraction_progress j n)%Z.
Proof.
  intros Hn Hij. unfold extraction_progress, trunc, mul_int.
  apply Qfloor_resp_le, round_monotone.
  apply Qmult_le_compat_r; [apply true_div_monotone; lia|discriminate].
Qed.

Lemma mapping_progress_monotone i j n :
  (0 < n)%Z -> (i <= j)%Z -> (mapping_progress i n <= mapping_progress j n)%Z.
Proof.
  intros Hn Hij. unfold mapping_progress, trunc, int_add, mul_int.
  apply Qfloor_resp_le, round_monotone.
  apply Qplus_le_r. apply round_monotone.
  apply Qmult_le_compat_r; [apply true_div_monotone; lia|discriminate].
Qed.

Lemma mapping_progress_lower i n : (50 <= mapping_progress i n)%Z.
Proof.
  unfold mapping_progress, trunc, int_add.
  assert (H : inject_Z 50 <= round (inject_Z 50 + mul_int (true_div (i + 1) n) 50)).
  { assert (H50 : inject_Z 50 == inject_Z (50 * 2 ^ 47) * 2 ^ (-47)) by reflexivity.
    rewrite H50 at 1. apply round_ge; [lia|]. rewrite <- H50.
    pose proof (round_nonneg (true_div (i + 1) n * inject_Z 50)) as Hp.
    unfold mul_int. lra. }
  apply Qfloor_resp_le in H. now rewrite Qfloor_Z in H.
Qed.

End ProgressBounds.

(* ================================================================== *)
(** ** The signals of a run *)

Section Emits.
Context {A : Type} (Q : event -> Prop).

Lemma emits_silent (m : M A) :
  (forall w, events (snd (m w)) = events w) -> emits Q m.
Proof. intros H w. exists []. rewrite app_nil_r. auto. Qed.

Lemma emits_ret (a : A) : emits Q (ret a).
Proof. now apply emits_silent. Qed.

Lemma emits_raise e : emits Q (@raise A e).
Proof. now apply emits_silent. Qed.

Lemma emits_ask (q : node -> A) : emits Q (ask q).
Proof. now apply emits_silent. Qed.

Lemma emits_bind {B} (m : M B) (k : B -> M A) :
  emits Q m -> (forall b, emits Q (k b)) -> emits Q (bind m k).
Proof.
  intros Hm Hk w. unfold bind. destruct (Hm w) as (l & Hl & HQ).
  destruct (m w) as [[b|e] w1]; cbn [snd] in *.
  - destruct (Hk b w1) as (l' & Hl' & HQ'). exists (l ++ l').
    rewrite Hl', Hl, app_assoc. split; [reflexivity|]. now apply Forall_app.
  - exists l. auto.
Qed.

Lemma emits_try_except catches (m : M A) (h : exn -> M A) :
  emits Q m -> (forall e, emits Q (h e)) -> emits Q (try_except catches m h).
Proof.
  intros Hm Hh w. unfold try_except. destruct (Hm w) as (l & Hl & HQ).
  destruct (m w) as [[a|e] w1]; cbn [snd] in *.
  - exists l. auto.
  - destruct (catches e); [|exists l; auto].
    destruct (Hh e w1) as (l' & Hl' & HQ'). exists (l ++ l').
    rewrite Hl', Hl, app_assoc. split; [reflexivity|]. now apply Forall_app.
Qed.

Lemma emits_weaken (Q' : event -> Prop) (m : M A) :
  (forall e, Q' e -> Q e) -> emits Q' m -> emits Q m.
Proof.
  intros HQ Hm w. destruct (Hm w) as (l & Hl & Hf). exists l. split; [exact Hl|].
  eapply Forall_impl; eauto.
Qed.

End Emits.

Section EmitsUnit.
Variable Q : event -> Prop.

Lemma emits_emit e : Q e -> emits Q (emit e).
Proof. intros H w. exists [e]. split; [reflexivity|]. auto. Qed.

Lemma emits_call op : emits Q (call op).
Proof.
  apply emits_silent. intros w. unfold call. now destruct (op (fs w)) as [t [e|]].
Qed.

Lemma emits_when b (m : M unit) : emits Q m -> emits Q (when b m).
Proof. intros H. destruct b; [exact H|apply emits_ret]. Qed.

Lemma emits_emit_all l : Forall Q l -> emits Q (emit_all l).
Proof. intros H w. exists l. rewrite emit_all_spec. auto. Qed.

Lemma emits_get_executable_name : emits Q get_executable_name.
Proof. now apply emits_silent. Qed.

Lemma emits_get_icon_path_in_zip : emits Q get_icon_path_in_zip.
Proof. now apply emits_silent. Qed.

Lemma emits_set_executable_name s : emits Q (set_executable_name s).
Proof. now apply emits_silent. Qed.

Lemma emits_set_icon_path_in_zip s : emits Q (set_icon_path_in_zip s).
Proof. now apply emits_silent. Qed.

End EmitsUnit.

Lemma Forall_messages ms : Forall is_message (map Message ms).
Proof. induction ms; constructor; cbn; auto. Qed.

Ltac emits_step :=
  match goal with
  | |- emits _ (bind _ _) => apply emits_bind; [|intros ?]
  | |- emits _ (ret _) => apply emits_ret
  | |- emits _ (raise _) => apply emits_raise
  | |- emits _ (ask _) => apply emits_ask
  | |- emits _ (call _) => apply emits_call
  | |- emits _ (emit _) => apply emits_emit; cbn; auto
  | |- emits _ (when _ _) => apply emits_when
  | |- emits _ (try_except _ _ _) => apply emits_try_except; [|intros ?]
  | |- emits _ get_executable_name => apply emits_get_executable_name
  | |- emits _ get_icon_path_in_zip => apply emits_get_icon_path_in_zip
  | |- emits _ (set_executable_name _) => apply emits_set_executable_name
  | |- emits _ (set_icon_path_in_zip _) => apply emits_set_icon_path_in_zip
  | |- emits _ (emit_all (map Message _)) => apply emits_emit_all, Forall_messages
  | |- emits _ (if ?b then _ else _) => destruct b
  | |- emits _ (match ?x with _ => _ end) => destruct x
  end.

Ltac emits_auto := repeat emits_step.

Section EngineSignals.
Variable host : Host.
Variable self : InstallerThread.

Lemma normalize_permissions_messages dst : emits is_message (normalize_permissions dst).
Proof. unfold normalize_permissions. emits_auto. Qed.

Lemma clear_destination_messages dst : emits is_message (clear_destination dst).
Proof. unfold clear_destination, remove_destination. emits_auto. Qed.

Lemma copy_into_place_messages name src dst :
  emits is_message (copy_into_place host name src dst).
Proof.
  unfold copy_into_place, copy_and_normalize. emits_auto.
  all: apply normalize_permissions_messages.
Qed.

Lemma fallback_install_messages : emits is_message (fallback_install host self).
Proof. unfold fallback_install. emits_auto. Qed.

Lemma create_desktop_entry_messages : emits is_message (_create_desktop_entry host self).
Proof. unfold _create_desktop_entry. emits_auto. Qed.

Lemma update_desktop_icon_cache_messages : emits is_message (_update_desktop_icon_cache host).
Proof. unfold _update_desktop_icon_cache. emits_auto. Qed.

End EngineSignals.

Lemma is_message_before_completion e : is_message e -> before_completion e.
Proof. destruct e; cbn; tauto. Qed.

Section RunSignals.
Variable host : Host.
Variable self : InstallerThread.

Lemma process_mapping_signals i n rule :
  0 <= i < n -> emits before_completion (process_mapping host self i n rule).
Proof.
  intros Hi. unfold process_mapping.
  destruct (missing (source_root rule) || missing (destination_root rule)).
  - apply emits_emit. exact I.
  - apply emits_bind; [apply emits_ask|intros src_exists].
    apply emits_bind.
    + apply emits_when. apply emits_bind; [apply emits_ask|intros dst_exists].
      apply emits_bind.
      * apply emits_when.
        eapply emits_weaken; [exact is_message_before_completion|].
        apply clear_destination_messages.
      * intros _. apply emits_bind; [apply emits_ask|intros src_isfile].
        apply emits_bind; [apply emits_call|intros _].
        eapply emits_weaken; [exact is_message_before_completion|].
        apply copy_into_place_messages.
    + intros _. apply emits_emit. now apply mapping_progress_bounds.
Qed.

Lemma mapping_loop_signals n maps :
  forall i, 0 <= i -> i + Z.of_nat (List.length maps) = n ->
  emits before_completion (mapping_loop host self i n maps).
Proof.
  induction maps as [|rule r IH]; intros i Hi Hn; cbn [mapping_loop].
  - apply emits_ret.
  - cbn [List.length] in Hn. apply emits_bind.
    + apply process_mapping_signals. lia.
    + intros _. apply IH; lia.
Qed.

Lemma extract_loop_signals n files :
  forall i, 0 <= i -> i + Z.of_nat (List.length files) = n ->
  emits before_completion (extract_loop host self i n files).
Proof.
  induction files as [|f r IH]; intros i Hi Hn; cbn [extract_loop].
  - apply emits_ret.
  - cbn [List.length] in Hn. apply emits_bind; [apply emits_call|intros _].
    apply emits_bind.
    + apply emits_emit. cbn. pose proof (extraction_progress_bounds i n). lia.
    + intros _. apply IH; lia.
Qed.

Lemma open_zip_silent : emits before_completion (open_zip self).
Proof.
  apply emits_silent. intros w. unfold open_zip.
  destruct (lookup (components (zip_path self)) (fs w)) as [[mo [b|z]| |]|]; try reflexivity.
  now destruct (central_directory_ok z).
Qed.

Lemma stage_archive_signals : emits before_completion (stage_archive host self).
Proof.
  unfold stage_archive.
  apply emits_bind; [apply emits_emit; exact I|intros _].
  apply emits_bind; [apply emits_ask|intros stale].
  apply emits_bind; [apply emits_when, emits_call|intros _].
  apply emits_bind; [apply emits_call|intros _].
  apply emits_bind; [apply open_zip_silent|intros zip_ref].
  apply extract_loop_signals; lia.
Qed.

Lemma install_files_signals : emits before_completion (install_files host self).
Proof.
  unfold install_files. destruct (Z.of_nat (List.length (install_map self)) =? 0).
  - eapply emits_weaken; [exact is_message_before_completion|].
    apply fallback_install_messages.
  - apply mapping_loop_signals; lia.
Qed.

Lemma install_steps_signals : emits before_completion (install_steps host self).
Proof.
  unfold install_steps.
  apply emits_bind; [apply stage_archive_signals|intros _].
  apply emits_bind; [apply install_files_signals|intros _].
  apply emits_bind; intros;
    (eapply emits_weaken; [exact is_message_before_completion|]).
  - apply create_desktop_entry_messages.
  - apply update_desktop_icon_cache_messages.
Qed.

(** The guarded body: signals of the two ordinary kinds, then the one
    completion signal. *)
Lemma run_guarded_signals w :
  exists pre b,
    events (snd (run_guarded host self w)) = events w ++ pre ++ [Finished b]
    /\ Forall before_completion pre.
Proof.
  unfold run_guarded, try_except, install. rewrite bind_ask.
  destruct (os_path_exists (zip_path self) (fs w) && is_zipfile (zip_path self) (fs w));
    cbn [negb].
  - unfold bind at 1. destruct (install_steps_signals w) as (l & Hl & HQ).
    destruct (install_steps host self w) as [[[]|e] w1]; cbn [snd] in Hl.
    + exists (l ++ [Message MsgDone]), true. cbn. rewrite Hl, <- !app_assoc.
      split; [reflexivity|]. apply Forall_app. split; [exact HQ|]. repeat constructor.
    + exists (l ++ [Message (MsgBlewUp e)]), false. cbn. rewrite Hl, <- !app_assoc.
      split; [reflexivity|]. apply Forall_app. split; [exact HQ|]. repeat constructor.
  - exists [Message MsgInvalidZip], false. cbn. rewrite <- app_assoc.
    split; [reflexivity|]. repeat constructor.
Qed.

End RunSignals.

Lemma attempts_from_cleaner staging icons :
  Forall (fun e => is_staging_attempt e = true) staging ->
  Forall (fun e => is_icon_attempt e = true) icons ->
  Forall from_cleaner (staging ++ icons).
Proof.
  intros Hs Hi. apply Forall_app.
  split; (eapply Forall_impl; [|eassumption]);
    intros [v|[]|b]; cbn; auto; discriminate.
Qed.

(** C9, as the code has it.  The signals of a run are progress values
    between 0 and 100 and messages, then exactly one completion signal,
    then the messages of the workspace cleaner, which runs in the [finally]
    clause after the completion signal has been emitted: every progress
    value precedes the completion signal, and only cleaner messages follow
    it. *)
Theorem C9_signals_of_a_run :
  forall (host : Host) (self : InstallerThread) (w : world),
  exists pre b post,
    events (snd (run host self w)) = events w ++ pre ++ [Finished b] ++ post
    /\ Forall before_completion pre
    /\ Forall from_cleaner post
    /\ completions (pre ++ [Finished b] ++ post) = [b]
    /\ progress_values post = [].
Proof.
  intros host self w.
  rewrite run_unfold.
  destruct (cleanup_spec host self (snd (run_guarded host self w)))
    as (staging & icons & w2 & Hc & Hev & Hs & _ & Hi & _).
  rewrite Hc. cbn [snd].
  destruct (run_guarded_signals host self w) as (pre & b & Hg & Hpre).
  exists pre, b, (staging ++ icons).
  pose proof (attempts_from_cleaner _ _ Hs Hi) as Hpost.
  split; [|split; [exact Hpre|split; [exact Hpost|split]]].
  - rewrite Hev, Hg. now rewrite <- !app_assoc.
  - rewrite (completions_app pre), (completions_app [Finished b]).
    assert (H1 : completions pre = []).
    { clear Hg. induction Hpre as [|e l He Hl IH]; [reflexivity|].
      change (completions (e :: l))
        with (match e with Finished b => [b] | _ => [] end ++ completions l).
      rewrite IH. now destruct e. }
    assert (H2 : completions (staging ++ icons) = []).
    { apply completions_of_attempts. apply Forall_app.
      split; eapply Forall_impl; eauto; cbn; auto. }
    now rewrite H1, H2.
  - clear Hev. induction Hpost as [|e l He Hl IH]; [reflexivity|].
    change (progress_values (e :: l))
      with (match e with Progress v => [v] | _ => [] end ++ progress_values l).
    rewrite IH. now destruct e.
Qed.

(** C9 as stated fails on every run that reaches the staging step: in
    scenario A the last signal is the cleaner's message, not the
    completion signal. *)
Lemma C9_counterexample_completion_is_not_last :
  last (events (snd (run host_u self_A world_A))) (Progress 0)
  = Message (MsgTempCleaned "/home/u/.foo_installer_temp_extract")
  /\ ~ exists b, last (events (snd (run host_u self_A world_A))) (Progress 0) = Finished b.
Proof.
  assert (H : last (events (snd (run host_u self_A world_A))) (Progress 0)
              = Message (MsgTempCleaned "/home/u/.foo_installer_temp_extract"))
    by (vm_compute; reflexivity).
  split; [exact H|]. intros [b Hb]. rewrite H in Hb. discriminate.
Qed.

(* ================================================================== *)
(** ** Recoverable failures of a rule *)

(** A rule with both fields that returns has emitted messages and then its
    progress value. *)
Lemma process_mapping_returns host self i n rule w :
  missing (source_root rule) || missing (destination_root rule) = false ->
  fst (process_mapping host self i n rule w) = Ok tt ->
  exists l,
    events (snd (process_mapping host self i n rule w))
    = events w ++ l ++ [Progress (mapping_progress i n)]
    /\ Forall is_message l.
Proof.
  intros Hc Hok.
  pose proof (process_mapping_complete host self i n rule w Hc) as Heq.
  cbv zeta in Heq. rewrite Heq in Hok |- *.
  set (src := join (temp_extract_dir host self) (text (source_root rule))) in *.
  set (dst := replace "$HOME" (home_dir host) (text (destination_root rule))) in *.
  destruct (os_path_exists src (fs w)).
  2:{ exists []. cbn. split; [reflexivity|constructor]. }
  set (w1 := if os_path_exists dst (fs w) then snd (clear_destination dst w) else w) in *.
  assert (H1 : exists l1, events w1 = events w ++ l1 /\ Forall is_message l1).
  { subst w1. destruct (os_path_exists dst (fs w)).
    - apply clear_destination_messages.
    - exists []. rewrite app_nil_r. auto. }
  destruct H1 as (l1 & Hl1 & HQ1).
  destruct (os_makedirs (dmode host) _ true (fs w1)) as [t [e|]]; [discriminate|].
  destruct (copy_into_place_messages host (text (source_root rule)) src dst (set_fs t w1))
    as (l2 & Hl2 & HQ2).
  exists (l1 ++ l2). cbn [snd emitted events]. rewrite Hl2. cbn [set_fs events].
  rewrite Hl1, <- !app_assoc. split; [reflexivity|]. now apply Forall_app.
Qed.

(** The permission pass never raises: it changes the modes of nodes that
    are there. *)
Lemma normalize_permissions_returns dst w :
  fst (normalize_permissions dst w) = Ok tt.
Proof.
  unfold normalize_permissions. rewrite bind_ask. unfold os_path_isdir at 1.
  destruct (lookup (components dst) (fs w)) as [[mo d|m es|tg]|] eqn:Ed.
  - rewrite bind_ask. unfold os_path_isfile at 1. rewrite Ed. cbn [when].
    rewrite bind_ask. unfold os_path_islink. rewrite Ed. cbn [negb when].
    rewrite bind_get_executable_name, bind_ask.
    destruct (recognised _ _ _ _); cbn [when]; [|reflexivity].
    rewrite bind_ask. unfold st_mode. rewrite Ed.
    destruct (lacks_user_execute mo); cbn [when]; [|reflexivity].
    destruct (alter_replace (chmod_edit (with_execute_bits mo)) (File mo d)
                (File (with_execute_bits mo) d) None (fun _ => eq_refl) _ _ Ed)
      as [t' [Ha Hq]].
    unfold os_chmod. now rewrite (bind_call_ok _ _ _ _ Ha).
  - rewrite bind_get_executable_name, bind_ask. rewrite Ed.
    destruct (walk_chmod (executable_name w) dst (Dir m es)) as [t' ms] eqn:Ew.
    destruct (alter_replace (put_edit t' None) (Dir m es) t' None (fun _ => eq_refl) _ _ Ed)
      as [t'' [Ha Hq]].
    rewrite (bind_call_ok _ _ _ _ Ha). now rewrite emit_all_spec.
  - rewrite bind_ask. unfold os_path_isfile. now rewrite Ed.
  - rewrite bind_ask. unfold os_path_isfile. now rewrite Ed.
Qed.

Section RuleCalls.
Variable host : Host.
Variable self : InstallerThread.

(** Lines 208-217, by the call they make. *)
Lemma clear_destination_exact dst w :
  let removal :=
    if os_path_isdir dst (fs w) then shutil_rmtree dst (fs w) else os_remove dst (fs w) in
  clear_destination dst w
  = (Ok tt,
     mkWorld (fst removal)
       (events w
        ++ Message (MsgClearingOld dst)
           :: match snd removal with
              | Some e => [Message (MsgCouldntWipe dst e)]
              | None => []
              end)
       (executable_name w) (icon_path_in_zip w) (slept w)).
Proof.
  intros removal. rewrite clear_destination_spec. cbv zeta.
  unfold remove_destination. rewrite bind_ask. subst removal.
  unfold call.
  change (fs (emitted (Message (MsgClearingOld dst)) w)) with (fs w).
  destruct (os_path_isdir dst (fs w)); cbv beta;
    change (fs (emitted (Message (MsgClearingOld dst)) w)) with (fs w).
  - destruct (shutil_rmtree dst (fs w)) as [t [e|]]; unfold emitted, set_fs;
      cbn [fst snd fs events executable_name icon_path_in_zip slept];
      rewrite <- ?app_assoc; reflexivity.
  - destruct (os_remove dst (fs w)) as [t [e|]]; unfold emitted, set_fs;
      cbn [fst snd fs events executable_name icon_path_in_zip slept];
      rewrite <- ?app_assoc; reflexivity.
Qed.

(** Lines 222-255, by the call they make. *)
Lemma copy_into_place_exact name src dst w :
  let copied :=
    if os_path_isdir src (fs w)
    then shutil_copytree (dmode host) src dst (fs w)
    else shutil_copy2 src dst (fs w) in
  copy_into_place host name src dst w
  = (Ok tt,
     match snd copied with
     | Some e => emitted (Message (MsgCopyFail name dst e)) (set_fs (fst copied) w)
     | None => snd (normalize_permissions dst (set_fs (fst copied) w))
     end).
Proof.
  intros copied. rewrite copy_into_place_spec.
  unfold copy_and_normalize. rewrite bind_ask. subst copied.
  assert (H : forall op,
             (bind (call op) (fun _ => normalize_permissions dst)) w
             = match snd (op (fs w)) with
               | Some e => (Raise e, set_fs (fst (op (fs w))) w)
               | None => normalize_permissions dst (set_fs (fst (op (fs w))) w)
               end).
  { intros op. unfold bind, call. now destruct (op (fs w)) as [t [e|]]. }
  destruct (os_path_isdir src (fs w)); rewrite H.
  - destruct (snd (shutil_copytree (dmode host) src dst (fs w))); [reflexivity|].
    pose proof (normalize_permissions_returns dst
                  (set_fs (fst (shutil_copytree (dmode host) src dst (fs w))) w)) as Hr.
    destruct (normalize_permissions dst _) as [[[]|e] w2]; [reflexivity|discriminate].
  - destruct (snd (shutil_copy2 src dst (fs w))); [reflexivity|].
    pose proof (normalize_permissions_returns dst
                  (set_fs (fst (shutil_copy2 src dst (fs w))) w)) as Hr.
    destruct (normalize_permissions dst _) as [[[]|e] w2]; [reflexivity|discriminate].
Qed.

End RuleCalls.

(** C5, as the code has it, for a rule with both fields, by the calls of
    lines 204-259, each on the tree the call before left.  A source that
    is missing from the staging directory makes the rule a no-op: it is
    skipped, and its one signal is the progress value.  A removal of the
    old destination that raises is reported by a warning, and the rule goes
    on: [os.makedirs] and the copy are called on the tree the failed
    removal left.  A copy that raises is reported by a message and the rule
    is abandoned: the tree stays as the failed copy left it, no permission
    pass follows, and the progress value is emitted.  A copy that returns
    is followed by the permission pass and the progress value.  The only
    exception that leaves the rule is one of [os.makedirs]; whenever the
    rule returns, the loop goes on with the next rule. *)
Theorem C5_recoverable_rule_failures :
  forall (host : Host) (self : InstallerThread) (i n : Z) (rule : MappingRule) (w : world),
    missing (source_root rule) || missing (destination_root rule) = false ->
    let name := text (source_root rule) in
    let src := join (temp_extract_dir host self) name in
    let dst := replace "$HOME" (home_dir host) (text (destination_root rule)) in
    let progress := Progress (mapping_progress i n) in
    let r := process_mapping host self i n rule w in
    let removal :=
      if os_path_exists dst (fs w)
      then (if os_path_isdir dst (fs w) then shutil_rmtree dst (fs w)
            else os_remove dst (fs w))
      else (fs w, None) in
    let warnings :=
      if os_path_exists dst (fs w)
      then Message (MsgClearingOld dst)
           :: match snd removal with
              | Some e => [Message (MsgCouldntWipe dst e)]
              | None => []
              end
      else [] in
    let made :=
      os_makedirs (dmode host)
        (if os_path_isfile src (fst removal) then dirname dst else dst) true (fst removal) in
    let copied :=
      if os_path_isdir src (fst made)
      then shutil_copytree (dmode host) src dst (fst made)
      else shutil_copy2 src dst (fst made) in
    let after (t : node) (l : list event) :=
      mkWorld t (events w ++ l) (executable_name w) (icon_path_in_zip w) (slept w) in
    (os_path_exists src (fs w) = false -> r = (Ok tt, emitted progress w))
    /\ (os_path_exists src (fs w) = true ->
        (forall e, snd made = Some e -> r = (Raise e, after (fst made) warnings))
        /\ (snd made = None ->
            (forall e,
               snd copied = Some e ->
               r = (Ok tt,
                    after (fst copied)
                      (warnings ++ [Message (MsgCopyFail name dst e); progress])))
            /\ (snd copied = None ->
                r = (Ok tt,
                     emitted progress
                       (snd (normalize_permissions dst (after (fst copied) warnings)))))))
    /\ (forall e,
          fst r = Raise e -> os_path_exists src (fs w) = true /\ snd made = Some e)
    /\ (fst r = Ok tt ->
        forall rest,
          mapping_loop host self i n (rule :: rest) w
          = mapping_loop host self (i + 1) n rest (snd r)).
Proof.
  intros host self i n rule w Hc name src dst progress r removal warnings made copied after.
  pose proof (process_mapping_complete host self i n rule w Hc) as Heq.
  cbv zeta in Heq. fold name src dst r in Heq.
  assert (Hw1 : (if os_path_exists dst (fs w) then snd (clear_destination dst w) else w)
                = after (fst removal) warnings).
  { subst removal warnings after. cbv beta.
    destruct (os_path_exists dst (fs w)).
    - rewrite clear_destination_exact. reflexivity.
    - cbn [fst]. rewrite app_nil_r. now destruct w. }
  rewrite Hw1 in Heq.
  change (fs (after (fst removal) warnings)) with (fst removal) in Heq. fold made in Heq.
  assert (Hcases :
    os_path_exists src (fs w) = true ->
    r = match snd made with
        | Some e => (Raise e, after (fst made) warnings)
        | None =>
            (Ok tt,
             match snd copied with
             | Some e =>
                 after (fst copied) (warnings ++ [Message (MsgCopyFail name dst e); progress])
             | None =>
                 emitted progress
                   (snd (normalize_permissions dst (after (fst copied) warnings)))
             end)
        end).
  { intros Hs. rewrite Heq, Hs. subst copied. clearbody made.
    destruct made as [t [e|]]; cbn [fst snd]; [reflexivity|].
    rewrite copy_into_place_exact.
    change (fs (set_fs t (after (fst removal) warnings))) with t.
    change (set_fs ?x (set_fs t (after (fst removal) warnings))) with (after x warnings).
    cbn [snd].
    match goal with
    | |- context [match snd ?c with _ => _ end] => destruct (snd c)
    end; [|reflexivity].
    subst after. unfold emitted.
    cbn [fs events executable_name icon_path_in_zip slept].
    now rewrite <- !app_assoc. }
  split; [|split; [|split]].
  - intros Hs. rewrite Heq, Hs. reflexivity.
  - intros Hs. specialize (Hcases Hs). split.
    + intros e He. now rewrite He in Hcases.
    + intros Hm. rewrite Hm in Hcases. split.
      * intros e He. now rewrite He in Hcases.
      * intros He. now rewrite He in Hcases.
  - intros e He.
    destruct (os_path_exists src (fs w)) eqn:Hs.
    + specialize (Hcases eq_refl). rewrite Hcases in He.
      destruct (snd made) as [e'|]; [|discriminate].
      cbn in He. injection He as <-. auto.
    + rewrite Heq in He. discriminate.
  - intros Hok rest. cbn [mapping_loop]. unfold bind. fold r.
    destruct r as [[[]|e] w1]; [reflexivity|discriminate].
Qed.

Lemma C5_recoverable_rule_failures_witness :
  (* a missing source *)
  (missing (Some "missing") || missing (Some "$HOME/.local/foo") = false
   /\ process_mapping host_u self_D 0 1 (mkRule (Some "missing") (Some "$HOME/.local/foo"))
        world_staged
      = (Ok tt, emitted (Progress (mapping_progress 0 1)) world_staged))
  (* a destination that cannot be removed *)
  /\ (let w := snd (stage_archive host_u self_locked world_locked) in
      let r := process_mapping host_u self_locked 0 1
                 (mkRule (Some "pkg/run.sh") (Some "$HOME/bin")) w in
      fst r = Ok tt
      /\ new_events w (snd r)
         = [Message (MsgClearingOld "/home/u/bin");
            Message (MsgCouldntWipe "/home/u/bin" PermissionError);
            Message (MsgGivingExec "/home/u/bin/run.sh");
            Message (MsgGivingExec "/home/u/bin/locked/data");
            Progress 100])
  (* a copy that fails *)
  /\ (let w := snd (stage_archive host_u self_B world_B) in
      let r := process_mapping host_u self_B 0 1
                 (mkRule (Some "pkg") (Some "$HOME/.local/foo")) w in
      fst r = Ok tt
      /\ new_events w (snd r)
         = [Message (MsgClearingOld "/home/u/.local/foo");
            Message (MsgCopyFail "pkg" "/home/u/.local/foo" FileExistsError);
            Progress 100]).
Proof.
  split; [|split].
  - split; [reflexivity|].
    apply (C5_recoverable_rule_failures host_u self_D 0 1
             (mkRule (Some "missing") (Some "$HOME/.local/foo")) world_staged eq_refl).
    vm_compute. reflexivity.
  - cbv zeta.
    pose proof (C5_recoverable_rule_failures host_u self_locked 0 1
                  (mkRule (Some "pkg/run.sh") (Some "$HOME/bin"))
                  (snd (stage_archive host_u self_locked world_locked)) eq_refl) as H.
    cbv zeta in H. destruct H as (_ & H & _).
    destruct (H ltac:(vm_compute; reflexivity)) as (_ & H1).
    destruct (H1 ltac:(vm_compute; reflexivity)) as (_ & H2).
    rewrite (H2 ltac:(vm_compute; reflexivity)).
    split; vm_compute; reflexivity.
  - cbv zeta.
    pose proof (C5_recoverable_rule_failures host_u self_B 0 1
                  (mkRule (Some "pkg") (Some "$HOME/.local/foo"))
                  (snd (stage_archive host_u self_B world_B)) eq_refl) as H.
    cbv zeta in H. destruct H as (_ & H & _).
    destruct (H ltac:(vm_compute; reflexivity)) as (_ & H1).
    destruct (H1 ltac:(vm_compute; reflexivity)) as (H2 & _).
    rewrite (H2 FileExistsError ltac:(vm_compute; reflexivity)).
    split; vm_compute; reflexivity.
Defined.

(** C5 as stated fails on scenario D: for the rule whose source is absent
    from the staging directory the run emits the progress value and no
    message at all, and ends with success.  It also fails on a destination
    that cannot be removed: after the warning the rule is neither skipped
    nor abandoned, the file is copied into the old directory and the
    permission pass walks all of it. *)
Lemma C5_counterexample_missing_source_is_not_logged :
  let rule := mkRule (Some "missing") (Some "$HOME/.local/foo") in
  os_path_exists (join (temp_extract_dir host_u self_D) "missing") (fs world_staged) = false
  /\ new_events world_staged (snd (process_mapping host_u self_D 0 1 rule world_staged))
     = [Progress 100]
  /\ messages (new_events world_staged
                 (snd (process_mapping host_u self_D 0 1 rule world_staged))) = []
  /\ messages (events (snd (run host_u self_D world_B)))
     = [MsgTempSpot "/home/u/.foo_installer_temp_extract";
        MsgExecutableMissing ".local/foo/bin/tool" "/home/u/local/foo/bin/tool";
        MsgIconMissing ".local/foo/icon.png" "/home/u/local/foo/icon.png";
        MsgDesktopEntry "/home/u/.local/share/applications/foo.desktop";
        MsgCacheRefreshing; MsgNoCacheTool; MsgDone;
        MsgTempCleaned "/home/u/.foo_installer_temp_extract"]
  /\ completions (events (snd (run host_u self_D world_B))) = [true]
  /\ messages (events (snd (run host_u self_locked world_locked)))
     = [MsgTempSpot "/home/u/.foo_installer_temp_extract";
        MsgClearingOld "/home/u/bin";
        MsgCouldntWipe "/home/u/bin" PermissionError;
        MsgGivingExec "/home/u/bin/run.sh";
        MsgGivingExec "/home/u/bin/locked/data";
        MsgIconMissing "" "/home/u/";
        MsgDesktopEntry "/home/u/.local/share/applications/foo.desktop";
        MsgCacheRefreshing; MsgNoCacheTool; MsgDone;
        MsgTempCleaned "/home/u/.foo_installer_temp_extract"]
  /\ lookup (components "/home/u/bin/run.sh") (fs (snd (run host_u self_locked world_locked)))
     = Some (File rwxr_xr_x (Bytes "#!/bin/sh")).
Proof. vm_compute. repeat split. Qed.

(* ================================================================== *)
(** ** Resolution of the home-relative paths *)

Lemma prefix_char c a t : String.prefix (String c "") (String a t) = Ascii.eqb c a.
Proof.
  cbn [String.prefix]. destruct (ascii_dec c a) as [->|H].
  - rewrite Ascii.eqb_refl. now destruct t.
  - symmetry. now apply Ascii.eqb_neq.
Qed.

Lemma contains_dot_slash a : contains a "./" = Ascii.eqb "." a || Ascii.eqb "/" a.
Proof. cbn [contains]. now rewrite orb_false_r. Qed.

Lemma lstrip_no_leading_slash s : startswith "/" (lstrip "./" s) = false.
Proof.
  induction s as [|a t IH]; [reflexivity|].
  cbn [lstrip]. rewrite contains_dot_slash.
  destruct (Ascii.eqb "." a) eqn:E1; [exact IH|].
  destruct (Ascii.eqb "/" a) eqn:E2; [exact IH|].
  cbn [orb]. unfold startswith. now rewrite prefix_char.
Qed.

Lemma prefix_app a b : String.prefix a (a ++ b)%string = true.
Proof.
  induction a as [|c a IH]; [now destruct b|].
  cbn [String.append String.prefix].
  destruct (ascii_dec c c); [exact IH|contradiction].
Qed.

(** Whatever the name, the resolved path starts with the home directory. *)
Lemma resolve_under_home host name :
  String.prefix (home_dir host) (resolve host name) = true.
Proof.
  unfold resolve, join. rewrite lstrip_no_leading_slash.
  destruct (falsy (home_dir host) || endswith "/" (home_dir host)); apply prefix_app.
Qed.

(** A name that starts with neither a dot nor a slash is resolved as
    [os.path.join(home, name)]. *)
Lemma resolve_plain host name :
  startswith "." name = false -> startswith "/" name = false ->
  resolve host name = join (home_dir host) name.
Proof.
  intros Hd Hs. unfold resolve. f_equal.
  destruct name as [|a t]; [reflexivity|].
  unfold startswith in Hd, Hs. rewrite prefix_char in Hd, Hs.
  cbn [lstrip]. now rewrite contains_dot_slash, Hd, Hs.
Qed.

(* ================================================================== *)
(** ** The progress values of the mapping phase *)

Lemma progress_values_app l l' :
  progress_values (l ++ l') = progress_values l ++ progress_values l'.
Proof. unfold progress_values. apply flat_map_app. Qed.

Lemma progress_values_messages l : Forall is_message l -> progress_values l = [].
Proof.
  induction 1 as [|e l He Hl IH]; [reflexivity|].
  change (progress_values (e :: l))
    with (match e with Progress v => [v] | _ => [] end ++ progress_values l).
  rewrite IH. destruct e; try reflexivity. destruct He.
Qed.

(** One turn of the loop adds the value of its rule when the rule has both
    fields, and nothing when it has not. *)
Lemma process_mapping_progress host self i n rule w :
  fst (process_mapping host self i n rule w) = Ok tt ->
  progress_values (events (snd (process_mapping host self i n rule w)))
  = progress_values (events w) ++ (if complete rule then [mapping_progress i n] else []).
Proof.
  intros Hok. unfold complete.
  destruct (missing (source_root rule) || missing (destination_root rule)) eqn:Hc; cbn [negb].
  - rewrite (process_mapping_incomplete host self i n rule w Hc). cbn [snd emitted events].
    now rewrite progress_values_app.
  - destruct (process_mapping_returns host self i n rule w Hc Hok) as (l & Hl & HQ).
    rewrite Hl, !progress_values_app, (progress_values_messages l HQ). reflexivity.
Qed.

Lemma mapping_loop_progress host self n maps :
  forall i w,
    fst (mapping_loop host self i n maps w) = Ok tt ->
    progress_values (events (snd (mapping_loop host self i n maps w)))
    = progress_values (events w) ++ progress_of_rules i n maps.
Proof.
  induction maps as [|rule r IH]; intros i w Hok.
  - cbn. now rewrite app_nil_r.
  - cbn [mapping_loop progress_of_rules] in *. unfold bind in *.
    pose proof (process_mapping_progress host self i n rule w) as Hp.
    destruct (process_mapping host self i n rule w) as [[[]|e] w1]; [|discriminate].
    cbn [fst snd] in Hp. rewrite (IH _ _ Hok), (Hp eq_refl). now rewrite <- app_assoc.
Qed.

Lemma progress_of_rules_lower n maps :
  0 < n -> forall i j, j <= i ->
  Forall (fun v => mapping_progress j n <= v) (progress_of_rules i n maps).
Proof.
  intros Hn. induction maps as [|rule r IH]; intros i j Hij; cbn [progress_of_rules].
  - constructor.
  - apply Forall_app. split.
    + destruct (complete rule); constructor; [|constructor].
      now apply mapping_progress_monotone.
    + apply IH. lia.
Qed.

(** The values of the mapping phase never decrease. *)
Lemma progress_of_rules_sorted n maps :
  0 < n -> forall i, StronglySorted Z.le (progress_of_rules i n maps).
Proof.
  intros Hn. induction maps as [|rule r IH]; intros i; cbn [progress_of_rules].
  - constructor.
  - destruct (complete rule); cbn [app]; [|apply IH].
    constructor; [apply IH|]. apply progress_of_rules_lower; [exact Hn|lia].
Qed.

Lemma progress_of_rules_app n maps maps' :
  forall i,
    progress_of_rules i n (maps ++ maps')
    = progress_of_rules i n maps
      ++ progress_of_rules (i + Z.of_nat (List.length maps)) n maps'.
Proof.
  induction maps as [|rule r IH]; intros i.
  - cbn. now rewrite Z.add_0_r.
  - cbn [app progress_of_rules List.length]. rewrite IH, <- app_assoc.
    do 3 f_equal. lia.
Qed.

Lemma progress_of_complete_rules_length maps :
  forallb complete maps = true ->
  forall i n, List.length (progress_of_rules i n maps) = List.length maps.
Proof.
  induction maps as [|rule r IH]; intros Hc i n; [reflexivity|].
  cbn [forallb] in Hc. apply andb_prop in Hc as [H1 H2].
  cbn [progress_of_rules]. rewrite H1. cbn. now rewrite IH.
Qed.

(** When every rule has both fields there is one value per rule, and the
    last one is 100. *)
Lemma progress_of_complete_rules maps :
  forallb complete maps = true ->
  let n := Z.of_nat (List.length maps) in
  List.length (progress_of_rules 0 n maps) = List.length maps
  /\ (maps <> [] -> last (progress_of_rules 0 n maps) 0 = 100).
Proof.
  intros Hc n. split; [now apply progress_of_complete_rules_length|].
  intros Hne. destruct (exists_last Hne) as (front & rule & ->).
  rewrite forallb_app in Hc. apply andb_prop in Hc as [_ Hc]. cbn in Hc.
  rewrite andb_true_r in Hc.
  rewrite progress_of_rules_app. cbn [progress_of_rules]. rewrite Hc, app_nil_r.
  rewrite last_last. subst n. rewrite length_app. cbn [List.length].
  replace (0 + Z.of_nat (List.length front))
    with (Z.of_nat (List.length front + 1) - 1) by lia.
  apply mapping_progress_last. lia.
Qed.

(* ================================================================== *)
(** ** A directory source *)

Lemma copytree_to_existing_directory dm src dst t m es m' es' :
  falsy dst = false ->
  lookup (components src) t = Some (Dir m es) ->
  lookup (components dst) t = Some (Dir m' es') ->
  shutil_copytree dm src dst t = (t, Some FileExistsError).
Proof.
  intros Hd Hs Ht. unfold shutil_copytree, os_makedirs.
  now rewrite Hs, Hd, (mkdirs_on_directory _ _ _ _ _ Ht).
Qed.

(** Lines 220-255 for a source that is a directory: once
    [os.makedirs(full_destination_path, exist_ok=True)] has returned, the
    copy step leaves the tree as it is and reports [FileExistsError],
    whatever the rule. *)
Lemma copy_into_place_directory host name src dst w t :
  os_makedirs (dmode host) dst true (fs w) = (t, None) ->
  os_path_isdir src t = true ->
  copy_into_place host name src dst (set_fs t w)
  = (Ok tt, emitted (Message (MsgCopyFail name dst FileExistsError)) (set_fs t w)).
Proof.
  intros Hm Hs. unfold os_makedirs in Hm.
  destruct (falsy dst) eqn:Hd; [discriminate|].
  destruct (mkdirs_makes_directory _ _ _ _ Hm) as (m' & es' & Ht).
  unfold os_path_isdir in Hs.
  destruct (lookup (components src) t) as [[| m es |]|] eqn:Hl; try discriminate.
  rewrite copy_into_place_spec. unfold copy_and_normalize.
  rewrite bind_ask. cbn [set_fs fs]. unfold os_path_isdir. rewrite Hl.
  erewrite bind_call_raise
    by (cbn [set_fs fs]; eapply copytree_to_existing_directory; eauto).
  now destruct w.
Qed.

(* ================================================================== *)
(** * Further properties: progress, outcome, tree, window *)

Import Trace Frame Outcome Window IconPreview Places.

(* ================================================================== *)
(** ** The progress values of a whole run *)

Lemma new_events_app w w' l : events w' = events w ++ l -> new_events w w' = l.
Proof.
  intros H. unfold new_events. rewrite H.
  rewrite skipn_app, skipn_all, Nat.sub_diag. reflexivity.
Qed.

Lemma progress_values_quiet l : Forall not_progress l -> progress_values l = [].
Proof.
  induction 1 as [|e l He Hl IH]; [reflexivity|].
  change (progress_values (e :: l))
    with (match e with Progress v => [v] | _ => [] end ++ progress_values l).
  rewrite IH. destruct e; try reflexivity. destruct He.
Qed.

Lemma is_message_not_progress e : is_message e -> not_progress e.
Proof. destruct e; cbn; tauto. Qed.

Lemma StronglySorted_app (l l' : list Z) :
  StronglySorted Z.le l -> StronglySorted Z.le l' ->
  (forall x y, In x l -> In y l' -> x <= y) ->
  StronglySorted Z.le (l ++ l').
Proof.
  induction 1 as [|a l Hl IH Ha]; intros Hl' Hc; [exact Hl'|].
  cbn [app]. constructor.
  - apply IH; [exact Hl'|]. intros x y Hx Hy. apply Hc; [now right|exact Hy].
  - apply Forall_app. split; [exact Ha|].
    apply Forall_forall. intros y Hy. apply Hc; [now left|exact Hy].
Qed.

Section Ranged.
Context {A : Type}.

Lemma ranged_quiet lo hi (m : M A) : emits not_progress m -> ranged lo hi m.
Proof.
  intros H w. destruct (H w) as (l & Hl & HQ). exists l.
  rewrite (progress_values_quiet l HQ). repeat split; auto; constructor.
Qed.

Lemma ranged_messages lo hi (m : M A) : emits is_message m -> ranged lo hi m.
Proof.
  intros H. apply ranged_quiet.
  eapply emits_weaken; [exact is_message_not_progress|exact H].
Qed.

Lemma ranged_weaken lo hi lo' hi' (m : M A) :
  lo' <= lo -> hi <= hi' -> ranged lo hi m -> ranged lo' hi' m.
Proof.
  intros H1 H2 H w. destruct (H w) as (l & Hl & Hs & Hr). exists l.
  repeat split; auto. eapply Forall_impl; [|exact Hr]. cbn. intros; lia.
Qed.

Lemma ranged_bind lo mid hi {B} (m : M B) (k : B -> M A) :
  lo <= mid <= hi ->
  ranged lo mid m -> (forall b, ranged mid hi (k b)) -> ranged lo hi (bind m k).
Proof.
  intros Hmid Hm Hk w. unfold bind. destruct (Hm w) as (l & Hl & Hs & Hr).
  destruct (m w) as [[b|e] w1]; cbn [snd] in *.
  - destruct (Hk b w1) as (l' & Hl' & Hs' & Hr'). exists (l ++ l').
    rewrite Hl', Hl, app_assoc, progress_values_app. split; [reflexivity|]. split.
    + apply StronglySorted_app; auto. intros x y Hx Hy.
      rewrite Forall_forall in Hr, Hr'. specialize (Hr x Hx). specialize (Hr' y Hy). lia.
    + apply Forall_app. split; (eapply Forall_impl; [|eassumption]); cbn; intros; lia.
  - exists l. repeat split; auto. eapply Forall_impl; [|exact Hr]. cbn. intros; lia.
Qed.

Lemma ranged_try_except lo mid hi catches (m : M A) (h : exn -> M A) :
  lo <= mid <= hi ->
  ranged lo mid m -> (forall e, ranged mid hi (h e)) -> ranged lo hi (try_except catches m h).
Proof.
  intros Hmid Hm Hh w. unfold try_except. destruct (Hm w) as (l & Hl & Hs & Hr).
  assert (Hw : Forall (fun v => lo <= v <= hi) (progress_values l)).
  { eapply Forall_impl; [|exact Hr]. cbn. intros; lia. }
  destruct (m w) as [[a|e] w1]; cbn [snd] in *.
  - exists l. auto.
  - destruct (catches e); [|exists l; auto].
    destruct (Hh e w1) as (l' & Hl' & Hs' & Hr'). exists (l ++ l').
    rewrite Hl', Hl, app_assoc, progress_values_app. split; [reflexivity|]. split.
    + apply StronglySorted_app; auto. intros x y Hx Hy.
      rewrite Forall_forall in Hr, Hr'. specialize (Hr x Hx). specialize (Hr' y Hy). lia.
    + apply Forall_app. split; [exact Hw|].
      eapply Forall_impl; [|exact Hr']. cbn. intros; lia.
Qed.

End Ranged.

Lemma ranged_progress v : ranged v v (emit (Progress v)).
Proof.
  intros w. exists [Progress v]. split; [reflexivity|]. cbn. split.
  - repeat constructor.
  - repeat constructor; lia.
Qed.

Lemma progress_values_from_cleaner l : Forall from_cleaner l -> progress_values l = [].
Proof.
  intros H. apply progress_values_quiet.
  eapply Forall_impl; [|exact H]. intros [v|m|b]; cbn; tauto.
Qed.

Section RunProgress.
Variable host : Host.
Variable self : InstallerThread.

Lemma extract_loop_ranged n files :
  forall i, 0 <= i -> i + Z.of_nat (List.length files) = n ->
  ranged (extraction_progress i n) 50 (extract_loop host self i n files).
Proof.
  induction files as [|f r IH]; intros i Hi Hn; cbn [extract_loop].
  - apply ranged_quiet, emits_ret.
  - cbn [List.length] in Hn.
    pose proof (extraction_progress_bounds i n ltac:(lia)) as Hb.
    apply (ranged_bind _ (extraction_progress i n)); [lia| |intros _].
    { apply ranged_quiet, emits_call. }
    apply (ranged_bind _ (extraction_progress i n)); [lia|apply ranged_progress|intros _].
    eapply ranged_weaken; [| |apply IH; lia]; [|lia].
    apply extraction_progress_monotone; lia.
Qed.

Lemma stage_archive_ranged : ranged 0 50 (stage_archive host self).
Proof.
  unfold stage_archive.
  apply (ranged_bind _ 0); [lia|apply ranged_quiet, emits_emit; exact I|intros _].
  apply (ranged_bind _ 0); [lia|apply ranged_quiet, emits_ask|intros stale].
  apply (ranged_bind _ 0); [lia|apply ranged_quiet, emits_when, emits_call|intros _].
  apply (ranged_bind _ 0); [lia|apply ranged_quiet, emits_call|intros _].
  apply (ranged_bind _ 0); [lia| |intros zip_ref].
  { apply ranged_quiet. apply emits_silent. intros w.
    destruct (open_zip_silent self w) as (l & Hl & _).
    unfold open_zip in *.
    destruct (lookup (components (zip_path self)) (fs w)) as [[mo [b|z]| |]|]; try reflexivity.
    now destruct (central_directory_ok z). }
  destruct (infolist zip_ref) as [|f r] eqn:E.
  - cbn. apply ranged_quiet, emits_ret.
  - rewrite <- E. eapply ranged_weaken; [| |apply extract_loop_ranged; lia]; [|lia].
    apply extraction_progress_bounds. rewrite E. cbn [List.length]. lia.
Qed.

Lemma process_mapping_ranged i n rule :
  0 <= i < n ->
  ranged (mapping_progress i n) (mapping_progress i n) (process_mapping host self i n rule).
Proof.
  intros Hi. unfold process_mapping.
  destruct (missing (source_root rule) || missing (destination_root rule)).
  - apply ranged_quiet, emits_emit. exact I.
  - set (v := mapping_progress i n).
    apply (ranged_bind _ v); [lia|apply ranged_quiet, emits_ask|intros src_exists].
    apply (ranged_bind _ v); [lia| |intros _; apply ranged_progress].
    apply ranged_messages, emits_when.
    apply emits_bind; [apply emits_ask|intros dst_exists].
    apply emits_bind; [apply emits_when, clear_destination_messages|intros _].
    apply emits_bind; [apply emits_ask|intros src_isfile].
    apply emits_bind; [apply emits_call|intros _].
    apply copy_into_place_messages.
Qed.

Lemma mapping_loop_ranged n maps :
  forall i, 0 <= i -> i + Z.of_nat (List.length maps) = n ->
  ranged (mapping_progress i n) 100 (mapping_loop host self i n maps).
Proof.
  induction maps as [|rule r IH]; intros i Hi Hn; cbn [mapping_loop].
  - apply ranged_quiet, emits_ret.
  - cbn [List.length] in Hn.
    pose proof (mapping_progress_bounds i n ltac:(lia)) as Hb.
    apply (ranged_bind _ (mapping_progress i n)); [lia| |intros _].
    { apply process_mapping_ranged. lia. }
    eapply ranged_weaken; [| |apply IH; lia]; [|lia].
    apply mapping_progress_monotone; lia.
Qed.

Lemma install_files_ranged : ranged 50 100 (install_files host self).
Proof.
  unfold install_files.
  destruct (Z.of_nat (List.length (install_map self)) =? 0) eqn:E.
  - apply ranged_messages, fallback_install_messages.
  - apply Z.eqb_neq in E.
    eapply ranged_weaken; [| |apply mapping_loop_ranged; lia]; [|lia].
    apply mapping_progress_lower.
Qed.

Lemma install_steps_ranged hi :
  50 <= hi -> ranged 50 hi (install_files host self) -> ranged 0 hi (install_steps host self).
Proof.
  intros Hhi Hf. unfold install_steps.
  apply (ranged_bind _ 50); [lia|apply stage_archive_ranged|intros _].
  apply (ranged_bind _ hi); [lia|exact Hf|intros _].
  apply ranged_messages.
  apply emits_bind; [apply create_desktop_entry_messages|intros _].
  apply update_desktop_icon_cache_messages.
Qed.

Lemma run_guarded_ranged hi :
  50 <= hi -> ranged 50 hi (install_files host self) -> ranged 0 hi (run_guarded host self).
Proof.
  intros Hhi Hf. unfold run_guarded.
  apply (ranged_try_except _ hi); [lia| |intros e].
  - unfold install.
    apply (ranged_bind _ 0); [lia|apply ranged_quiet, emits_ask|intros valid].
    destruct (negb valid).
    + apply ranged_quiet. apply emits_bind; [|intros _]; apply emits_emit; exact I.
    + apply (ranged_bind _ hi); [lia|now apply install_steps_ranged|intros _].
      apply ranged_quiet. apply emits_bind; [|intros _]; apply emits_emit; exact I.
  - apply ranged_quiet. apply emits_bind; [|intros _]; apply emits_emit; exact I.
Qed.

(** The signals of a run, with their progress values in order and in
    range. *)
Lemma run_ranged hi w :
  50 <= hi -> ranged 50 hi (install_files host self) ->
  let values := progress_values (new_events w (snd (run host self w))) in
  StronglySorted Z.le values /\ Forall (fun v => 0 <= v <= hi) values.
Proof.
  intros Hhi Hf values. subst values.
  rewrite run_unfold.
  destruct (cleanup_spec host self (snd (run_guarded host self w)))
    as (staging & icons & w2 & Hc & Hev & Hs & _ & Hi & _).
  rewrite Hc. cbn [snd].
  destruct (run_guarded_ranged hi Hhi Hf w) as (l & Hl & Hsorted & Hrange).
  rewrite (new_events_app w w2 (l ++ staging ++ icons)).
  - rewrite progress_values_app.
    rewrite (progress_values_from_cleaner _ (attempts_from_cleaner _ _ Hs Hi)).
    rewrite app_nil_r. auto.
  - rewrite Hev, Hl. now rewrite <- app_assoc.
Qed.

End RunProgress.

Lemma run_values_in_order host self w :
  let values := progress_values (new_events w (snd (run host self w))) in
  StronglySorted Z.le values /\ Forall (fun v => 0 <= v <= 100) values.
Proof. apply run_ranged; [lia|apply install_files_ranged]. Qed.

(** X1. In every run the progress values come out in non-decreasing
    order, and each of them lies between 0 and 100. *)
Theorem run_progress_never_decreases :
  forall (host : Host) (self : InstallerThread) (w : world),
    let values := progress_values (new_events w (snd (run host self w))) in
    StronglySorted Z.le values /\ Forall (fun v => 0 <= v <= 100) values.
Proof.
  intros host self w. apply run_values_in_order.
Qed.

(** X2. Without an install map the mapping phase emits no progress value:
    every value of the run is one of the extraction phase and none exceeds
    50. *)
Theorem run_without_install_map_stays_below_50 :
  forall (host : Host) (self : InstallerThread) (w : world),
    install_map self = [] ->
    Forall (fun v => 0 <= v <= 50)
           (progress_values (new_events w (snd (run host self w)))).
Proof.
  intros host self w Hmap. apply run_ranged; [lia|].
  unfold install_files. rewrite Hmap. cbn.
  apply ranged_messages, fallback_install_messages.
Qed.

Lemma run_without_install_map_stays_below_50_witness :
  install_map self_A = []
  /\ Forall (fun v => 0 <= v <= 50)
            (progress_values (new_events world_A (snd (run host_u self_A world_A)))).
Proof.
  split; [reflexivity|].
  apply (run_without_install_map_stays_below_50 host_u self_A world_A). reflexivity.
Defined.

(* ================================================================== *)
(** ** The values of each phase *)

Lemma map_seq_shift {B} (f : nat -> B) k :
  map f (seq 0 (S k)) = f O :: map (fun j => f (S j)) (seq 0 k).
Proof. cbn [seq map]. now rewrite <- seq_shift, map_map. Qed.

Lemma extract_loop_values host self n files :
  forall i w,
    let r := extract_loop host self i n files w in
    exists k l,
      (k <= List.length files)%nat
      /\ events (snd r) = events w ++ l
      /\ progress_values l
         = map (fun j => extraction_progress (i + Z.of_nat j) n) (seq 0 k)
      /\ (fst r = Ok tt -> k = List.length files).
Proof.
  induction files as [|f r IH]; intros i w; cbv zeta.
  - exists O, []. cbn. rewrite app_nil_r. auto.
  - cbn [extract_loop].
    destruct (zip_extract (dmode host) (fmode host) f (temp_extract_dir host self) (fs w))
      as [t [e|]] eqn:E.
    + rewrite (bind_call_raise _ _ _ _ _ E).
      exists O, []. cbn [fst snd set_fs events]. rewrite app_nil_r.
      split; [cbn; lia|]. split; [reflexivity|]. split; [reflexivity|discriminate].
    + rewrite (bind_call_ok _ _ _ _ E), bind_emit.
      set (w1 := mkWorld _ _ _ _ _).
      destruct (IH (i + 1) w1) as (k & l & Hk & Hl & Hv & Hok).
      exists (S k), (Progress (extraction_progress i n) :: l).
      split; [cbn; lia|]. split.
      { rewrite Hl. subst w1. cbn [events set_fs]. now rewrite <- app_assoc. }
      split.
      { change (progress_values (Progress (extraction_progress i n) :: l))
          with (extraction_progress i n :: progress_values l).
        rewrite Hv, map_seq_shift. f_equal; [f_equal; lia|].
        apply map_ext. intros j. f_equal. lia. }
      intros H. cbn [List.length]. f_equal. now apply Hok.
Qed.

(** X3. The extraction loop emits one progress value after each member it
    has extracted, the value of the member's index; when it returns, there
    is one value per member of the archive, and the last one is 50. *)
Theorem extraction_emits_one_value_per_member :
  forall (host : Host) (self : InstallerThread) (files : list ZipInfo) (w : world),
    let n := Z.of_nat (List.length files) in
    let r := extract_loop host self 0 n files w in
    let values := progress_values (new_events w (snd r)) in
    exists k,
      (k <= List.length files)%nat
      /\ values = map (fun j => extraction_progress (Z.of_nat j) n) (seq 0 k)
      /\ (fst r = Ok tt ->
          k = List.length files /\ (files <> [] -> last values 0 = 50)).
Proof.
  intros host self files w n r values.
  destruct (extract_loop_values host self n files 0 w) as (k & l & Hk & Hl & Hv & Hok).
  fold r in Hl, Hok. exists k. split; [exact Hk|].
  assert (Hvalues : values = map (fun j => extraction_progress (Z.of_nat j) n) (seq 0 k)).
  { subst values. rewrite (new_events_app _ _ _ Hl), Hv. reflexivity. }
  split; [exact Hvalues|]. intros H. specialize (Hok H). split; [exact Hok|].
  intros Hne. rewrite Hvalues, Hok. subst n.
  destruct (List.length files) as [|m] eqn:Elen.
  - destruct files; [contradiction|discriminate].
  - rewrite seq_S, map_app. cbn [map]. rewrite last_last. cbn [Nat.add].
    replace (Z.of_nat m) with (Z.of_nat (S m) - 1) by lia.
    apply extraction_progress_last. lia.
Qed.

(** X4. When the loop over the install map returns, the mapping phase has
    emitted exactly one progress value for each rule that has both fields,
    at the rule's index, and none for the others; if every rule has both
    fields there are as many values as rules and the last one is 100. *)
Theorem mapping_emits_one_value_per_complete_rule :
  forall (host : Host) (self : InstallerThread) (maps : list MappingRule) (w : world),
    let n := Z.of_nat (List.length maps) in
    let r := mapping_loop host self 0 n maps w in
    let values := progress_values (new_events w (snd r)) in
    fst r = Ok tt ->
    values = progress_of_rules 0 n maps
    /\ (forallb complete maps = true ->
        List.length values = List.length maps
        /\ (maps <> [] -> last values 0 = 100)).
Proof.
  intros host self maps w n r values Hok.
  assert (Hvalues : values = progress_of_rules 0 n maps).
  { subst values.
    destruct (mapping_loop_signals host self n maps 0 ltac:(lia) ltac:(lia) w)
      as (l & Hl & _).
    fold r in Hl. rewrite (new_events_app _ _ _ Hl).
    pose proof (mapping_loop_progress host self n maps 0 w Hok) as Hp.
    fold r in Hp. rewrite Hl, progress_values_app in Hp.
    now apply app_inv_head in Hp. }
  split; [exact Hvalues|]. intros Hc. rewrite Hvalues.
  now apply progress_of_complete_rules.
Qed.

Lemma mapping_emits_one_value_per_complete_rule_witness :
  fst (mapping_loop host_u self_D 0 1 (install_map self_D) world_staged) = Ok tt
  /\ progress_values
       (new_events world_staged
          (snd (mapping_loop host_u self_D 0 1 (install_map self_D) world_staged)))
     = progress_of_rules 0 1 (install_map self_D).
Proof.
  split; [vm_compute; reflexivity|].
  apply (mapping_emits_one_value_per_complete_rule host_u self_D (install_map self_D)
           world_staged).
  vm_compute. reflexivity.
Defined.

(* ================================================================== *)
(** ** What a step leaves alone *)

Section Preserves.
Variable R : world -> world -> Prop.
Hypothesis HR : stable R.

Lemma preserves_unchanged {A} (m : M A) : (forall w, snd (m w) = w) -> preserves R m.
Proof. intros H w. rewrite H. apply HR. Qed.

Lemma preserves_ret {A} (a : A) : preserves R (ret a).
Proof. now apply preserves_unchanged. Qed.

Lemma preserves_raise {A} e : preserves R (@raise A e).
Proof. now apply preserves_unchanged. Qed.

Lemma preserves_ask {A} (q : node -> A) : preserves R (ask q).
Proof. now apply preserves_unchanged. Qed.

Lemma preserves_get_executable_name : preserves R get_executable_name.
Proof. now apply preserves_unchanged. Qed.

Lemma preserves_get_icon_path_in_zip : preserves R get_icon_path_in_zip.
Proof. now apply preserves_unchanged. Qed.

Lemma preserves_emit e : preserves R (emit e).
Proof. intros w. apply HR. Qed.

Lemma preserves_emit_all l : preserves R (emit_all l).
Proof. intros w. rewrite emit_all_spec. apply HR. Qed.

Lemma preserves_sleep seconds : preserves R (time_sleep seconds).
Proof. intros w. apply HR. Qed.

Lemma preserves_bind {A B} (m : M A) (k : A -> M B) :
  preserves R m -> (forall a, preserves R (k a)) -> preserves R (bind m k).
Proof.
  intros Hm Hk w. unfold bind. specialize (Hm w).
  destruct HR as (_ & Htrans & _).
  destruct (m w) as [[a|e] w1]; cbn [snd] in *; [|exact Hm].
  eapply Htrans; [exact Hm|apply Hk].
Qed.

Lemma preserves_try_except {A} catches (m : M A) (h : exn -> M A) :
  preserves R m -> (forall e, preserves R (h e)) -> preserves R (try_except catches m h).
Proof.
  intros Hm Hh w. unfold try_except. specialize (Hm w).
  destruct HR as (_ & Htrans & _).
  destruct (m w) as [[a|e] w1]; cbn [snd] in *; [exact Hm|].
  destruct (catches e); [|exact Hm].
  eapply Htrans; [exact Hm|apply Hh].
Qed.

Lemma preserves_try_finally {A} (m : M A) (f : M unit) :
  preserves R m -> preserves R f -> preserves R (try_finally m f).
Proof.
  intros Hm Hf w. unfold try_finally. specialize (Hm w).
  destruct HR as (_ & Htrans & _).
  destruct (m w) as [r w1]; cbn [snd] in *. specialize (Hf w1).
  destruct (f w1) as [[u|e] w2]; cbn [snd] in *; eapply Htrans; eauto.
Qed.

Lemma preserves_when b (m : M unit) : preserves R m -> preserves R (when b m).
Proof. intros H. destruct b; [exact H|apply preserves_ret]. Qed.

End Preserves.

(** One step of a proof that a computation preserves a stable relation;
    [primitive] settles the calls that change the state. *)
Ltac preserves_step HR primitive :=
  match goal with
  | |- preserves _ (bind _ _) => apply (preserves_bind _ HR); [|intros ?]
  | |- preserves _ (ret _) => apply (preserves_ret _ HR)
  | |- preserves _ (raise _) => apply (preserves_raise _ HR)
  | |- preserves _ (ask _) => apply (preserves_ask _ HR)
  | |- preserves _ (emit _) => apply (preserves_emit _ HR)
  | |- preserves _ (emit_all _) => apply (preserves_emit_all _ HR)
  | |- preserves _ (time_sleep _) => apply (preserves_sleep _ HR)
  | |- preserves _ (when _ _) => apply (preserves_when _ HR)
  | |- preserves _ (try_except _ _ _) => apply (preserves_try_except _ HR); [|intros ?]
  | |- preserves _ (try_finally _ _) => apply (preserves_try_finally _ HR)
  | |- preserves _ get_executable_name => apply (preserves_get_executable_name _ HR)
  | |- preserves _ get_icon_path_in_zip => apply (preserves_get_icon_path_in_zip _ HR)
  | |- preserves _ (if ?b then _ else _) => destruct b
  | |- preserves _ (match ?x with _ => _ end) => destruct x
  | |- preserves _ (let (_, _) := ?x in _) => destruct x
  | |- _ => primitive
  end.

Ltac preserves_auto HR primitive := repeat preserves_step HR primitive.

(** *** The two names *)

Lemma same_names_stable : stable same_names.
Proof.
  split; [|split].
  - intros w. split; reflexivity.
  - intros a b c [H1 H2] [H3 H4]. split; congruence.
  - intros w l s. split; reflexivity.
Qed.

Lemma same_names_call op : preserves same_names (call op).
Proof. intros w. unfold call. destruct (op (fs w)) as [t e]. split; reflexivity. Qed.

Ltac same_names_auto :=
  preserves_auto same_names_stable ltac:(apply same_names_call).

Lemma open_zip_unchanged self w : snd (open_zip self w) = w.
Proof.
  unfold open_zip.
  destruct (lookup (components (zip_path self)) (fs w)) as [[mo [b|z]| |]|]; try reflexivity.
  now destruct (central_directory_ok z).
Qed.

Section Names.
Variable host : Host.
Variable self : InstallerThread.

Lemma normalize_permissions_names dst : preserves same_names (normalize_permissions dst).
Proof. unfold normalize_permissions. same_names_auto. Qed.

Lemma process_mapping_names i n rule :
  preserves same_names (process_mapping host self i n rule).
Proof.
  unfold process_mapping, clear_destination, remove_destination, copy_into_place,
    copy_and_normalize.
  same_names_auto. all: apply normalize_permissions_names.
Qed.

Lemma mapping_loop_names n maps :
  forall i, preserves same_names (mapping_loop host self i n maps).
Proof.
  induction maps as [|rule r IH]; intros i; cbn [mapping_loop].
  - apply (preserves_ret _ same_names_stable).
  - apply (preserves_bind _ same_names_stable); [apply process_mapping_names|intros _; apply IH].
Qed.

Lemma extract_loop_names n files :
  forall i, preserves same_names (extract_loop host self i n files).
Proof.
  induction files as [|f r IH]; intros i; cbn [extract_loop].
  - apply (preserves_ret _ same_names_stable).
  - same_names_auto. apply IH.
Qed.

Lemma stage_archive_names : preserves same_names (stage_archive host self).
Proof.
  unfold stage_archive. same_names_auto.
  - apply (preserves_unchanged _ same_names_stable), open_zip_unchanged.
  - apply extract_loop_names.
Qed.

Lemma create_desktop_entry_names : preserves same_names (_create_desktop_entry host self).
Proof. unfold _create_desktop_entry. same_names_auto. Qed.

Lemma update_desktop_icon_cache_names : preserves same_names (_update_desktop_icon_cache host).
Proof. unfold _update_desktop_icon_cache. same_names_auto. Qed.

Lemma removal_attempts_names k :
  forall a, preserves same_names (removal_attempts host self k a).
Proof.
  induction k as [|k IH]; intros a; cbn [removal_attempts].
  - apply (preserves_ret _ same_names_stable).
  - same_names_auto. apply IH.
Qed.

Lemma cleanup_names : preserves same_names (_cleanup_temp_files host self).
Proof. unfold _cleanup_temp_files. same_names_auto. apply removal_attempts_names. Qed.

End Names.

(** X5. A run with a non-empty install map leaves [executable_name] and
    [icon_path_in_zip] as the constructor set them: only the fallback path
    rewrites them. *)
Theorem mapped_run_keeps_names :
  forall (host : Host) (self : InstallerThread) (w : world),
    install_map self <> [] ->
    executable_name (snd (run host self w)) = executable_name w
    /\ icon_path_in_zip (snd (run host self w)) = icon_path_in_zip w.
Proof.
  intros host self w Hmap.
  assert (H : preserves same_names (run host self)); [|exact (H w)].
  unfold run, run_guarded, install, install_steps, install_files.
  destruct (install_map self) as [|rule r] eqn:E; [contradiction|].
  replace (Z.of_nat (List.length (rule :: r)) =? 0) with false
    by (symmetry; apply Z.eqb_neq; cbn [List.length]; lia).
  same_names_auto.
  - apply stage_archive_names.
  - apply mapping_loop_names.
  - apply create_desktop_entry_names.
  - apply update_desktop_icon_cache_names.
  - apply cleanup_names.
Qed.

Lemma mapped_run_keeps_names_witness :
  install_map self_B <> []
  /\ executable_name (snd (run host_u self_B world_B)) = executable_name world_B
  /\ icon_path_in_zip (snd (run host_u self_B world_B)) = icon_path_in_zip world_B.
Proof.
  assert (H : install_map self_B <> []) by discriminate.
  split; [exact H|]. exact (mapped_run_keeps_names host_u self_B world_B H).
Defined.

(* ================================================================== *)
(** ** What the cleaner leaves alone *)

Lemma shrinks_trans x y z : shrinks x y -> shrinks y z -> shrinks x z.
Proof. intros H1 H2 p Hp. apply H1, H2, Hp. Qed.

Lemma only_removes_stable : stable only_removes.
Proof.
  split; [|split].
  - intros w. apply shrinks_refl.
  - intros a b c. apply shrinks_trans.
  - intros w l s. apply shrinks_refl.
Qed.

Lemma only_removes_rmtree path : preserves only_removes (call (shutil_rmtree path)).
Proof.
  intros w. unfold call, only_removes.
  pose proof (alter_shrinks _ rmtree_edit_shrinking (components path) (fs w)) as H.
  unfold shutil_rmtree. destruct (alter rmtree_edit (components path) (fs w)) as [t e].
  exact H.
Qed.

Lemma is_prefix_nil_r p : is_prefix p [] = true -> p = [].
Proof. destruct p; [reflexivity|discriminate]. Qed.

(** An edit at [q] changes nothing at a path that is neither at or below
    [q] nor above it. *)
Lemma alter_frame f q :
  forall p t,
    is_prefix q p = false -> is_prefix p q = false ->
    lookup p (fst (alter f q t)) = lookup p t.
Proof.
  induction q as [|c q IH]; intros p t Hqp Hpq; [discriminate|].
  destruct p as [|d p]; [discriminate|].
  cbn [is_prefix] in Hqp, Hpq.
  destruct t as [mo dt|m es|tg]; try (destruct q; reflexivity).
  destruct q as [|c' q'].
  - cbn [alter]. unfold apply_edit.
    assert (Hne : c <> d).
    { intros ->. rewrite String.eqb_refl in Hqp. discriminate. }
    destruct (f (writable m) (find_entry c es)) as [[x'|] e]; cbn [fst snd lookup].
    + now rewrite find_set_other.
    + now rewrite find_del_other.
  - rewrite alter_cons_cons.
    destruct (find_entry c es) as [x|] eqn:Ef; [|reflexivity].
    specialize (IH p x).
    destruct (alter f (c' :: q') x) as [x' e]. cbn [fst lookup] in *.
    destruct (string_dec c d) as [->|Hne].
    + rewrite String.eqb_refl in Hqp, Hpq. cbn [andb] in Hqp, Hpq.
      rewrite find_set_same, Ef. now apply IH.
    + now rewrite find_set_other.
Qed.

Lemma untouched_outside_stable roots : stable (untouched_outside roots).
Proof.
  split; [|split].
  - intros w p _. reflexivity.
  - intros a b c H1 H2 p Hp. rewrite (H2 p Hp). now apply H1.
  - intros w l s p _. reflexivity.
Qed.

Lemma untouched_outside_alter roots f q :
  In q roots -> preserves (untouched_outside roots) (call (alter f q)).
Proof.
  intros Hin w p Hp. unfold call.
  unfold outside in Hp. rewrite forallb_forall in Hp. specialize (Hp q Hin).
  apply andb_prop in Hp as [H1 H2].
  apply negb_true_iff in H1. apply negb_true_iff in H2.
  pose proof (alter_frame f q p (fs w) H1 H2) as H.
  destruct (alter f q (fs w)) as [t e]. exact H.
Qed.

Section CleanerFrame.
Variable host : Host.
Variable self : InstallerThread.

Lemma removal_attempts_only_removes k :
  forall a, preserves only_removes (removal_attempts host self k a).
Proof.
  induction k as [|k IH]; intros a; cbn [removal_attempts].
  - apply (preserves_ret _ only_removes_stable).
  - preserves_auto only_removes_stable ltac:(apply only_removes_rmtree). apply IH.
Qed.

Lemma cleanup_only_removes : preserves only_removes (_cleanup_temp_files host self).
Proof.
  unfold _cleanup_temp_files.
  preserves_auto only_removes_stable ltac:(apply only_removes_rmtree).
  apply removal_attempts_only_removes.
Qed.

Lemma removal_attempts_frame roots k :
  In (components (temp_extract_dir host self)) roots ->
  forall a, preserves (untouched_outside roots) (removal_attempts host self k a).
Proof.
  intros Hin. induction k as [|k IH]; intros a; cbn [removal_attempts].
  - apply (preserves_ret _ (untouched_outside_stable roots)).
  - preserves_auto (untouched_outside_stable roots)
      ltac:(apply untouched_outside_alter; exact Hin).
    apply IH.
Qed.

Lemma cleanup_frame :
  preserves (untouched_outside [components (temp_extract_dir host self);
                                components (temp_icon_display_dir host self)])
            (_cleanup_temp_files host self).
Proof.
  unfold _cleanup_temp_files.
  preserves_auto
    (untouched_outside_stable [components (temp_extract_dir host self);
                               components (temp_icon_display_dir host self)])
    ltac:(apply untouched_outside_alter; cbn; auto).
  apply removal_attempts_frame. cbn. auto.
Qed.

End CleanerFrame.

(** X6. The workspace cleaner only removes, and only inside its two
    directories: it creates no file or directory, and every path that is
    neither inside nor above the staging directory or the icon-preview
    directory names after it what it named before, with the same mode and
    content. *)
Theorem cleaner_touches_only_its_directories :
  forall (host : Host) (self : InstallerThread) (w : world),
    let w' := snd (_cleanup_temp_files host self w) in
    (forall p, present p (fs w') = true -> present p (fs w) = true)
    /\ (forall p,
          outside [components (temp_extract_dir host self);
                   components (temp_icon_display_dir host self)] p = true ->
          lookup p (fs w') = lookup p (fs w)).
Proof.
  intros host self w w'. split.
  - exact (cleanup_only_removes host self w).
  - exact (cleanup_frame host self w).
Qed.

(* ================================================================== *)
(** ** The outcome of a run *)

Lemma completions_before l : Forall before_completion l -> completions l = [].
Proof.
  induction 1 as [|e l He Hl IH]; [reflexivity|].
  change (completions (e :: l))
    with (match e with Finished b => [b] | _ => [] end ++ completions l).
  rewrite IH. now destruct e.
Qed.

Section RunOutcome.
Variable host : Host.
Variable self : InstallerThread.

(** The guarded body ends with the completion signal, which tells whether
    the archive was valid and the four steps returned. *)
Lemma run_guarded_outcome w :
  exists pre,
    events (snd (run_guarded host self w))
    = events w ++ pre
      ++ [Finished (valid_archive self w && returned (fst (install_steps host self w)))]
    /\ Forall before_completion pre.
Proof.
  unfold run_guarded, try_except, install, valid_archive. rewrite bind_ask.
  destruct (os_path_exists (zip_path self) (fs w) && is_zipfile (zip_path self) (fs w));
    cbn [negb andb].
  - unfold bind at 1. destruct (install_steps_signals host self w) as (l & Hl & HQ).
    destruct (install_steps host self w) as [[[]|e] w1]; cbn [snd fst returned] in *.
    + exists (l ++ [Message MsgDone]). cbn. rewrite Hl, <- !app_assoc.
      split; [reflexivity|]. apply Forall_app. split; [exact HQ|]. repeat constructor.
    + exists (l ++ [Message (MsgBlewUp e)]). cbn. rewrite Hl, <- !app_assoc.
      split; [reflexivity|]. apply Forall_app. split; [exact HQ|]. repeat constructor.
  - exists [Message MsgInvalidZip]. cbn. rewrite <- app_assoc.
    split; [reflexivity|]. repeat constructor.
Qed.

Lemma run_completions w :
  completions (new_events w (snd (run host self w)))
  = [valid_archive self w && returned (fst (install_steps host self w))].
Proof.
  rewrite run_unfold.
  destruct (cleanup_spec host self (snd (run_guarded host self w)))
    as (staging & icons & w2 & Hc & Hev & Hs & _ & Hi & _).
  rewrite Hc. cbn [snd].
  destruct (run_guarded_outcome w) as (pre & Hg & Hpre).
  set (b := valid_archive self w && returned (fst (install_steps host self w))) in *.
  rewrite (new_events_app w w2 (pre ++ [Finished b] ++ staging ++ icons)).
  - rewrite (completions_app pre), (completions_app [Finished b]).
    rewrite (completions_before pre Hpre).
    rewrite (completions_of_attempts (staging ++ icons)); [reflexivity|].
    apply Forall_app. split; (eapply Forall_impl; [|eassumption]); cbn; auto.
  - rewrite Hev, Hg. now rewrite <- !app_assoc.
Qed.

Lemma bind_returned {A B} (m : M A) (k : A -> M B) w :
  returned (fst (bind m k w)) = true ->
  exists a w1, m w = (Ok a, w1) /\ returned (fst (k a w1)) = true.
Proof.
  unfold bind. destruct (m w) as [[a|e] w1]; [eauto|discriminate].
Qed.

Lemma update_desktop_icon_cache_raises w :
  update_desktop_database host = ToolFailed None
  \/ (update_desktop_database host = ToolNotFound
      /\ gtk_update_icon_cache host = ToolFailed None) ->
  fst (_update_desktop_icon_cache host w) = Raise UnicodeDecodeError.
Proof.
  intros H. unfold _update_desktop_icon_cache. rewrite bind_emit.
  destruct H as [->|[-> ->]]; reflexivity.
Qed.

End RunOutcome.

(** X7. Every run emits exactly one completion signal, and it carries
    success exactly when the archive passed the validity test and staging,
    installation, the desktop registrar and the cache refresher all
    returned without an exception. *)
Theorem run_reports_success_exactly_when_its_steps_return :
  forall (host : Host) (self : InstallerThread) (w : world),
    completions (new_events w (snd (run host self w)))
    = [valid_archive self w && returned (fst (install_steps host self w))].
Proof. intros host self w. apply run_completions. Qed.

(** X8. The text that a failed cache tool wrote to its error stream is
    decoded inside the [except] clause that reports it; when it is not
    valid UTF-8 the decoding error leaves [_update_desktop_icon_cache], and
    the run ends with a failure signal whatever it had installed. *)
Theorem undecodable_tool_output_fails_the_run :
  forall (host : Host) (self : InstallerThread) (w : world),
    update_desktop_database host = ToolFailed None
    \/ (update_desktop_database host = ToolNotFound
        /\ gtk_update_icon_cache host = ToolFailed None) ->
    (forall w0, _update_desktop_icon_cache host w0
                = (Raise UnicodeDecodeError, emitted (Message MsgCacheRefreshing) w0))
    /\ completions (new_events w (snd (run host self w))) = [false].
Proof.
  intros host self w H. split.
  - intros w0. unfold _update_desktop_icon_cache. rewrite bind_emit.
    destruct H as [->|[-> ->]]; reflexivity.
  - rewrite run_completions.
    destruct (returned (fst (install_steps host self w))) eqn:E;
      [|now rewrite andb_false_r].
    exfalso. unfold install_steps in E.
    apply bind_returned in E as (a1 & w1 & _ & E).
    apply bind_returned in E as (a2 & w2 & _ & E).
    apply bind_returned in E as (a3 & w3 & _ & E).
    rewrite (update_desktop_icon_cache_raises host w3 H) in E. discriminate.
Qed.

Lemma undecodable_tool_output_fails_the_run_witness :
  let host := mkHost "/home/u" 18 (ToolFailed None) ToolNotFound in
  update_desktop_database host = ToolFailed None
  /\ completions (new_events world_B (snd (run host self_B world_B))) = [false].
Proof.
  cbv zeta. split; [reflexivity|].
  apply (undecodable_tool_output_fails_the_run
           (mkHost "/home/u" 18 (ToolFailed None) ToolNotFound) self_B world_B).
  left. reflexivity.
Defined.

(** X9. A run on a path that is not a ZIP file emits the invalid-archive
    message and the failure signal, and then only the cleaner's messages;
    it creates nothing, it changes nothing outside the two temporary
    directories, and it leaves the two names alone. *)
Theorem invalid_archive_run_installs_nothing :
  forall (host : Host) (self : InstallerThread) (w : world),
    valid_archive self w = false ->
    let w' := snd (run host self w) in
    (exists post,
       new_events w w' = [Message MsgInvalidZip; Finished false] ++ post
       /\ Forall from_cleaner post)
    /\ (forall p, present p (fs w') = true -> present p (fs w) = true)
    /\ (forall p,
          outside [components (temp_extract_dir host self);
                   components (temp_icon_display_dir host self)] p = true ->
          lookup p (fs w') = lookup p (fs w))
    /\ executable_name w' = executable_name w
    /\ icon_path_in_zip w' = icon_path_in_zip w.
Proof.
  intros host self w Hv w'. subst w'. rewrite run_unfold. cbn [snd].
  assert (Hg : run_guarded host self w
               = (Ok tt, emitted (Finished false) (emitted (Message MsgInvalidZip) w))).
  { unfold run_guarded, try_except, install. rewrite bind_ask.
    unfold valid_archive in Hv. rewrite Hv. reflexivity. }
  rewrite Hg. cbn [snd].
  set (w1 := emitted (Finished false) (emitted (Message MsgInvalidZip) w)).
  destruct (cleanup_spec host self w1)
    as (staging & icons & w2 & Hc & Hev & Hs & _ & Hi & _).
  pose proof (cleanup_only_removes host self w1) as Hr.
  pose proof (cleanup_frame host self w1) as Hf.
  pose proof (cleanup_names host self w1) as [Hn1 Hn2].
  rewrite Hc in *. cbn [snd] in *.
  split; [|split; [exact Hr|split; [exact Hf|split; [exact Hn1|exact Hn2]]]].
  exists (staging ++ icons). split; [|now apply attempts_from_cleaner].
  apply new_events_app. rewrite Hev. subst w1. cbn [emitted events].
  now rewrite <- !app_assoc.
Qed.

Lemma invalid_archive_run_installs_nothing_witness :
  valid_archive self_A world_app = false
  /\ executable_name (snd (run host_u self_A world_app)) = executable_name world_app.
Proof.
  split; [reflexivity|].
  apply (invalid_archive_run_installs_nothing host_u self_A world_app). reflexivity.
Defined.

(* ================================================================== *)
(** ** What the copies put in place *)

Lemma fresh_dirs_empty dm p t :
  fresh_dirs dm p = (t, None) -> lookup p t = Some (Dir dm []).
Proof.
  revert t. induction p as [|c p IH]; intros t; cbn.
  - now intros [= <-].
  - destruct (writable dm); [|discriminate].
    destruct (fresh_dirs dm p) as [x e] eqn:Ex. intros [= <- ->].
    cbn. rewrite String.eqb_refl. now apply IH.
Qed.

(** [os.makedirs] that returns on a path that did not exist leaves an empty
    directory there. *)
Lemma mkdirs_fresh dm ok p :
  forall t t1,
    present p t = false -> mkdirs dm ok p t = (t1, None) ->
    lookup p t1 = Some (Dir dm []).
Proof.
  induction p as [|c p IH]; intros t t1 Hp H.
  - destruct t; cbn in Hp, H; discriminate.
  - destruct t as [|m0 es0|]; cbn [mkdirs] in H; try discriminate.
    rewrite present_cons in Hp.
    destruct (find_entry c es0) as [y|] eqn:Ef.
    + destruct (mkdirs dm ok p y) as [y' e] eqn:Ey. injection H as <- ->.
      cbn [lookup]. rewrite find_set_same. eapply IH; eauto.
    + destruct (writable m0); [|discriminate].
      destruct (fresh_dirs dm p) as [y' e] eqn:Ey. injection H as <- ->.
      cbn [lookup]. rewrite find_set_same. now apply fresh_dirs_empty.
Qed.

Lemma mkdirs_makes_directory_any dm ok p :
  forall t t1,
    mkdirs dm ok p t = (t1, None) -> exists m es, lookup p t1 = Some (Dir m es).
Proof.
  induction p as [|c p IH]; intros t t1 H.
  - destruct t; cbn in H; try discriminate.
    destruct ok; [|discriminate]. injection H as <-. cbn. eauto.
  - destruct t as [|m0 es0|]; cbn [mkdirs] in H; try discriminate.
    destruct (find_entry c es0) as [y|] eqn:Ef.
    + destruct (mkdirs dm ok p y) as [y' e] eqn:Ey. injection H as <- ->.
      cbn [lookup]. rewrite find_set_same. eapply IH; eauto.
    + destruct (writable m0); [|discriminate].
      destruct (fresh_dirs dm p) as [y' e] eqn:Ey. injection H as <- ->.
      cbn [lookup]. rewrite find_set_same.
      destruct (fresh_dirs_lookup _ _ _ Ey) as [es Hes]. eauto.
Qed.

(** [os.makedirs] keeps every directory a directory. *)
Lemma mkdirs_keeps_directories dm ok q :
  forall p t t1 e m es,
    lookup p t = Some (Dir m es) -> mkdirs dm ok q t = (t1, e) ->
    exists m' es', lookup p t1 = Some (Dir m' es').
Proof.
  induction q as [|c q IH]; intros p t t1 e m es Hl H.
  - destruct t; cbn in H; injection H as <- _; eauto.
  - destruct t as [|m0 es0|]; cbn [mkdirs] in H; try (injection H as <- _; eauto).
    destruct (find_entry c es0) as [y|] eqn:Ef.
    + destruct (mkdirs dm ok q y) as [y' e'] eqn:Ey. injection H as <- _.
      destruct p as [|d p]; [cbn; eauto|].
      cbn [lookup] in Hl |- *.
      destruct (string_dec c d) as [<-|Hne].
      * rewrite find_set_same. rewrite Ef in Hl. eapply IH; eauto.
      * rewrite find_set_other by exact Hne. eauto.
    + destruct (writable m0); [|injection H as <- _; eauto].
      destruct (fresh_dirs dm q) as [y' e'] eqn:Ey. injection H as <- _.
      destruct p as [|d p]; [cbn; eauto|].
      cbn [lookup] in Hl |- *.
      destruct (string_dec c d) as [<-|Hne].
      * rewrite Ef in Hl. discriminate.
      * rewrite find_set_other by exact Hne. eauto.
Qed.

(** [os.makedirs] keeps every regular file as it is. *)
Lemma mkdirs_keeps_files dm ok q :
  forall p t t1 e m d,
    lookup p t = Some (File m d) -> mkdirs dm ok q t = (t1, e) ->
    lookup p t1 = Some (File m d).
Proof.
  induction q as [|c q IH]; intros p t t1 e m d Hl H.
  - destruct t; cbn in H; injection H as <- _; eauto.
  - destruct t as [|m0 es0|]; cbn [mkdirs] in H; try (injection H as <- _; eauto).
    destruct (find_entry c es0) as [y|] eqn:Ef.
    + destruct (mkdirs dm ok q y) as [y' e'] eqn:Ey. injection H as <- _.
      destruct p as [|c2 p]; [discriminate|].
      cbn [lookup] in Hl |- *.
      destruct (string_dec c c2) as [<-|Hne].
      * rewrite find_set_same. rewrite Ef in Hl. eapply IH; eauto.
      * rewrite find_set_other by exact Hne. eauto.
    + destruct (writable m0); [|injection H as <- _; eauto].
      destruct (fresh_dirs dm q) as [y' e'] eqn:Ey. injection H as <- _.
      destruct p as [|c2 p]; [discriminate|].
      cbn [lookup] in Hl |- *.
      destruct (string_dec c c2) as [<-|Hne].
      * rewrite Ef in Hl. discriminate.
      * rewrite find_set_other by exact Hne. eauto.
Qed.

Lemma copy_entries_verbatim cp es :
  Forall (fun e => forall t, cp (snd e) = (Some t, true) -> t = snd e) es ->
  forall es', copy_entries cp es = (es', true) -> es' = es.
Proof.
  induction 1 as [|[c x] r Hx Hr IH]; intros es' H.
  - cbn in H. now injection H as <-.
  - cbn [copy_entries] in H. fold (copy_entries cp) in H.
    destruct (copy_entries cp r) as [r' okr].
    destruct (cp x) as [[x'|] ok] eqn:Ex; [|discriminate].
    injection H as <- Hok. apply andb_prop in Hok as [-> ->].
    cbn [snd] in Hx. now rewrite (Hx _ Ex), (IH _ eq_refl).
Qed.

(** A copy that [copytree] completed is the source itself: names, modes and
    content. *)
Lemma copy_node_verbatim dm n : forall t, copy_node dm n = (Some t, true) -> t = n.
Proof.
  induction n as [m d|tg|m es IH] using node_induction; intros t H.
  - cbn in H. now injection H as <-.
  - discriminate.
  - cbn [copy_node] in H. destruct es as [|e0 r]; [now injection H as <-|].
    destruct (writable dm); [|discriminate].
    destruct (copy_entries (copy_node dm) (e0 :: r)) as [es' ok] eqn:Ec.
    injection H as <- ->. f_equal. eapply copy_entries_verbatim; eauto.
Qed.

(** An edit that succeeds only by leaving a node with property [P]. *)
Lemma alter_success_leaves (P : node -> Prop) f :
  (forall pw old new, f pw old = (new, None) -> exists x, new = Some x /\ P x) ->
  forall q t t', alter f q t = (t', None) -> exists x, lookup q t' = Some x /\ P x.
Proof.
  intros Hf. induction q as [|c q IH]; intros t t' H.
  - cbn [alter] in H. destruct (f false (Some t)) as [[n'|] e] eqn:E; [|discriminate].
    injection H as <- ->. apply Hf in E as (x & [= <-] & HP). cbn. eauto.
  - destruct t as [mo d|m es|tg]; try (destruct q; discriminate).
    destruct q as [|c' q'].
    + cbn [alter] in H. unfold apply_edit in H.
      destruct (f (writable m) (find_entry c es)) as [[x'|] e] eqn:E; cbn [fst snd] in H;
        injection H as <- ->; apply Hf in E as (x & [= <-] & HP).
      cbn [lookup]. rewrite find_set_same. eauto.
    + rewrite alter_cons_cons in H.
      destruct (find_entry c es) as [x|] eqn:Ef; [|discriminate].
      destruct (alter f (c' :: q') x) as [x' e] eqn:Ea. injection H as <- ->.
      cbn [lookup]. rewrite find_set_same. eapply IH; eauto.
Qed.

Lemma copy2_leaves_the_file src dst t t' :
  os_path_isdir dst t = false ->
  shutil_copy2 src dst t = (t', None) ->
  exists m d, lookup (components src) t = Some (File m d)
              /\ lookup (components dst) t' = Some (File m d).
Proof.
  intros Hd H. unfold shutil_copy2 in H. rewrite Hd in H.
  destruct (samefile src dst t); [discriminate|].
  destruct (lookup (components src) t) as [[m d| |]|] eqn:Hs; try discriminate.
  exists m, d. split; [reflexivity|].
  destruct (alter_success_leaves (fun x => x = File m d) (copy_edit m d)) with
    (q := components dst) (t := t) (t' := t') as (x & Hx & ->); auto.
  intros pw [[m0 d0|m0 es0|tg]|] new; cbn.
  - destruct (writable m0); [|discriminate]. intros [= <-]. eauto.
  - discriminate.
  - discriminate.
  - destruct pw; [|discriminate]. intros [= <-]. eauto.
Qed.

Section Copies.
Variable host : Host.
Variable self : InstallerThread.

Lemma fallback_names_tail w :
  exists exe icon,
    (exe <- get_executable_name ;;
     when (falsy exe || negb (startswith "." exe))
       (set_executable_name
          (join3 ".app" (app_name self)
             (if falsy exe then normalized_name self else exe))) ;;
     icon <- get_icon_path_in_zip ;;
     when (falsy icon || negb (startswith "." icon))
       (set_icon_path_in_zip
          (join3 ".app" (app_name self) (if falsy icon then "app_icon.png" else icon))))%engine w
    = (Ok tt, mkWorld (fs w) (events w) exe icon (slept w)).
Proof.
  destruct w as [t ev exe icon sl].
  unfold bind, get_executable_name, get_icon_path_in_zip.
  cbn [executable_name].
  destruct (falsy exe || negb (startswith "." exe));
    cbn [when set_executable_name ret icon_path_in_zip fs events executable_name];
    destruct (falsy icon || negb (startswith "." icon));
    cbn [when set_icon_path_in_zip ret icon_path_in_zip fs events executable_name];
    do 2 eexists; reflexivity.
Qed.

End Copies.

(** X10. When the fallback installation returns, the default destination
    [~/.app/<app_name>] holds the staged tree exactly as it was extracted:
    every path below it names what the same path names below the staging
    directory, with the same mode and content.  No execute bit is added on
    this path. *)
Theorem fallback_copies_the_staged_tree_as_it_is :
  forall (host : Host) (self : InstallerThread) (w w' : world),
    fallback_install host self w = (Ok tt, w') ->
    let default_app_dir := join3 (home_dir host) ".app" (app_name self) in
    let t1 := if os_path_exists default_app_dir (fs w)
              then fst (shutil_rmtree default_app_dir (fs w)) else fs w in
    exists m es,
      lookup (components (temp_extract_dir host self)) t1 = Some (Dir m es)
      /\ forall q, lookup (components default_app_dir ++ q) (fs w') = lookup q (Dir m es).
Proof.
  intros host self w w' H dst t1.
  unfold fallback_install in H. fold dst in H. rewrite bind_emit, bind_ask in H.
  cbn [fs] in H.
  set (w0 := mkWorld (fs w) (events w ++ [Message (MsgNoInstallMap dst)])
               (executable_name w) (icon_path_in_zip w) (slept w)) in *.
  assert (H1 : exists w1,
             when (os_path_exists dst (fs w)) (call (shutil_rmtree dst)) w0 = (Ok tt, w1)
             /\ fs w1 = t1).
  { subst t1. unfold bind at 1 in H.
    destruct (os_path_exists dst (fs w)); cbn [when] in *.
    - unfold call in *. cbn [fs w0] in *. change (fs w0) with (fs w) in *.
      destruct (shutil_rmtree dst (fs w)) as [t [e|]]; [discriminate|].
      eexists. split; reflexivity.
    - eexists. split; reflexivity. }
  destruct H1 as (w1 & Hw1 & Ht1).
  unfold bind at 1 in H. rewrite Hw1 in H.
  unfold bind at 1, call in H. rewrite Ht1 in H.
  unfold shutil_copytree in H.
  destruct (lookup (components (temp_extract_dir host self)) t1) as [[| m es |]|] eqn:Hs;
    try discriminate.
  exists m, es. split; [reflexivity|].
  destruct (os_makedirs (dmode host) dst false t1) as [fs1 [e|]] eqn:Em; [discriminate|].
  unfold os_makedirs in Em. destruct (falsy dst); [discriminate|].
  destruct (mkdirs_makes_directory_any _ _ _ _ _ Em) as (m' & es' & Hd).
  destruct (copy_node (dmode host) (Dir m es)) as [[t|] ok] eqn:Ec; [|discriminate].
  destruct (alter_replace (put_edit t (if ok then None else Some ShutilError))
              (Dir m' es') t (if ok then None else Some ShutilError)
              (fun _ => eq_refl) _ _ Hd) as (t' & Ha & Hq).
  rewrite Ha in H. destruct ok; [|discriminate].
  apply copy_node_verbatim in Ec. subst t.
  destruct (fallback_names_tail self (set_fs t' w1)) as (exe & icon & Htail).
  rewrite Htail in H. injection H as <-. cbn [fs set_fs]. exact Hq.
Qed.

Lemma fallback_copies_the_staged_tree_as_it_is_witness :
  let w := snd (stage_archive host_u self_A world_A) in
  let w' := snd (fallback_install host_u self_A w) in
  fallback_install host_u self_A w = (Ok tt, w')
  /\ lookup (components "/home/u/.app/Foo/bin/foo") (fs w')
     = Some (File rw_r__r__ (Bytes "#!/bin/sh")).
Proof.
  assert (H : fallback_install host_u self_A (snd (stage_archive host_u self_A world_A))
              = (Ok tt, snd (fallback_install host_u self_A
                               (snd (stage_archive host_u self_A world_A)))))
    by (vm_compute; reflexivity).
  split; [exact H|].
  destruct (fallback_copies_the_staged_tree_as_it_is host_u self_A _ _ H)
    as (m & es & Hs & Hq).
  change (components "/home/u/.app/Foo/bin/foo")
    with (components (join3 (home_dir host_u) ".app" (app_name self_A)) ++ ["bin"; "foo"]).
  rewrite Hq.
  change (lookup ["bin"; "foo"] (Dir m es))
    with (match Some (Dir m es) with Some t => lookup ["bin"; "foo"] t | None => None end).
  rewrite <- Hs. vm_compute. reflexivity.
Defined.

(** X11. A rule whose staged source is a directory and whose destination
    does not exist yet: when [os.makedirs] returns, the rule has created
    the destination as an empty directory and nothing else; [copytree]
    refuses the directory that was just made, so nothing of the source is
    copied, the failure is reported by a message, and the rule ends with its
    progress value. *)
Theorem directory_rule_creates_an_empty_destination :
  forall (host : Host) (self : InstallerThread) (i n : Z) (rule : MappingRule)
         (w : world) (t : node),
    missing (source_root rule) || missing (destination_root rule) = false ->
    let name := text (source_root rule) in
    let src := join (temp_extract_dir host self) name in
    let dst := replace "$HOME" (home_dir host) (text (destination_root rule)) in
    os_path_isdir src (fs w) = true ->
    os_path_exists dst (fs w) = false ->
    os_makedirs (dmode host) dst true (fs w) = (t, None) ->
    process_mapping host self i n rule w
    = (Ok tt, emitted (Progress (mapping_progress i n))
                (emitted (Message (MsgCopyFail name dst FileExistsError)) (set_fs t w)))
    /\ lookup (components dst) t = Some (Dir (dmode host) []).
Proof.
  intros host self i n rule w t Hc name src dst Hs Hd Hm.
  pose proof (process_mapping_complete host self i n rule w Hc) as Heq.
  cbv zeta in Heq. fold name src dst in Heq. rewrite Heq. clear Heq.
  assert (Hex : os_path_exists src (fs w) = true).
  { unfold os_path_isdir in Hs. unfold os_path_exists, present.
    destruct (lookup (components src) (fs w)) as [[| |]|]; try discriminate. reflexivity. }
  assert (Hf : os_path_isfile src (fs w) = false).
  { unfold os_path_isdir in Hs. unfold os_path_isfile.
    destruct (lookup (components src) (fs w)) as [[| |]|]; try discriminate. reflexivity. }
  rewrite Hex, Hd, Hf, Hm.
  assert (Hs' : os_path_isdir src t = true).
  { unfold os_path_isdir in Hs |- *. unfold os_makedirs in Hm.
    destruct (falsy dst); [discriminate|].
    destruct (lookup (components src) (fs w)) as [[| m es |]|] eqn:Hl; try discriminate.
    destruct (mkdirs_keeps_directories _ _ _ _ _ _ _ _ _ Hl Hm) as (m' & es' & ->).
    reflexivity. }
  rewrite (copy_into_place_directory host name src dst w t Hm Hs'). cbn [snd].
  split; [reflexivity|].
  unfold os_makedirs in Hm. destruct (falsy dst); [discriminate|].
  eapply mkdirs_fresh; eauto.
Qed.

Lemma directory_rule_creates_an_empty_destination_witness :
  let rule := mkRule (Some "pkg") (Some "$HOME/opt/foo") in
  let w := snd (stage_archive host_u self_B world_B) in
  lookup (components "/home/u/opt/foo")
         (fs (snd (process_mapping host_u self_B 0 1 rule w)))
  = Some (Dir rwxr_xr_x [])
  /\ new_events w (snd (process_mapping host_u self_B 0 1 rule w))
     = [Message (MsgCopyFail "pkg" "/home/u/opt/foo" FileExistsError); Progress 100].
Proof.
  cbv zeta.
  destruct (directory_rule_creates_an_empty_destination host_u self_B 0 1
              (mkRule (Some "pkg") (Some "$HOME/opt/foo"))
              (snd (stage_archive host_u self_B world_B))
              (fst (os_makedirs (dmode host_u) "/home/u/opt/foo" true
                      (fs (snd (stage_archive host_u self_B world_B)))))
              eq_refl)
    as [Hp Hl]; [vm_compute; reflexivity ..|].
  rewrite Hp. split; [exact Hl|]. vm_compute. reflexivity.
Defined.

(** X12. The copy step of a rule whose staged source is a regular file and
    whose destination is not a directory: when [shutil.copy2] returns, the
    step returns and the destination is a regular file with the content of
    the source; its mode is the mode of the source, with the three execute
    bits added when the name of the destination is recognised as an
    executable and the source lacked the user-execute bit. *)
Theorem file_rule_installs_the_file :
  forall (host : Host) (name src dst : string) (w : world) (t : node),
    os_path_isdir src (fs w) = false ->
    os_path_isdir dst (fs w) = false ->
    shutil_copy2 src dst (fs w) = (t, None) ->
    let w' := snd (copy_into_place host name src dst w) in
    exists m d,
      lookup (components src) (fs w) = Some (File m d)
      /\ lookup (components dst) (fs w')
         = Some (File (if recognised (executable_name w) (basename dst) true false
                          && lacks_user_execute m
                       then with_execute_bits m else m) d).
Proof.
  intros host name src dst w t Hs Hd Hc w'.
  destruct (copy2_leaves_the_file src dst (fs w) t Hd Hc) as (m & d & Hsrc & Hdst).
  exists m, d. split; [exact Hsrc|].
  subst w'. rewrite copy_into_place_spec. unfold copy_and_normalize.
  rewrite bind_ask, Hs. rewrite (bind_call_ok _ _ _ _ Hc).
  assert (Hn : lookup (components dst ++ [])
                 (fs (snd (normalize_permissions dst (set_fs t w))))
               = Some (walked_entry (executable_name (set_fs t w)) dst (basename dst)
                         (File m d))).
  { apply normalize_permissions_lookup.
    - rewrite app_nil_r. exact Hdst.
    - discriminate. }
  rewrite app_nil_r in Hn. cbn [walked_entry set_fs executable_name] in Hn.
  destruct (normalize_permissions dst (set_fs t w)) as [[[]|e] w2]; cbn [snd] in *.
  - rewrite Hn. now destruct (_ && _).
  - cbn [emitted fs]. rewrite Hn. now destruct (_ && _).
Qed.

Lemma file_rule_installs_the_file_witness :
  let w := snd (stage_archive host_u self_locked world_locked) in
  let src := "/home/u/.foo_installer_temp_extract/pkg/run.sh" in
  let dst := "/home/u/bin/run.sh" in
  shutil_copy2 src dst (fs w) = (fst (shutil_copy2 src dst (fs w)), None)
  /\ lookup (components dst) (fs (snd (copy_into_place host_u "pkg/run.sh" src dst w)))
     = Some (File rwxr_xr_x (Bytes "#!/bin/sh")).
Proof.
  cbv zeta.
  assert (H : shutil_copy2 "/home/u/.foo_installer_temp_extract/pkg/run.sh"
                "/home/u/bin/run.sh"
                (fs (snd (stage_archive host_u self_locked world_locked)))
              = (fst (shutil_copy2 "/home/u/.foo_installer_temp_extract/pkg/run.sh"
                        "/home/u/bin/run.sh"
                        (fs (snd (stage_archive host_u self_locked world_locked)))), None))
    by (vm_compute; reflexivity).
  split; [exact H|].
  destruct (file_rule_installs_the_file host_u "pkg/run.sh"
              "/home/u/.foo_installer_temp_extract/pkg/run.sh" "/home/u/bin/run.sh"
              (snd (stage_archive host_u self_locked world_locked)) _
              eq_refl eq_refl H)
    as (m & d & Hsrc & Hdst).
  rewrite Hdst.
  assert (Hmd : Some (File m d) = Some (File rw_r__r__ (Bytes "#!/bin/sh"))).
  { rewrite <- Hsrc. vm_compute. reflexivity. }
  injection Hmd as -> ->. vm_compute. reflexivity.
Defined.

(* ================================================================== *)
(** ** The desktop registrar *)

Lemma try_except_returns (m : M unit) (h : exn -> M unit) w :
  (forall e w', fst (h e w') = Ok tt) ->
  fst (try_except any_Exception m h w) = Ok tt.
Proof.
  intros Hh. unfold try_except. destruct (m w) as [[[]|e] w']; [reflexivity|apply Hh].
Qed.

Section Registrar.
Variable host : Host.
Variable self : InstallerThread.

(** The state in which the descriptor is written: the applications
    directory is there and the two warnings, if any, are out. *)
Lemma create_desktop_entry_unfold w t :
  os_makedirs (dmode host) (desktop_entry_dir host) true (fs w) = (t, None) ->
  let exe := executable_name w in
  let icon := icon_path_in_zip w in
  let exe_found := os_path_exists (resolve host exe) t && os_path_isfile (resolve host exe) t in
  let icon_found :=
    os_path_exists (resolve host icon) t && os_path_isfile (resolve host icon) t in
  let content :=
    desktop_content self (if exe_found then resolve host exe else "")
                         (if icon_found then resolve host icon else "") in
  let w1 :=
    mkWorld t
      (events w
       ++ (if exe_found then [] else [Message (MsgExecutableMissing exe (resolve host exe))])
       ++ (if icon_found then [] else [Message (MsgIconMissing icon (resolve host icon))]))
      exe icon (slept w) in
  _create_desktop_entry host self w
  = try_except any_Exception
      (call (write_file (fmode host) (desktop_file_path host self) (Bytes content)) ;;
       emit (Message (MsgDesktopEntry (desktop_file_path host self))) ;;
       st <- ask (st_mode (desktop_file_path host self)) ;;
       match st with
       | Some mo => call (os_chmod (desktop_file_path host self) (Z.lor mo S_IXUSR))
       | None => raise FileNotFoundError
       end)%engine
      (fun e => emit (Message (MsgDesktopEntryFail e))) w1.
Proof.
  intros Hm exe icon exe_found icon_found content w1.
  subst w1 content. unfold _create_desktop_entry.
  unfold bind, call, ask, emit, ret, get_executable_name, get_icon_path_in_zip, try_except.
  rewrite Hm. cbn [fs set_fs executable_name icon_path_in_zip events].
  fold exe icon. fold exe_found. fold icon_found.
  destruct exe_found; cbn [fs set_fs executable_name icon_path_in_zip events];
    fold icon_found; destruct icon_found;
    cbn [fs set_fs executable_name icon_path_in_zip events app];
    rewrite ?app_nil_r, <- ?app_assoc; reflexivity.
Qed.

End Registrar.

(** X13. Once the applications directory could be made, the desktop
    registrar returns whatever happens next.  The [Exec=] and [Icon=]
    lines hold the resolved path when it names an existing regular file
    and are empty otherwise.  When the descriptor could be written it is a
    regular file at [~/.local/share/applications/<normalized name>.desktop]
    with exactly that text, and its mode has the user-execute bit. *)
Theorem registrar_writes_an_executable_descriptor :
  forall (host : Host) (self : InstallerThread) (w : world) (t t2 : node),
    os_makedirs (dmode host) (desktop_entry_dir host) true (fs w) = (t, None) ->
    let exe := executable_name w in
    let icon := icon_path_in_zip w in
    let exe_found := os_path_exists (resolve host exe) t && os_path_isfile (resolve host exe) t in
    let icon_found :=
      os_path_exists (resolve host icon) t && os_path_isfile (resolve host icon) t in
    let content :=
      desktop_content self (if exe_found then resolve host exe else "")
                           (if icon_found then resolve host icon else "") in
    let r := _create_desktop_entry host self w in
    fst r = Ok tt
    /\ (write_file (fmode host) (desktop_file_path host self) (Bytes content) t = (t2, None) ->
        exists mo,
          lookup (components (desktop_file_path host self)) (fs (snd r))
          = Some (File (Z.lor mo S_IXUSR) (Bytes content))
          /\ Z.testbit (Z.lor mo S_IXUSR) 6 = true).
Proof.
  intros host self w t t2 Hm exe icon exe_found icon_found content r.
  subst r. rewrite (create_desktop_entry_unfold host self w t Hm).
  cbv zeta. fold exe icon exe_found icon_found content.
  set (w1 := mkWorld t _ exe icon _).
  split.
  - apply try_except_returns. reflexivity.
  - intros Hw.
    destruct (alter_success_leaves (fun x => exists mo, x = File mo (Bytes content))
                (write_edit (fmode host) (Bytes content)))
      with (q := components (desktop_file_path host self)) (t := t) (t' := t2)
      as (x & Hx & mo & ->); [|exact Hw|].
    { intros pw [[m0 d0|m0 es0|tg]|] new; cbn.
      - destruct (writable m0); [|discriminate]. intros [= <-]. eauto.
      - discriminate.
      - discriminate.
      - destruct pw; [|discriminate]. intros [= <-]. eauto. }
    exists mo.
    unfold try_except. change (fs w1) with t in *.
    rewrite (bind_call_ok _ _ w1 t2 Hw), bind_emit, bind_ask.
    cbn [fs set_fs]. unfold st_mode. rewrite Hx.
    destruct (alter_replace (chmod_edit (Z.lor mo S_IXUSR)) (File mo (Bytes content))
                (File (Z.lor mo S_IXUSR) (Bytes content)) None (fun _ => eq_refl) _ _ Hx)
      as (t3 & Ha & Hq).
    unfold call, os_chmod. cbn [fs]. rewrite Ha. cbn [snd fs set_fs].
    specialize (Hq []). rewrite app_nil_r in Hq. split; [exact Hq|].
    rewrite Z.lor_spec. change (Z.testbit S_IXUSR 6) with true. apply orb_true_r.
Qed.

Lemma registrar_writes_an_executable_descriptor_witness :
  fst (_create_desktop_entry host_u self_A world_app) = Ok tt
  /\ exists mo,
       lookup (components "/home/u/.local/share/applications/foo.desktop")
              (fs (snd (_create_desktop_entry host_u self_A world_app)))
       = Some (File (Z.lor mo S_IXUSR)
                 (Bytes (desktop_content self_A "" "")))
       /\ Z.testbit (Z.lor mo S_IXUSR) 6 = true.
Proof.
  destruct (registrar_writes_an_executable_descriptor host_u self_A world_app
              (fst (os_makedirs (dmode host_u) (desktop_entry_dir host_u) true (fs world_app)))
              (fst (write_file (fmode host_u) (desktop_file_path host_u self_A)
                      (Bytes (desktop_content self_A "" ""))
                      (fst (os_makedirs (dmode host_u) (desktop_entry_dir host_u) true
                              (fs world_app)))))
              ltac:(vm_compute; reflexivity))
    as [Hok Hw].
  split; [exact Hok|]. apply Hw. vm_compute. reflexivity.
Defined.

(* ================================================================== *)
(** ** The arc of the progress bar *)

Lemma value_setValue v bar : _value (setValue v bar) = v.
Proof.
  unfold setValue. destruct (negb (_value bar =? v)) eqn:E; [reflexivity|].
  now apply negb_false_iff, Z.eqb_eq in E.
Qed.

Section Arc.
Import Binary64.
Local Open Scope Q_scope.

Lemma fround_nonneg x : 0 <= x -> fround x = round x.
Proof.
  intros H. unfold fround. destruct (Qle_bool 0 x) eqn:E; [reflexivity|].
  apply Qle_bool_iff in H. congruence.
Qed.

Lemma py_int_nonneg x : 0 <= x -> py_int x = Qfloor x.
Proof.
  intros H. unfold py_int. destruct (Qle_bool 0 x) eqn:E; [reflexivity|].
  apply Qle_bool_iff in H. congruence.
Qed.

Lemma quotient_nonneg a b : (0 <= a)%Z -> (0 < b)%Z -> 0 <= inject_Z a / inject_Z b.
Proof.
  intros Ha Hb. apply Qle_shift_div_l.
  - change 0 with (inject_Z 0). now rewrite <- Zlt_Qlt.
  - rewrite Qmult_0_l. change 0 with (inject_Z 0). now rewrite <- Zle_Qle.
Qed.

Lemma round_zero x : x == 0 -> round x = 0.
Proof.
  intros H. unfold round. destruct (Qle_bool x 0) eqn:E; [reflexivity|].
  assert (Hle : x <= 0) by (rewrite H; apply Qle_refl).
  apply Qle_bool_iff in Hle. congruence.
Qed.

Lemma fdiv_bounds a b : (0 <= a <= b)%Z -> (0 < b)%Z -> 0 <= fdiv a b <= 1.
Proof.
  intros Ha Hb. unfold fdiv. rewrite fround_nonneg by (apply quotient_nonneg; lia).
  split; [apply round_nonneg|].
  apply (round_le_int _ 1 (2 ^ 52) (-52)); [reflexivity|lia|].
  apply Qle_shift_div_r.
  - change 0 with (inject_Z 0). now rewrite <- Zlt_Qlt.
  - rewrite Qmult_1_l. rewrite <- Zle_Qle. lia.
Qed.

Lemma fmul_360_bounds q : 0 <= q <= 1 -> 0 <= fmul q 360 <= 360.
Proof.
  intros [H0 H1]. unfold fmul.
  assert (Hp : 0 <= q * inject_Z 360) by (change (inject_Z 360) with 360; lra).
  rewrite (fround_nonneg _ Hp). split; [apply round_nonneg|].
  apply (round_le_int _ 360 (360 * 2 ^ 44) (-44)); [reflexivity|lia|].
  change (inject_Z 360) with 360. lra.
Qed.

Lemma fmul_16_bounds s : 0 <= s <= 360 -> 0 <= fmul s 16 <= 5760.
Proof.
  intros [H0 H1]. unfold fmul.
  assert (Hp : 0 <= s * inject_Z 16) by (change (inject_Z 16) with 16; lra).
  rewrite (fround_nonneg _ Hp). split; [apply round_nonneg|].
  apply (round_le_int _ 5760 (5760 * 2 ^ 40) (-40)); [reflexivity|lia|].
  change (inject_Z 16) with 16. change (inject_Z 5760) with 5760. lra.
Qed.

Lemma fdiv_monotone a b n :
  (0 <= a <= b)%Z -> (0 < n)%Z -> fdiv a n <= fdiv b n.
Proof.
  intros Hab Hn. unfold fdiv.
  rewrite !fround_nonneg by (apply quotient_nonneg; lia).
  apply round_monotone. apply Qmult_le_compat_r.
  - rewrite <- Zle_Qle. lia.
  - apply Qlt_le_weak, Qinv_lt_0_compat.
    change 0 with (inject_Z 0). now rewrite <- Zlt_Qlt.
Qed.

Lemma fmul_monotone x y k :
  (0 <= k)%Z -> 0 <= x -> x <= y -> fmul x k <= fmul y k.
Proof.
  intros Hk Hx Hxy. unfold fmul.
  assert (Hk' : 0 <= inject_Z k) by (change 0 with (inject_Z 0); now rewrite <- Zle_Qle).
  assert (H1 : 0 <= x * inject_Z k) by (apply Qmult_le_0_compat; auto).
  assert (H2 : x * inject_Z k <= y * inject_Z k) by (apply Qmult_le_compat_r; auto).
  rewrite !fround_nonneg; [apply round_monotone; exact H2| |exact H1].
  eapply Qle_trans; eauto.
Qed.

Lemma fdiv_same n : (0 < n)%Z -> fdiv n n == 1.
Proof.
  intros Hn. unfold fdiv. rewrite fround_nonneg by (apply quotient_nonneg; lia).
  apply (true_div_same n Hn).
Qed.

Lemma fdiv_zero n : fdiv 0 n = 0.
Proof.
  unfold fdiv.
  assert (H : inject_Z 0 / inject_Z n == 0) by (unfold Qdiv; apply Qmult_0_l).
  assert (H0 : 0 <= inject_Z 0 / inject_Z n) by (rewrite H; apply Qle_refl).
  rewrite (fround_nonneg _ H0). now apply round_zero.
Qed.

Lemma fmul_zero k : fmul 0 k = 0.
Proof.
  unfold fmul.
  assert (H : 0 * inject_Z k == 0) by apply Qmult_0_l.
  assert (H0 : 0 <= 0 * inject_Z k) by (rewrite H; apply Qle_refl).
  rewrite (fround_nonneg _ H0). now apply round_zero.
Qed.

Lemma span_angle_bounds bar :
  (_min bar < _max bar)%Z -> (_min bar <= _value bar <= _max bar)%Z ->
  0 <= span_angle bar <= 360.
Proof.
  intros Hr Hv. unfold span_angle.
  replace (_max bar =? _min bar)%Z with false by (symmetry; apply Z.eqb_neq; lia).
  apply fmul_360_bounds, fdiv_bounds; lia.
Qed.

Lemma arc_span_of_angle bar :
  0 <= span_angle bar <= 360 ->
  arc_span bar = (- Qfloor (fmul (span_angle bar) 16))%Z
  /\ 0 <= fmul (span_angle bar) 16 <= 5760.
Proof.
  intros H. pose proof (fmul_16_bounds _ H) as Hb.
  unfold arc_span. rewrite py_int_nonneg by apply Hb. auto.
Qed.

Lemma range_setValue v bar :
  _min (setValue v bar) = _min bar /\ _max (setValue v bar) = _max bar.
Proof. unfold setValue. now destruct (negb _). Qed.

(** Between two bars of the same range, the one with the larger value has
    the longer arc. *)
Lemma arc_span_antitone bar bar' :
  _min bar' = _min bar -> _max bar' = _max bar ->
  (_min bar < _max bar)%Z ->
  (_min bar <= _value bar <= _value bar')%Z -> (_value bar' <= _max bar)%Z ->
  (arc_span bar' <= arc_span bar)%Z.
Proof.
  intros Hmin Hmax Hr Hv Hv'.
  assert (Hs : 0 <= span_angle bar <= 360) by (apply span_angle_bounds; lia).
  assert (Hs' : 0 <= span_angle bar' <= 360) by (apply span_angle_bounds; lia).
  destruct (arc_span_of_angle _ Hs) as [Ha _].
  destruct (arc_span_of_angle _ Hs') as [Ha' _].
  rewrite Ha, Ha'.
  assert (Hle : fmul (span_angle bar) 16 <= fmul (span_angle bar') 16).
  { apply fmul_monotone; [lia|apply Hs|].
    unfold span_angle. rewrite Hmin, Hmax.
    replace (_max bar =? _min bar)%Z with false by (symmetry; apply Z.eqb_neq; lia).
    apply fmul_monotone; [lia|apply fdiv_bounds; lia|].
    apply fdiv_monotone; lia. }
  apply Qfloor_resp_le in Hle. lia.
Qed.

Lemma arc_span_bounds bar :
  (_min bar < _max bar)%Z -> (_min bar <= _value bar <= _max bar)%Z ->
  (-5760 <= arc_span bar)%Z /\ (arc_span bar <= 0)%Z.
Proof.
  intros Hr Hv.
  pose proof (span_angle_bounds bar Hr Hv) as Hs.
  destruct (arc_span_of_angle bar Hs) as [Ha [H0 H1]].
  rewrite Ha. apply Qfloor_resp_le in H0. apply Qfloor_resp_le in H1.
  change (Qfloor 0) with 0%Z in H0. change (Qfloor 5760) with 5760%Z in H1. lia.
Qed.

End Arc.

(** X14. The arc of the progress bar.  For a range [min < max] and a value
    inside it, the span handed to [drawArc] lies between a full clockwise
    turn ([-5760] sixteenths of a degree) and 0; it is 0 at [min] and the
    full turn at [max]; and a larger value never gives a shorter arc.  For
    an empty range ([max = min]) the division is skipped and the span is 0
    whatever the value. *)
Theorem arc_span_stays_within_one_turn :
  forall bar : CircularProgressBar,
    (_min bar < _max bar ->
     _min bar <= _value bar <= _max bar ->
     -5760 <= arc_span bar <= 0
     /\ (_value bar = _min bar -> arc_span bar = 0)
     /\ (_value bar = _max bar -> arc_span bar = -5760)
     /\ forall value,
          _value bar <= value <= _max bar ->
          arc_span (setValue value bar) <= arc_span bar)
    /\ (_max bar = _min bar -> arc_span bar = 0).
Proof.
  intros bar. split.
  - intros Hr Hv.
    pose proof (span_angle_bounds bar Hr Hv) as Hs.
    destruct (arc_span_of_angle bar Hs) as [Ha Hb].
    split; [|split; [|split]].
    + destruct (arc_span_bounds bar Hr Hv). lia.
    + intros E. unfold arc_span, span_angle.
      replace (_max bar =? _min bar) with false by (symmetry; apply Z.eqb_neq; lia).
      rewrite E, Z.sub_diag, fdiv_zero, !fmul_zero. reflexivity.
    + intros E. rewrite Ha. unfold span_angle.
      replace (_max bar =? _min bar) with false by (symmetry; apply Z.eqb_neq; lia).
      rewrite E.
      assert (H360 : fmul (fdiv (_max bar - _min bar) (_max bar - _min bar)) 360 == 360%Q).
      { unfold fmul. rewrite fround_nonneg.
        - apply (round_exact _ 360 (360 * 2 ^ 44) (-44)); [reflexivity|lia|].
          rewrite fdiv_same by lia. reflexivity.
        - rewrite fdiv_same by lia. discriminate. }
      assert (H5760 : fmul (fmul (fdiv (_max bar - _min bar) (_max bar - _min bar)) 360) 16
                      == 5760%Q).
      { unfold fmul at 1. rewrite fround_nonneg.
        - apply (round_exact _ 5760 (5760 * 2 ^ 40) (-40)); [reflexivity|lia|].
          rewrite H360. reflexivity.
        - rewrite H360. discriminate. }
      rewrite H5760. reflexivity.
    + intros value Hvalue.
      destruct (range_setValue value bar) as [Hmin Hmax].
      apply arc_span_antitone; auto; rewrite value_setValue; lia.
  - intros E. unfold arc_span, span_angle. rewrite E, Z.eqb_refl.
    change (inject_Z 0) with 0%Q. rewrite fmul_zero. reflexivity.
Qed.

Lemma arc_span_stays_within_one_turn_witness :
  _min (setValue 28 new_bar) < _max (setValue 28 new_bar)
  /\ -5760 <= arc_span (setValue 28 new_bar) <= 0.
Proof.
  assert (H1 : _min (setValue 28 new_bar) < _max (setValue 28 new_bar)) by (cbn; lia).
  assert (H2 : _min (setValue 28 new_bar) <= _value (setValue 28 new_bar)
               <= _max (setValue 28 new_bar)) by (cbn; lia).
  split; [exact H1|].
  exact (proj1 (proj1 (arc_span_stays_within_one_turn (setValue 28 new_bar)) H1 H2)).
Defined.

Example arc_agrees_with_hardware_floats :
  forallb (fun v => arc_span (setValue (Z.of_nat v) new_bar)
                    =? prim_arc_span (Z.of_nat v) 0 100)
          (seq 0 101) = true.
Proof. vm_compute. reflexivity. Qed.

(* ================================================================== *)
(** ** The window during and after a run *)

Lemma show_setValue v bar : _show_percentage (setValue v bar) = _show_percentage bar.
Proof. unfold setValue. now destruct (negb _). Qed.

Lemma show_setShowPercentage b bar : _show_percentage (setShowPercentage b bar) = b.
Proof.
  unfold setShowPercentage. destruct (negb (Bool.eqb (_show_percentage bar) b)) eqn:E;
    [reflexivity|].
  now apply negb_false_iff, Bool.eqb_prop in E.
Qed.

Lemma deliver_messages l self :
  Forall is_message l -> fold_left deliver l self = self.
Proof.
  intros H. revert self. induction H as [|e l He Hl IH]; intros self; [reflexivity|].
  destruct e; try contradiction. cbn [fold_left deliver]. apply IH.
Qed.

Lemma from_cleaner_is_message e : from_cleaner e -> is_message e.
Proof. destruct e as [v|m|b]; cbn; auto. Qed.

(** X15. After a click on the install button and the signals of the run it
    starts, delivered in order, the window shows the outcome of the run,
    whatever progress values came before: on success the bar stands at 100
    and the button is disabled and reads as installed; on failure the bar
    is back at 0 and the button is enabled again for another try; in both
    cases the percentage is hidden and the bar is white. *)
Theorem window_shows_the_outcome_of_the_run :
  forall (host : Host) (self : InstallerThread) (w : world) (window : CleanModernInstaller),
    let success := valid_archive self w && returned (fst (install_steps host self w)) in
    let window' := after_signals (new_events w (snd (run host self w))) window in
    _value (progress_bar window') = (if success then 100 else 0)
    /\ install_button_enabled window' = negb success
    /\ install_button_text window' = (if success then AllSet else TryAgain)
    /\ status_label_text window' = (if success then HookedUp else Choked)
    /\ _show_percentage (progress_bar window') = false
    /\ _bar_color (progress_bar window') = white
    /\ _bg_color (progress_bar window') = white.
Proof.
  intros host self w window success window'.
  assert (Hev : exists pre post,
             new_events w (snd (run host self w)) = pre ++ [Finished success] ++ post
             /\ Forall is_message post).
  { rewrite run_unfold.
    destruct (cleanup_spec host self (snd (run_guarded host self w)))
      as (staging & icons & w2 & Hc & Hev & Hs & _ & Hi & _).
    rewrite Hc. cbn [snd].
    destruct (run_guarded_outcome host self w) as (pre & Hg & Hpre).
    exists pre, (staging ++ icons). split.
    - apply new_events_app. rewrite Hev, Hg. now rewrite <- !app_assoc.
    - eapply Forall_impl; [exact from_cleaner_is_message|].
      now apply attempts_from_cleaner. }
  destruct Hev as (pre & post & Hev & Hpost).
  subst window'. unfold after_signals. rewrite Hev, !fold_left_app.
  rewrite (deliver_messages post _ Hpost). cbn [fold_left deliver].
  set (g := fold_left deliver pre (_start_installation window)).
  unfold _installation_finished.
  destruct success; cbn [progress_bar install_button_enabled install_button_text
                         status_label_text setBarColors _value _show_percentage
                         _bar_color _bg_color negb];
    rewrite show_setShowPercentage, ?value_setValue;
    repeat split.
  - unfold setShowPercentage.
    destruct (negb _); cbn [_value]; apply value_setValue.
  - unfold setShowPercentage.
    destruct (negb _); cbn [_value]; apply value_setValue.
Qed.

Lemma progress_values_snoc l e :
  progress_values (l ++ [e])
  = progress_values l ++ match e with Progress v => [v] | _ => [] end.
Proof. rewrite progress_values_app. cbn. now destruct e. Qed.

(** The window while no completion signal has been delivered. *)
Lemma running_window l window :
  Forall still_running l ->
  let window' := after_signals l window in
  install_button_enabled window' = false
  /\ _show_percentage (progress_bar window') = true
  /\ _value (progress_bar window') = last (progress_values l) 0
  /\ threads_started window' = S (threads_started window)
  /\ _min (progress_bar window') = _min (progress_bar window)
  /\ _max (progress_bar window') = _max (progress_bar window).
Proof.
  unfold after_signals.
  induction l as [|e l IH] using rev_ind; intros H.
  - cbn [fold_left _start_installation install_button_enabled progress_bar
         threads_started progress_values flat_map last].
    destruct (range_setValue 0
                (setBarColors (220, 220, 220) (0, 150, 57)
                   (setShowPercentage true (progress_bar window)))) as [-> ->].
    rewrite value_setValue, show_setValue. cbn [setBarColors _show_percentage _min _max].
    rewrite show_setShowPercentage.
    unfold setShowPercentage. destruct (negb _); auto 10.
  - apply Forall_app in H as [Hl He]. apply Forall_inv in He.
    specialize (IH Hl). cbv zeta in IH. destruct IH as (H1 & H2 & H3 & H4 & H5 & H6).
    cbv zeta. rewrite fold_left_app. cbn [fold_left].
    rewrite progress_values_snoc.
    destruct e as [v|m|b]; [| |contradiction].
    + cbn [deliver install_button_enabled progress_bar threads_started].
      destruct (range_setValue v
                  (progress_bar (fold_left deliver l (_start_installation window))))
        as [-> ->].
      rewrite value_setValue, show_setValue, last_last. auto 10.
    + cbn [deliver]. rewrite app_nil_r. auto 10.
Qed.

(** X16. While the thread has not emitted its completion signal, the
    install button stays disabled, the percentage is shown, and the bar
    holds the last progress value delivered (0 before the first one), in
    the range it had: messages change nothing in the window. *)
Theorem window_follows_the_progress_while_running :
  forall (l : list event) (window : CleanModernInstaller),
    Forall still_running l ->
    let window' := after_signals l window in
    install_button_enabled window' = false
    /\ _show_percentage (progress_bar window') = true
    /\ _value (progress_bar window') = last (progress_values l) 0
    /\ threads_started window' = S (threads_started window)
    /\ _min (progress_bar window') = _min (progress_bar window)
    /\ _max (progress_bar window') = _max (progress_bar window).
Proof. intros l window H. now apply running_window. Qed.

Lemma window_follows_the_progress_while_running_witness :
  Forall still_running [Progress 25; Message MsgDone; Progress 50]
  /\ _value (progress_bar (after_signals [Progress 25; Message MsgDone; Progress 50]
                             new_window)) = 50.
Proof.
  assert (H : Forall still_running [Progress 25; Message MsgDone; Progress 50])
    by (repeat constructor).
  split; [exact H|].
  exact (proj1 (proj2 (proj2
           (window_follows_the_progress_while_running
              [Progress 25; Message MsgDone; Progress 50] new_window H)))).
Defined.

(* ================================================================== *)
(** ** The constructor of the window *)

(** X17. A manifest that passes the loader without being a JSON object (an
    array that has the two words among its items, or a string that
    contains them) makes the constructor raise [AttributeError] at
    [self.metadata.get] instead of starting or exiting. *)
Theorem manifest_that_is_no_object_crashes_the_constructor :
  forall (json_loads : string -> option json) (zip_path : string) (tree : node)
         (st : loader_state),
    _load_package_metadata json_loads zip_path (mkLoader tree Startup.default_metadata)
    = (true, st) ->
    (forall members, metadata st <> JObject members) ->
    Startup.__init__ json_loads zip_path tree = Startup.Crashed Startup.AttributeError.
Proof.
  intros json_loads zip_path tree st Hl Hm. unfold Startup.__init__. rewrite Hl.
  cbn [negb]. destruct (metadata st) as [| | | | |members]; try reflexivity.
  now destruct (Hm members).
Qed.

Lemma manifest_that_is_no_object_crashes_the_constructor_witness :
  _load_package_metadata Startup.json_loads_words "/home/u/app.zip"
    (mkLoader (package "words") Startup.default_metadata)
  = (true, mkLoader (package "words") (JArray [JString "app_name"; JString "version"]))
  /\ Startup.__init__ Startup.json_loads_words "/home/u/app.zip" (package "words")
     = Startup.Crashed Startup.AttributeError.
Proof.
  assert (H : _load_package_metadata Startup.json_loads_words "/home/u/app.zip"
                (mkLoader (package "words") Startup.default_metadata)
              = (true, mkLoader (package "words")
                         (JArray [JString "app_name"; JString "version"])))
    by (vm_compute; reflexivity).
  split; [exact H|].
  apply (manifest_that_is_no_object_crashes_the_constructor _ _ _ _ H).
  intros members. discriminate.
Defined.

Lemma join_not_empty a b : falsy a = false -> falsy (join a b) = false.
Proof.
  intros Ha. unfold join.
  destruct (startswith "/" b) eqn:Eb.
  - destruct b; [discriminate|reflexivity].
  - destruct a; [discriminate|]. now destruct (_ || _).
Qed.

(** X18. When the constructor gets past line 420, the executable name and
    the icon path that the window will hand to the installer thread are
    never empty (nor any other false value): a value of the manifest is
    kept when it is true, otherwise the default under [.app/<app_name>]
    takes its place.  The constructor exits with status 1 exactly when the
    loader fails. *)
Theorem constructor_hands_over_names_that_are_not_empty :
  forall (json_loads : string -> option json) (zip_path : string) (tree : node),
    let r := Startup.__init__ json_loads zip_path tree in
    (forall s, r = Startup.Started s ->
       Startup.truthy (Startup.executable_name s) = true
       /\ Startup.truthy (Startup.icon_path_for_desktop s) = true)
    /\ (r = Startup.Exited 1 <->
        fst (_load_package_metadata json_loads zip_path
               (mkLoader tree Startup.default_metadata)) = false).
Proof.
  intros json_loads zip_path tree r. subst r. unfold Startup.__init__.
  destruct (_load_package_metadata json_loads zip_path
              (mkLoader tree Startup.default_metadata)) as [[|] st]; cbn [negb fst].
  2:{ split; [discriminate|]. split; reflexivity. }
  destruct (metadata st) as [| | | | |members];
    try (split; [discriminate|]; split; discriminate).
  set (a := Startup.get members "app_name" (JString "FreedomApp")).
  set (x := Startup.get members "executable_name" JNull).
  set (i := Startup.get members "icon_path" JNull).
  split; [|split; [|discriminate]].
  - intros s.
    destruct (Startup.truthy x) eqn:Ex, (Startup.truthy i) eqn:Ei;
      destruct a as [| | |name| |]; try discriminate;
      intros [= <-]; cbn [Startup.executable_name Startup.icon_path_for_desktop];
      rewrite ?Ex, ?Ei; cbn [Startup.truthy]; unfold join3;
      rewrite ?join_not_empty; auto using join_not_empty.
  - destruct (Startup.truthy x), (Startup.truthy i); destruct a; discriminate.
Qed.

(* ================================================================== *)
(** ** The icon preview *)

(** An edit that leaves directories alone keeps every directory of the
    tree a directory. *)
Lemma alter_keeps_directories f :
  (forall pw m es, fst (f pw (Some (Dir m es))) = Some (Dir m es)) ->
  forall q p t m es,
    lookup p t = Some (Dir m es) ->
    exists m' es', lookup p (fst (alter f q t)) = Some (Dir m' es').
Proof.
  intros Hf. induction q as [|c q IH]; intros p t m es Hl.
  - cbn [alter]. destruct t as [mo d|m0 es0|tg].
    + destruct (f false (Some (File mo d))) as [[n'|] e]; cbn [fst];
        destruct p; try discriminate.
    + specialize (Hf false m0 es0).
      destruct (f false (Some (Dir m0 es0))) as [[n'|] e]; cbn [fst] in *;
        [injection Hf as ->|]; eauto.
    + destruct (f false (Some (Symlink tg))) as [[n'|] e]; cbn [fst];
        destruct p; try discriminate.
  - destruct t as [mo d|m0 es0|tg]; try solve [destruct q; cbn [alter fst]; eauto].
    destruct p as [|d p].
    { destruct q as [|c' q'].
      - cbn [alter]. unfold apply_edit.
        destruct (fst (f (writable m0) (find_entry c es0))); cbn; eauto.
      - rewrite alter_cons_cons. destruct (find_entry c es0) as [x|]; [|cbn; eauto].
        destruct (alter f (c' :: q') x) as [x' e]. cbn. eauto. }
    cbn [lookup] in Hl.
    destruct (find_entry d es0) as [y|] eqn:Ey; [|discriminate].
    destruct q as [|c' q'].
    + cbn [alter]. unfold apply_edit.
      destruct (string_dec c d) as [->|Hne].
      * rewrite Ey.
        assert (Hy : exists my esy, y = Dir my esy).
        { destruct y as [mo dt|my esy|tg]; eauto; destruct p; discriminate. }
        destruct Hy as (my & esy & ->). specialize (Hf (writable m0) my esy).
        destruct (f (writable m0) (Some (Dir my esy))) as [new e]. cbn [fst] in *.
        subst new. cbn [fst snd lookup]. rewrite find_set_same. eauto.
      * destruct (fst (f (writable m0) (find_entry c es0))); cbn [fst lookup].
        -- rewrite find_set_other by exact Hne. rewrite Ey. eauto.
        -- rewrite find_del_other by exact Hne. rewrite Ey. eauto.
    + rewrite alter_cons_cons.
      destruct (find_entry c es0) as [x|] eqn:Ex.
      * specialize (IH p x).
        destruct (alter f (c' :: q') x) as [x' e]. cbn [fst lookup] in *.
        destruct (string_dec c d) as [->|Hne].
        -- rewrite find_set_same. rewrite Ey in Ex. injection Ex as <-. eauto.
        -- rewrite find_set_other by exact Hne. rewrite Ey. eauto.
      * cbn [fst lookup]. rewrite Ey. eauto.
Qed.

(** [ZipFile.extract] keeps every directory a directory. *)
Lemma zip_extract_keeps_directories dm fm member path p t m es :
  lookup p t = Some (Dir m es) ->
  exists m' es', lookup p (fst (zip_extract dm fm member path t)) = Some (Dir m' es').
Proof.
  intros Hl. unfold zip_extract.
  set (targetpath := normpath (join path (arcname member))).
  set (upperdirs := dirname targetpath).
  assert (H1 : exists t1 e1,
             (if negb (falsy upperdirs) && negb (os_path_exists upperdirs t)
              then os_makedirs dm upperdirs false t else (t, None)) = (t1, e1)
             /\ exists m1 es1, lookup p t1 = Some (Dir m1 es1)).
  { destruct (negb (falsy upperdirs) && negb (os_path_exists upperdirs t)).
    - unfold os_makedirs. destruct (falsy upperdirs); [do 2 eexists; split; eauto|].
      destruct (mkdirs dm false (components upperdirs) t) as [t1 e1] eqn:Em.
      exists t1, e1. split; [reflexivity|].
      eapply mkdirs_keeps_directories; eauto.
    - do 2 eexists. split; eauto. }
  destruct H1 as (t1 & e1 & -> & m1 & es1 & Hl1).
  destruct e1 as [e|]; [cbn; eauto|].
  destruct (is_dir member) as [[|]|]; [| |cbn; eauto].
  - destruct (os_path_isdir targetpath t1); [cbn; eauto|].
    unfold os_mkdir. eapply alter_keeps_directories; [intros pw m0 es0; reflexivity|eauto].
  - unfold write_file. eapply alter_keeps_directories; [intros pw m0 es0; reflexivity|eauto].
Qed.

(** X19. Building the progress bar of the window extracts the icon for its
    preview.  Nothing but [os.makedirs] can raise from
    [_get_app_icon_pixmap]; and whenever it returns, found icon or not, it
    leaves the icon-preview directory in the home directory: the very
    directory that the installer thread of the same application removes in
    its cleaner, and that stays there when no run is started. *)
Theorem icon_preview_leaves_its_directory_behind :
  forall (host : Host) (self : InstallerThread) (icon_path_for_desktop : string)
         (tree tree' : node) (pixmap : option string),
    _get_app_icon_pixmap host (zip_path self) (app_name self) icon_path_for_desktop tree
    = (tree', None, pixmap) ->
    os_path_isdir (temp_icon_display_dir host self) tree' = true.
Proof.
  intros host self icon tree tree' pixmap H.
  unfold _get_app_icon_pixmap in H.
  change (join (home_dir host)
            ("." ++ replace " " "" (lower (app_name self)) ++ "_installer_display_temp_icon"))
    with (temp_icon_display_dir host self) in H.
  set (dir := temp_icon_display_dir host self) in *.
  destruct (os_makedirs (dmode host) dir true tree) as [tree1 [e|]] eqn:Em; [discriminate|].
  assert (Hd : exists m es, lookup (components dir) tree1 = Some (Dir m es)).
  { unfold os_makedirs in Em. destruct (falsy dir); [discriminate|].
    eapply mkdirs_makes_directory; eauto. }
  destruct Hd as (m & es & Hd).
  assert (Hkeep : os_path_isdir dir tree1 = true) by (unfold os_path_isdir; now rewrite Hd).
  assert (Hex : forall name r,
             match getinfo name (infolist r) with
             | Some member =>
                 match zip_extract (dmode host) (fmode host) member dir tree1 with
                 | (tree2, None) =>
                     (tree2, @None exn, Some (normpath (join dir (arcname member))))
                 | (tree2, Some _) => (tree2, None, None)
                 end
             | None => (tree1, None, None)
             end = (tree', None, pixmap) ->
             os_path_isdir dir tree' = true).
  { intros name r Hr. destruct (getinfo name (infolist r)) as [member|].
    - destruct (zip_extract_keeps_directories (dmode host) (fmode host) member dir
                  _ _ _ _ Hd) as (m' & es' & Hl).
      destruct (zip_extract (dmode host) (fmode host) member dir tree1) as [tree2 [e|]];
        injection Hr as <- _; cbn [fst] in Hl; unfold os_path_isdir; now rewrite Hl.
    - now injection Hr as <- _. }
  destruct (lookup (components (zip_path self)) tree1) as [[mo [b|z]| |]|];
    try (injection H as <- _; exact Hkeep).
  destruct (central_directory_ok z); [|injection H as <- _; exact Hkeep].
  destruct (existsb (String.eqb (lstrip "./" icon)) (namelist z)); [eapply Hex; eauto|].
  destruct (existsb (String.eqb (basename (lstrip "./" icon))) (namelist z));
    [eapply Hex; eauto|].
  injection H as <- _. exact Hkeep.
Qed.

Lemma icon_preview_leaves_its_directory_behind_witness :
  let r := _get_app_icon_pixmap host_u "/home/u/app.zip" "Foo" "./bin/foo" fs_A in
  snd r = Some "/home/u/.foo_installer_display_temp_icon/bin/foo"
  /\ os_path_isdir "/home/u/.foo_installer_display_temp_icon" (fst (fst r)) = true.
Proof.
  cbv zeta. split; [vm_compute; reflexivity|].
  apply (icon_preview_leaves_its_directory_behind host_u self_A "./bin/foo" fs_A _
           (Some "/home/u/.foo_installer_display_temp_icon/bin/foo")).
  vm_compute. reflexivity.
Defined.

(* ================================================================== *)
(** ** Rules that lack a field, and a stale staging directory *)

(** X20. An install map whose rules all lack a field installs nothing: the
    loop returns, the tree and the two names are as they were, and its
    signals are one incomplete-rule message per rule, with no progress
    value at all. *)
Theorem incomplete_rules_install_nothing :
  forall (host : Host) (self : InstallerThread) (maps : list MappingRule) (i n : Z)
         (w : world),
    forallb (fun rule => negb (complete rule)) maps = true ->
    mapping_loop host self i n maps w
    = (Ok tt,
       mkWorld (fs w)
         (events w ++ map (fun rule => Message (MsgIncompleteMap rule)) maps)
         (executable_name w) (icon_path_in_zip w) (slept w)).
Proof.
  intros host self maps. induction maps as [|rule r IH]; intros i n w H.
  - cbn. rewrite app_nil_r. now destruct w.
  - cbn [forallb] in H. apply andb_prop in H as [H1 H2].
    unfold complete in H1. rewrite negb_involutive in H1.
    cbn [mapping_loop]. unfold bind.
    rewrite (process_mapping_incomplete host self i n rule w H1).
    rewrite (IH _ _ _ H2). cbn [emitted fs events executable_name icon_path_in_zip map].
    now rewrite <- app_assoc.
Qed.

Lemma incomplete_rules_install_nothing_witness :
  forallb (fun rule => negb (complete rule)) (install_map self_incomplete) = true
  /\ fs (snd (mapping_loop host_u self_incomplete 0 1 (install_map self_incomplete)
                world_staged))
     = fs world_staged.
Proof.
  split; [reflexivity|].
  rewrite (incomplete_rules_install_nothing host_u self_incomplete
             (install_map self_incomplete) 0 1 world_staged eq_refl).
  reflexivity.
Defined.

(** X21. A staging directory left by an earlier run that [shutil.rmtree]
    cannot remove stops the run before anything is extracted: the guarded
    body emits the staging message, the message of the exception and the
    failure signal, and leaves the tree as the failed removal left it. *)
Theorem stale_staging_directory_fails_the_run :
  forall (host : Host) (self : InstallerThread) (w : world) (t : node) (e : exn),
    valid_archive self w = true ->
    os_path_exists (temp_extract_dir host self) (fs w) = true ->
    shutil_rmtree (temp_extract_dir host self) (fs w) = (t, Some e) ->
    run_guarded host self w
    = (Ok tt,
       mkWorld t
         (events w ++ [Message (MsgTempSpot (temp_extract_dir host self));
                       Message (MsgBlewUp e); Finished false])
         (executable_name w) (icon_path_in_zip w) (slept w)).
Proof.
  intros host self w t e Hv Hx Hr.
  unfold run_guarded, try_except, install. rewrite bind_ask.
  unfold valid_archive in Hv. rewrite Hv. cbn [negb].
  unfold install_steps, stage_archive.
  rewrite !bind_assoc, bind_emit, !bind_assoc, bind_ask. cbn [fs].
  rewrite Hx. cbn [when].
  rewrite !bind_assoc.
  erewrite bind_call_raise by (cbn [fs]; exact Hr).
  cbn [any_Exception]. unfold bind, emit. cbn [set_fs fs events executable_name icon_path_in_zip].
  now rewrite <- !app_assoc.
Qed.

Lemma stale_staging_directory_fails_the_run_witness :
  completions (events (snd (run_guarded host_u self_B world_stale))) = [false]
  /\ os_path_exists (temp_extract_dir host_u self_B)
                    (fs (snd (run_guarded host_u self_B world_stale))) = true.
Proof.
  rewrite (stale_staging_directory_fails_the_run host_u self_B world_stale
             (fst (shutil_rmtree (temp_extract_dir host_u self_B) (fs world_stale)))
             PermissionError eq_refl eq_refl
             ltac:(vm_compute; reflexivity)).
  split; vm_compute; reflexivity.
Defined.

(* ================================================================== *)
(** ** The paths of the descriptor *)

Lemma lstrip_idempotent chars s : lstrip chars (lstrip chars s) = lstrip chars s.
Proof.
  induction s as [|a t IH]; [reflexivity|].
  cbn [lstrip]. destruct (contains a chars) eqn:E; [exact IH|].
  cbn [lstrip]. now rewrite E.
Qed.

(** X22. The desktop registrar resolves a name by stripping every leading
    dot and slash and joining the rest to the home directory.  Whatever the
    name, an absolute one included, the resolved path starts with the home
    directory; names that differ only by leading dots and slashes resolve
    to the same path; and a name that starts with neither is resolved as
    [os.path.join(home, name)]. *)
Theorem resolved_paths_start_with_the_home_directory :
  forall (host : Host) (name : string),
    String.prefix (home_dir host) (resolve host name) = true
    /\ resolve host (lstrip "./" name) = resolve host name
    /\ (startswith "." name = false -> startswith "/" name = false ->
        resolve host name = join (home_dir host) name).
Proof.
  intros host name. split; [apply resolve_under_home|]. split.
  - unfold resolve. now rewrite lstrip_idempotent.
  - apply resolve_plain.
Qed.

(* ================================================================== *)
(** ** What the install mapper leaves alone *)









Section MapperFrame.
Variable host : Host.
Variable self : InstallerThread.




End MapperFrame.

(** The places of [install_roots] are those the paths of [install_paths]
    name. *)
Lemma install_roots_of_paths host self :
  install_roots host self = map components (install_paths host self).
Proof.
  unfold install_roots, install_paths.
  destruct (install_map self) as [|rule r]; [reflexivity|].
  generalize (rule :: r). intros maps.
  induction maps as [|x maps IH]; [reflexivity|].
  cbn [flat_map]. rewrite map_app, <- IH. f_equal.
  unfold rule_roots, rule_paths.
  now destruct (missing (source_root x) || missing (destination_root x)).
Qed.

(** A destination that is a symbolic link, or that lies behind one, is not
    covered. *)
Example linked_destination_is_set_aside :
  let t := root_with_home [("x", Dir rwxr_xr_x [("dst", Symlink "/srv/real")])] in
  follows_no_link "/home/u/x/dst" t = false
  /\ follows_no_link "/home/u/x/dst/run.sh" t = false
  /\ follows_no_link "/home/u/x/dst/../other" t = false
  /\ follows_no_link "/home/u/x/other" t = true.
Proof. vm_compute. repeat split. Qed.



(* ================================================================== *)
(** ** The normalized name *)

Lemma replace_space_from s : contains " " (replace_from 0 " " "" s) = false.
Proof.
  induction s as [|a t IH]; [reflexivity|].
  cbn [replace_from]. rewrite prefix_char.
  destruct (Ascii.eqb " " a) eqn:E.
  - cbn [String.length Nat.sub String.append]. exact IH.
  - cbn [contains]. rewrite IH, orb_false_r.
    rewrite Ascii.eqb_sym. exact E.
Qed.

Lemma replace_space_keeps c s :
  contains c (replace_from 0 " " "" s) = true -> contains c s = true.
Proof.
  induction s as [|a t IH]; [discriminate|].
  cbn [replace_from]. rewrite prefix_char.
  destruct (Ascii.eqb " " a).
  - cbn [String.length Nat.sub String.append]. intros H. cbn [contains].
    rewrite (IH H). apply orb_true_r.
  - cbn [contains]. intros H. apply orb_prop in H as [H|H].
    + now rewrite H.
    + rewrite (IH H). apply orb_true_r.
Qed.

Lemma lower_ascii_idempotent a : lower_ascii (lower_ascii a) = lower_ascii a.
Proof. destruct a as [[] [] [] [] [] [] [] []]; reflexivity. Qed.

Lemma contains_lower c s :
  contains c (lower s) = true -> lower_ascii c = c.
Proof.
  induction s as [|a t IH]; [discriminate|].
  cbn [lower contains]. intros H. apply orb_prop in H as [H|H]; [|now apply IH].
  apply Ascii.eqb_eq in H. subst c. apply lower_ascii_idempotent.
Qed.

(** X24. The normalized application name, from which the names of the
    staging directory, of the icon-preview directory and of the desktop
    file are made, contains no space and no upper-case ASCII letter,
    whatever the application name: each of its characters is one that
    [lower] leaves as it is. *)
Theorem normalized_name_has_no_space_and_no_capital :
  forall (self : InstallerThread),
    contains " " (normalized_name self) = false
    /\ forall c, contains c (normalized_name self) = true -> lower_ascii c = c.
Proof.
  intros self. split; [apply replace_space_from|].
  intros c H. apply replace_space_keeps in H. eapply contains_lower, H.
Qed.

(* ================================================================== *)
(** ** The arc during a run *)

Lemma StronglySorted_app_inv (l l' : list Z) :
  StronglySorted Z.le (l ++ l') -> forall x y, In x l -> In y l' -> x <= y.
Proof.
  induction l as [|a l IH]; intros H x y Hx Hy; [destruct Hx|].
  cbn [app] in H. apply StronglySorted_inv in H as [Hs Ha].
  destruct Hx as [<-|Hx].
  - rewrite Forall_forall in Ha. apply Ha, in_or_app. now right.
  - now apply (IH Hs).
Qed.

Lemma last_In (l : list Z) d : l <> [] -> In (last l d) l.
Proof.
  intros H. destruct (exists_last H) as (l' & a & ->).
  rewrite last_last. apply in_or_app. right. now left.
Qed.

(** In a sorted list of values that are not negative, the last value of an
    initial segment is at most the last value of a longer one. *)
Lemma last_of_sorted_prefix (l l' : list Z) hi :
  StronglySorted Z.le (l ++ l') ->
  Forall (fun v => 0 <= v <= hi) (l ++ l') ->
  0 <= last l 0 <= last (l ++ l') 0 /\ last (l ++ l') 0 <= Z.max 0 hi.
Proof.
  intros Hs Hr. rewrite Forall_forall in Hr.
  assert (H0 : forall k, (forall v, In v k -> In v (l ++ l')) ->
                         0 <= last k 0 <= Z.max 0 hi).
  { intros k Hk. destruct k as [|a k']; [cbn; lia|].
    assert (Hin : In (last (a :: k') 0) (a :: k')) by (apply last_In; discriminate).
    specialize (Hr _ (Hk _ Hin)). lia. }
  assert (Hl : 0 <= last l 0 <= Z.max 0 hi)
    by (apply H0; intros v Hv; apply in_or_app; now left).
  assert (Hll : 0 <= last (l ++ l') 0 <= Z.max 0 hi) by (apply H0; auto).
  split; [|lia]. split; [lia|].
  destruct l' as [|b l'']; [rewrite app_nil_r; lia|].
  destruct l as [|a l0]; [cbn [app last] in *; lia|].
  assert (Hx : In (last (a :: l0) 0) (a :: l0)) by (apply last_In; discriminate).
  assert (Hy : In (last ((a :: l0) ++ b :: l'') 0) (b :: l'')).
  { replace (last ((a :: l0) ++ b :: l'') 0) with (last (b :: l'') 0).
    - apply last_In. discriminate.
    - clear. induction (a :: l0) as [|c k IH]; [reflexivity|].
      cbn [app]. rewrite IH. destruct (k ++ b :: l'') eqn:E; [|reflexivity].
      now destruct k. }
  exact (StronglySorted_app_inv _ _ Hs _ _ Hx Hy).
Qed.

(** X25. The arc only grows while the installer runs.  For a bar of the
    range 0 to 100 that the window starts with, and any two moments of a
    run before its completion signal, the arc drawn at the later moment
    is at least as long as the arc drawn at the earlier one, and neither
    exceeds a full turn. *)
Theorem arc_only_grows_during_a_run :
  forall (host : Host) (self : InstallerThread) (w : world)
         (window : CleanModernInstaller) (l1 l2 rest : list event),
    _min (progress_bar window) = 0 ->
    _max (progress_bar window) = 100 ->
    new_events w (snd (run host self w)) = l1 ++ l2 ++ rest ->
    Forall still_running (l1 ++ l2) ->
    let earlier := progress_bar (after_signals l1 window) in
    let later := progress_bar (after_signals (l1 ++ l2) window) in
    -5760 <= arc_span later /\ arc_span later <= arc_span earlier /\ arc_span earlier <= 0.
Proof.
  intros host self w window l1 l2 rest Hmin Hmax Hev Hrun earlier later.
  destruct (run_values_in_order host self w) as [Hsorted Hrange].
  rewrite Hev in Hsorted, Hrange. rewrite !progress_values_app in Hsorted, Hrange.
  rewrite app_assoc in Hsorted, Hrange.
  assert (Hsorted' : StronglySorted Z.le (progress_values l1 ++ progress_values l2)).
  { clear - Hsorted. revert Hsorted.
    generalize (progress_values l1 ++ progress_values l2), (progress_values rest).
    intros l l'. induction l as [|a l IH]; intros H; [constructor|].
    cbn [app] in H. apply StronglySorted_inv in H as [Hs Ha]. constructor; [auto|].
    apply Forall_app in Ha. apply Ha. }
  apply Forall_app in Hrange as [Hrange' _].
  destruct (last_of_sorted_prefix _ _ 100 Hsorted' Hrange') as [[H0 H1] H2].
  rewrite <- progress_values_app in H1, H2.
  apply Forall_app in Hrun as Hrun12. destruct Hrun12 as [Hrun1 _].
  destruct (running_window l1 window Hrun1) as (_ & _ & Hv1 & _ & Hmin1 & Hmax1).
  destruct (running_window (l1 ++ l2) window Hrun) as (_ & _ & Hv2 & _ & Hmin2 & Hmax2).
  fold earlier in Hv1, Hmin1, Hmax1. fold later in Hv2, Hmin2, Hmax2.
  rewrite Hmin in Hmin1, Hmin2. rewrite Hmax in Hmax1, Hmax2.
  assert (Hle : arc_span later <= arc_span earlier).
  { apply arc_span_antitone; lia. }
  destruct (arc_span_bounds earlier) as [He1 He2]; [lia|lia|].
  destruct (arc_span_bounds later) as [Hl1 Hl2]; [lia|lia|].
  lia.
Qed.

Lemma arc_only_grows_during_a_run_witness :
  let l := new_events world_A (snd (run host_u self_A world_A)) in
  firstn 3 l = [Message (MsgTempSpot "/home/u/.foo_installer_temp_extract");
                Progress 25; Progress 50]
  /\ arc_span (progress_bar (after_signals (firstn 2 l ++ firstn 1 (skipn 2 l)) new_window))
     <= arc_span (progress_bar (after_signals (firstn 2 l) new_window)).
Proof.
  cbv zeta. split; [vm_compute; reflexivity|].
  apply (arc_only_grows_during_a_run host_u self_A world_A new_window
           (firstn 2 (new_events world_A (snd (run host_u self_A world_A))))
           (firstn 1 (skipn 2 (new_events world_A (snd (run host_u self_A world_A)))))
           (skipn 3 (new_events world_A (snd (run host_u self_A world_A))))
           eq_refl eq_refl).
  - vm_compute. reflexivity.
  - vm_compute. repeat constructor.
Defined.
